(** * LZ4 block decoder of goProbe (pkg/goDB/encoder/lz4/lz4.c, lz4.h)

    A shallow embedding of the decoding side of lz4.c: the byte and word
    primitives, [read_variable_length], [LZ4_decompress_generic] with its
    fast and safe loops and their jump targets, and the entry point
    [LZ4_decompress_safe]; and of [LZ4_compressBound] of lz4.h.

    Conventions of the embedding.
    - A pointer is a block and an offset in it.  The source buffer, the
      destination buffer and the external dictionary are three blocks, each
      a list of bytes; an access that leaves its block is a [Fault].
    - Integers are [Z].  [unsigned] wraps at 2^32, [size_t] and [uptrval] at
      2^64 (LP64), [int] at 2^31; every wrap is written out.
    - Loops carry fuel; running out of it is the outcome [OutOfFuel], which
      the theorems show never to happen.
    - [memcpy] and [memmove] both read the source range first and then write
      it. *)

From Stdlib Require Import ZArith List Bool Lia.
From Stdlib.Strings Require Import Byte.
Import ListNotations.
Open Scope Z_scope.

(** ** Machine integers *)

Definition to_unsigned (x : Z) : Z := x mod 2^32.
Definition to_size_t (x : Z) : Z := x mod 2^64.
Definition to_int (x : Z) : Z := (x + 2^31) mod 2^32 - 2^31.
Definition INT_MAX : Z := 2^31 - 1.
Definition INT_MIN : Z := - 2^31.

Definition byte_val (b : byte) : Z := Z.of_N (Byte.to_N b).
Definition byte_of (z : Z) : byte :=
  match Byte.of_N (Z.to_N (z mod 256)) with
  | Some b => b
  | None => x00
  end.

(** ** Constants of lz4.c and lz4.h *)

Definition MINMATCH : Z := 4.
Definition WILDCOPYLENGTH : Z := 8.
Definition LASTLITERALS : Z := 5.
Definition MFLIMIT : Z := 12.
Definition MATCH_SAFEGUARD_DISTANCE : Z := 2 * WILDCOPYLENGTH - MINMATCH.
Definition FASTLOOP_SAFE_DISTANCE : Z := 64.
Definition ML_BITS : Z := 4.
Definition ML_MASK : Z := Z.shiftl 1 ML_BITS - 1.
Definition RUN_BITS : Z := 8 - ML_BITS.
Definition RUN_MASK : Z := Z.shiftl 1 RUN_BITS - 1.
Definition LZ4_MAX_INPUT_SIZE : Z := 0x7E000000.

(** [LZ4_COMPRESSBOUND(isize)] on an [int] argument: both sides of the
    comparison are cast to [unsigned]; the sum and the division are [int]
    operations (C division truncates, [Z.quot]). *)
Definition LZ4_COMPRESSBOUND (isize : Z) : Z :=
  if to_unsigned LZ4_MAX_INPUT_SIZE <? to_unsigned isize then 0
  else to_int (isize + Z.quot isize 255 + 16).

Definition LZ4_compressBound (isize : Z) : Z := LZ4_COMPRESSBOUND isize.

(** ** Memory *)

Inductive block : Type := Null | Src | Dst | Dict.

Record ptr : Type := Ptr { blk : block; off : Z }.

Definition NULL : ptr := Ptr Null 0.

Definition is_null (p : ptr) : bool :=
  match blk p with
  | Null => off p =? 0
  | _ => false
  end.

Definition padd (p : ptr) (n : Z) : ptr := Ptr (blk p) (off p + n).

Record memory : Type := Mem {
  src_mem : list byte;
  dst_mem : list byte;
  dict_mem : list byte
}.

Definition len {A} (l : list A) : Z := Z.of_nat (length l).

(** The [n] bytes of [l] from offset [o], if they all exist. *)
Definition slice (l : list byte) (o n : Z) : option (list byte) :=
  if (0 <=? o) && (0 <=? n) && (o + n <=? len l)
  then Some (firstn (Z.to_nat n) (skipn (Z.to_nat o) l))
  else None.

(** [l] with the bytes [bs] written at offset [o], if they all fit. *)
Definition splice (l : list byte) (o : Z) (bs : list byte) : option (list byte) :=
  if (0 <=? o) && (o + len bs <=? len l)
  then Some (firstn (Z.to_nat o) l ++ bs ++ skipn (Z.to_nat o + length bs) l)
  else None.

Definition load (m : memory) (p : ptr) (n : Z) : option (list byte) :=
  match blk p with
  | Null => None
  | Src => slice (src_mem m) (off p) n
  | Dst => slice (dst_mem m) (off p) n
  | Dict => slice (dict_mem m) (off p) n
  end.

(** Only the destination block is written: the source and the dictionary
    are [const]. *)
Definition store (m : memory) (p : ptr) (bs : list byte) : option memory :=
  match blk p with
  | Dst =>
      match splice (dst_mem m) (off p) bs with
      | Some d => Some (Mem (src_mem m) d (dict_mem m))
      | None => None
      end
  | _ => None
  end.

(** ** Outcomes *)

Inductive outcome : Type :=
| Returned (rv : Z) (ip op : Z) (m : memory)
    (* the function returned [rv]; [ip], [op] and [m] are the cursors and
       the memory at that point *)
| Fault        (* an access outside its block *)
| OutOfFuel.

(** ** Jumps

    The decoder is two [while (1)] loops with labels inside the second one.
    A forward [goto] is a call of the code at its label; what is left are
    the ends of a loop body. *)

Inductive jump : Type :=
| next_fast (ip op : Z) (m : memory)   (* the fast loop iterates *)
| next_safe (ip op : Z) (m : memory)   (* the main loop iterates *)
| break_ (ip op : Z) (m : memory)      (* [break] of the main loop *)
| exit_ (o : outcome).                 (* [return], or a fault *)

Inductive ctl (A : Type) : Type :=
| Val (a : A)
| Goto (j : jump).
Arguments Val {A} a.
Arguments Goto {A} j.

Definition bind {A B} (c : ctl A) (k : A -> ctl B) : ctl B :=
  match c with
  | Val a => k a
  | Goto j => Goto j
  end.

Notation "x <- c ;; k" := (bind c (fun x => k))
  (at level 61, c at next level, right associativity).
Notation "' pat <- c ;; k" := (bind c (fun x => match x with pat => k end))
  (at level 61, pat pattern, c at next level, right associativity).

Definition land (c : ctl jump) : jump :=
  match c with
  | Val j => j
  | Goto j => j
  end.

(** [goto] a label: the code at the label runs to the end of its loop body. *)
Definition goto {A} (c : ctl jump) : ctl A := Goto (land c).

Definition lift {A} (o : option A) : ctl A :=
  match o with
  | Some a => Val a
  | None => Goto (exit_ Fault)
  end.

Definition read8 (m : memory) (p : ptr) : ctl Z :=
  bs <- lift (load m p 1) ;;
  Val (byte_val (hd x00 bs)).

Definition memcpy (m : memory) (d s : ptr) (n : Z) : ctl memory :=
  bs <- lift (load m s n) ;;
  lift (store m d bs).

Definition memmove := memcpy.

Definition write_bytes (m : memory) (d : ptr) (bs : list byte) : ctl memory :=
  lift (store m d bs).

(** [LZ4_readLE16]: the value is the little-endian one on either kind of
    CPU. *)
Definition LZ4_readLE16 (m : memory) (p : ptr) : ctl Z :=
  bs <- lift (load m p 2) ;;
  Val (byte_val (nth 0 bs x00) + Z.shiftl (byte_val (nth 1 bs x00)) 8).

(** [LZ4_write32(p, 0)] *)
Definition LZ4_write32_zero (m : memory) (p : ptr) : ctl memory :=
  write_bytes m p [x00; x00; x00; x00].

(** ** read_variable_length *)

Inductive variable_length_error : Type := loop_error | initial_error | ok.

Record vl_result : Type := VL {
  vl_length : Z;                       (* the value returned *)
  vl_ip : Z;                           (* [*ip] on return *)
  vl_error : variable_length_error     (* [*error] on return *)
}.

(** The [do ... while (s==255)] loop.  [rest] is the part of the block at
    and after the cursor: when it is empty the read [**ip] leaves the
    block. *)
Fixpoint read_variable_length_loop (rest : list byte) (ip lencheck : Z)
    (loop_check : bool) (error : variable_length_error) (length : Z)
    : ctl vl_result :=
  match rest with
  | [] => Goto (exit_ Fault)
  | b :: rest' =>
      let s := byte_val b in
      let ip := ip + 1 in
      let length := to_unsigned (length + s) in
      if loop_check && (lencheck <=? ip) then Val (VL length ip loop_error)
      else if s =? 255
           then read_variable_length_loop rest' ip lencheck loop_check error length
           else Val (VL length ip error)
  end.

(** The bytes of block [b] from offset [o] on; none when [o] is not an
    offset of the block. *)
Definition bytes_from (m : memory) (b : block) (o : Z) : list byte :=
  let l := match b with
           | Null => []
           | Src => src_mem m
           | Dst => dst_mem m
           | Dict => dict_mem m
           end in
  if 0 <=? o then skipn (Z.to_nat o) l else [].

Definition read_variable_length (m : memory) (b : block) (ip lencheck : Z)
    (loop_check initial_check : bool) (error : variable_length_error)
    : ctl vl_result :=
  let length := 0 in
  if initial_check && (lencheck <=? ip) then Val (VL length ip initial_error)
  else read_variable_length_loop (bytes_from m b ip) ip lencheck loop_check
                                 error length.


(** ** Copy routines *)

(** [do { memcpy(d,s,8); d+=8; s+=8; } while (d<e);] *)
Fixpoint LZ4_wildCopy8_loop (fuel : nat) (m : memory) (d s : ptr) (e : Z)
    : ctl memory :=
  m <- memcpy m d s 8 ;;
  let d := padd d 8 in
  let s := padd s 8 in
  if off d <? e then
    match fuel with
    | O => Goto (exit_ OutOfFuel)
    | S fuel' => LZ4_wildCopy8_loop fuel' m d s e
    end
  else Val m.

Definition LZ4_wildCopy8 (m : memory) (dstPtr srcPtr : ptr) (dstEnd : Z)
    : ctl memory :=
  LZ4_wildCopy8_loop (Z.to_nat (dstEnd - off dstPtr)) m dstPtr srcPtr dstEnd.

Definition inc32table : list Z := [0; 1; 2; 1; 0; 4; 4; 4].
Definition dec64table : list Z := [0; 0; 0; -1; -4; 1; 2; 3].

(** [dstPtr[i] = srcPtr[i]] *)
Definition copy_byte (m : memory) (dstPtr srcPtr : ptr) (i : Z) : ctl memory :=
  memcpy m (padd dstPtr i) (padd srcPtr i) 1.

Definition LZ4_memcpy_using_offset_base (m : memory) (dstPtr srcPtr : ptr)
    (dstEnd : Z) (offset : Z) : ctl memory :=
  '(m, dstPtr, srcPtr) <-
    (if offset <? 8 then
       m <- copy_byte m dstPtr srcPtr 0 ;;
       m <- copy_byte m dstPtr srcPtr 1 ;;
       m <- copy_byte m dstPtr srcPtr 2 ;;
       m <- copy_byte m dstPtr srcPtr 3 ;;
       let srcPtr := padd srcPtr (nth (Z.to_nat offset) inc32table 0) in
       m <- memcpy m (padd dstPtr 4) srcPtr 4 ;;
       let srcPtr := padd srcPtr (- nth (Z.to_nat offset) dec64table 0) in
       let dstPtr := padd dstPtr 8 in
       Val (m, dstPtr, srcPtr)
     else
       m <- memcpy m dstPtr srcPtr 8 ;;
       Val (m, padd dstPtr 8, padd srcPtr 8)) ;;
  LZ4_wildCopy8 m dstPtr srcPtr dstEnd.

(** [do { memcpy(d,s,16); memcpy(d+16,s+16,16); d+=32; s+=32; } while (d<e);] *)
Fixpoint LZ4_wildCopy32_loop (fuel : nat) (m : memory) (d s : ptr) (e : Z)
    : ctl memory :=
  m <- memcpy m d s 16 ;;
  m <- memcpy m (padd d 16) (padd s 16) 16 ;;
  let d := padd d 32 in
  let s := padd s 32 in
  if off d <? e then
    match fuel with
    | O => Goto (exit_ OutOfFuel)
    | S fuel' => LZ4_wildCopy32_loop fuel' m d s e
    end
  else Val m.

Definition LZ4_wildCopy32 (m : memory) (dstPtr srcPtr : ptr) (dstEnd : Z)
    : ctl memory :=
  LZ4_wildCopy32_loop (Z.to_nat (dstEnd - off dstPtr)) m dstPtr srcPtr dstEnd.

(** [while (dstPtr < dstEnd) { memcpy(dstPtr, v, 8); dstPtr += 8; }] *)
Fixpoint fill_pattern_loop (fuel : nat) (m : memory) (dstPtr : ptr)
    (dstEnd : Z) (v : list byte) : ctl memory :=
  if off dstPtr <? dstEnd then
    match fuel with
    | O => Goto (exit_ OutOfFuel)
    | S fuel' =>
        m <- write_bytes m dstPtr v ;;
        fill_pattern_loop fuel' m (padd dstPtr 8) dstEnd v
    end
  else Val m.

Definition LZ4_memcpy_using_offset (m : memory) (dstPtr srcPtr : ptr)
    (dstEnd : Z) (offset : Z) : ctl memory :=
  m <- LZ4_write32_zero m dstPtr ;;
  let fill (m : memory) (v : list byte) : ctl memory :=
    m <- write_bytes m dstPtr v ;;
    let dstPtr := padd dstPtr 8 in
    fill_pattern_loop (Z.to_nat (dstEnd - off dstPtr)) m dstPtr dstEnd v in
  match offset with
  | 1 =>
      b <- lift (load m srcPtr 1) ;;
      fill m (repeat (hd x00 b) 8)
  | 2 =>
      s2 <- lift (load m srcPtr 2) ;;
      fill m (s2 ++ s2 ++ firstn 4 (s2 ++ s2))
  | 4 =>
      s4 <- lift (load m srcPtr 4) ;;
      fill m (s4 ++ s4)
  | _ => LZ4_memcpy_using_offset_base m dstPtr srcPtr dstEnd offset
  end.

(** [while (op < e) { *op++ = *from++; }], returning the memory and [op]. *)
Fixpoint copy_bytes_loop (fuel : nat) (m : memory) (op from : ptr) (e : Z)
    : ctl (memory * Z) :=
  if off op <? e then
    match fuel with
    | O => Goto (exit_ OutOfFuel)
    | S fuel' =>
        m <- memcpy m op from 1 ;;
        copy_bytes_loop fuel' m (padd op 1) (padd from 1) e
    end
  else Val (m, off op).

Definition copy_bytes (m : memory) (op from : ptr) (e : Z) : ctl (memory * Z) :=
  copy_bytes_loop (Z.to_nat (e - off op)) m op from e.

(** ** Words in the byte order of the CPU *)

(** The value of bytes, the first one the least significant. *)
Fixpoint le_value (bs : list byte) : Z :=
  match bs with
  | [] => 0
  | b :: bs' => byte_val b + 256 * le_value bs'
  end.

(** The [n] bytes of [v], the least significant one first. *)
Fixpoint le_bytes (n : nat) (v : Z) : list byte :=
  match n with
  | O => []
  | S n' => byte_of v :: le_bytes n' (v / 256)
  end.

(** [little_endian] tells the kind of CPU: a word in memory has its bytes
    in that order. *)
Definition native_value (little_endian : bool) (bs : list byte) : Z :=
  if little_endian then le_value bs else le_value (rev bs).

Definition native_bytes (little_endian : bool) (n : nat) (v : Z) : list byte :=
  if little_endian then le_bytes n v else rev (le_bytes n v).

(** [const union { U32 u; BYTE c[4]; } one = { 1 }; return one.c[0];] *)
Definition LZ4_isLittleEndian (little_endian : bool) : Z :=
  byte_val (hd x00 (native_bytes little_endian 4 1)).

Definition LZ4_read16 (little_endian : bool) (m : memory) (p : ptr) : ctl Z :=
  bs <- lift (load m p 2) ;;
  Val (native_value little_endian bs).

Definition LZ4_read32 (little_endian : bool) (m : memory) (p : ptr) : ctl Z :=
  bs <- lift (load m p 4) ;;
  Val (native_value little_endian bs).

(** [reg_t] has 8 bytes (LP64). *)
Definition LZ4_read_ARCH (little_endian : bool) (m : memory) (p : ptr) : ctl Z :=
  bs <- lift (load m p 8) ;;
  Val (native_value little_endian bs).

(** [LZ4_readLE16] with its test of the CPU:
    [return (U16)((U16)p[0] + (p[1]<<8));] on a big-endian one. *)
Definition LZ4_readLE16_on (little_endian : bool) (m : memory) (p : ptr)
    : ctl Z :=
  if negb (LZ4_isLittleEndian little_endian =? 0) then
    LZ4_read16 little_endian m p
  else
    p0 <- read8 m (padd p 0) ;;
    p1 <- read8 m (padd p 1) ;;
    Val ((p0 mod 2 ^ 16 + Z.shiftl p1 8) mod 2 ^ 16).

(** ** Common functions *)

Definition to_U64 (x : Z) : Z := x mod 2 ^ 64.

(** [__builtin_ctzll] and [__builtin_clzll] (or [_BitScanForward64],
    [_BitScanReverse64]) on a non-zero 64-bit value. *)
Fixpoint ctz_pos (p : positive) : Z :=
  match p with
  | xO q => 1 + ctz_pos q
  | _ => 0
  end.

Definition builtin_ctzll (v : Z) : Z :=
  match v with
  | Zpos p => ctz_pos p
  | _ => 0
  end.

Definition builtin_clzll (v : Z) : Z := 63 - Z.log2 v.

Definition DeBruijnBytePos : list Z :=
  [0; 0; 0; 0; 0; 1; 1; 2;
   0; 3; 1; 3; 1; 4; 2; 7;
   0; 2; 3; 6; 1; 5; 3; 5;
   1; 3; 4; 4; 2; 5; 6; 7;
   7; 0; 1; 2; 3; 3; 4; 6;
   2; 6; 5; 5; 3; 4; 5; 6;
   7; 1; 2; 4; 6; 4; 4; 5;
   7; 2; 6; 5; 7; 6; 7; 7].

(** [LZ4_NbCommonBytes] at [sizeof(val)==8].  [sw_bitcount] tells that the
    hardware bit count is not used ([LZ4_FORCE_SW_BITCOUNT], or a compiler
    without it). *)
Definition LZ4_NbCommonBytes (little_endian sw_bitcount : bool) (val : Z) : Z :=
  if negb (LZ4_isLittleEndian little_endian =? 0) then
    if sw_bitcount then
      nth (Z.to_nat
             (Z.shiftr (to_U64 (Z.land val (to_U64 (- val)) * 0x0218A392CDABBD3F))
                       58))
          DeBruijnBytePos 0
    else Z.shiftr (builtin_ctzll val) 3
  else
    if sw_bitcount then
      let by32 := 8 * 4 in
      let '(r, val) :=
        if Z.shiftr val by32 =? 0 then (4, val) else (0, Z.shiftr val by32) in
      let '(r, val) :=
        if Z.shiftr val 16 =? 0 then (r + 2, Z.shiftr val 8)
        else (r, Z.shiftr val 24) in
      r + (if val =? 0 then 1 else 0)
    else Z.shiftr (builtin_clzll val) 3.

Definition STEPSIZE : Z := 8.

(** The [while] loop of [LZ4_count]. *)
Fixpoint LZ4_count_loop (fuel : nat) (little_endian sw_bitcount : bool)
    (m : memory) (pIn pMatch : ptr) (pInLimit pStart : Z)
    : ctl (Z + ptr * ptr) :=
  if off pIn <? pInLimit - (STEPSIZE - 1) then
    a <- LZ4_read_ARCH little_endian m pMatch ;;
    b <- LZ4_read_ARCH little_endian m pIn ;;
    let diff := Z.lxor a b in
    if diff =? 0 then
      match fuel with
      | O => Goto (exit_ OutOfFuel)
      | S fuel' =>
          LZ4_count_loop fuel' little_endian sw_bitcount m
                         (padd pIn STEPSIZE) (padd pMatch STEPSIZE)
                         pInLimit pStart
      end
    else
      let pIn := padd pIn (LZ4_NbCommonBytes little_endian sw_bitcount diff) in
      Val (inl (to_unsigned (off pIn - pStart)))
  else Val (inr (pIn, pMatch)).

(** [LZ4_count]: the value returned, or a fault. *)
Definition LZ4_count (little_endian sw_bitcount : bool) (m : memory)
    (pIn pMatch : ptr) (pInLimit : Z) : ctl Z :=
  let pStart := off pIn in
  r <-
    (if off pIn <? pInLimit - (STEPSIZE - 1) then
       a <- LZ4_read_ARCH little_endian m pMatch ;;
       b <- LZ4_read_ARCH little_endian m pIn ;;
       let diff := Z.lxor a b in
       if diff =? 0 then Val (inr (padd pIn STEPSIZE, padd pMatch STEPSIZE))
       else Val (inl (LZ4_NbCommonBytes little_endian sw_bitcount diff))
     else Val (inr (pIn, pMatch))) ;;
  match r with
  | inl n => Val n
  | inr (pIn, pMatch) =>
      r <- LZ4_count_loop (Z.to_nat (pInLimit - off pIn))
                          little_endian sw_bitcount m pIn pMatch
                          pInLimit pStart ;;
      match r with
      | inl n => Val n
      | inr (pIn, pMatch) =>
          '(pIn, pMatch) <-
            (if (STEPSIZE =? 8) && (off pIn <? pInLimit - 3) then
               a <- LZ4_read32 little_endian m pMatch ;;
               b <- LZ4_read32 little_endian m pIn ;;
               if a =? b then Val (padd pIn 4, padd pMatch 4)
               else Val (pIn, pMatch)
             else Val (pIn, pMatch)) ;;
          '(pIn, pMatch) <-
            (if off pIn <? pInLimit - 1 then
               a <- LZ4_read16 little_endian m pMatch ;;
               b <- LZ4_read16 little_endian m pIn ;;
               if a =? b then Val (padd pIn 2, padd pMatch 2)
               else Val (pIn, pMatch)
             else Val (pIn, pMatch)) ;;
          pIn <-
            (if off pIn <? pInLimit then
               a <- read8 m pMatch ;;
               b <- read8 m pIn ;;
               if a =? b then Val (padd pIn 1) else Val pIn
             else Val pIn) ;;
          Val (to_unsigned (off pIn - pStart))
      end
  end.

(** ** LZ4_decompress_generic *)

(** The directives are C enums used as truth values. *)
Definition endOnOutputSize : bool := false.
Definition endOnInputSize : bool := true.
Definition decode_full_block : bool := false.
Definition partial_decode : bool := true.

Inductive dict_directive : Type := noDict | withPrefix64k | usingExtDict | usingDictCtx.

Definition dict_eqb (a b : dict_directive) : bool :=
  match a, b with
  | noDict, noDict | withPrefix64k, withPrefix64k
  | usingExtDict, usingExtDict | usingDictCtx, usingDictCtx => true
  | _, _ => false
  end.

(** The platform and the parameters of [LZ4_decompress_generic]. *)
Record params : Type := Params {
  base : block -> Z;
    (* the address of the first byte of each block, for the casts of
       pointers to [uptrval] *)
  LZ4_FAST_DEC_LOOP : bool;     (* the compile-time switch *)
  src : ptr;
  dst : ptr;
  srcSize : Z;
  outputSize : Z;         (* if endOnInput==endOnInputSize, this is dstCapacity *)
  endOnInput : bool;      (* endOnOutputSize, endOnInputSize *)
  partialDecoding : bool; (* full, partial *)
  dict : dict_directive;  (* noDict, withPrefix64k, usingExtDict *)
  lowPrefix : ptr;        (* always <= dst, == dst when no prefix *)
  dictStart : ptr;        (* only if dict==usingExtDict *)
  dictSize : Z            (* note : = 0 if noDict *)
}.

Section Generic.

Variable P : params.

Local Abbreviation base := (base P).
Local Abbreviation LZ4_FAST_DEC_LOOP := (LZ4_FAST_DEC_LOOP P).
Local Abbreviation src := (src P).
Local Abbreviation dst := (dst P).
Local Abbreviation srcSize := (srcSize P).
Local Abbreviation outputSize := (outputSize P).
Local Abbreviation endOnInput := (endOnInput P).
Local Abbreviation partialDecoding := (partialDecoding P).
Local Abbreviation dict := (dict P).
Local Abbreviation lowPrefix := (lowPrefix P).
Local Abbreviation dictStart := (dictStart P).
Local Abbreviation dictSize := (dictSize P).

Definition uptrval (p : ptr) : Z := to_size_t (base (blk p) + off p).

(** [(uptrval)(p)+length < (uptrval)(p)] *)
Definition ptr_overflow (p : ptr) (length : Z) : bool :=
  to_size_t (uptrval p + length) <? uptrval p.

Definition iend : Z := off src + srcSize.
Definition oend : Z := off dst + outputSize.
Definition dictEnd : ptr := if is_null dictStart then NULL else padd dictStart dictSize.
Definition safeDecode : bool := endOnInput.
Definition checkOffset : bool := safeDecode && (dictSize <? 64 * 1024).
Definition shortiend : Z := iend - (if endOnInput then 14 else 8) - 2.
Definition shortoend : Z := oend - (if endOnInput then 14 else 8) - 18.

(** A cursor of the input, of the output. *)
Definition ipp (ip : Z) : ptr := Ptr (blk src) ip.
Definition opp (op : Z) : ptr := Ptr (blk dst) op.

(** [_output_error: return (int) (-(((const char* )ip)-src))-1;] *)
Definition output_error {A} (ip op : Z) (m : memory) : ctl A :=
  Goto (exit_ (Returned (to_int (to_int (- (ip - off src)) - 1)) ip op m)).

(** The match starts in the external dictionary (the same code in both
    loops); then [continue]. *)
Definition copy_from_extDict (next : Z -> Z -> memory -> jump)
    (ip op : Z) (m : memory) (length match_ : Z) : ctl jump :=
  length <-
    (if oend - LASTLITERALS <? op + length then
       if partialDecoding then Val (Z.min length (to_size_t (oend - op)))
       else output_error ip op m
     else Val length) ;;
  if length <=? to_size_t (off lowPrefix - match_) then
    m <- memmove m (opp op) (padd dictEnd (- (off lowPrefix - match_))) length ;;
    let op := op + length in
    Goto (next ip op m)
  else
    let copySize := to_size_t (off lowPrefix - match_) in
    let restSize := length - copySize in
    m <- memcpy m (opp op) (padd dictEnd (- copySize)) copySize ;;
    let op := op + copySize in
    if to_size_t (op - off lowPrefix) <? restSize then
      let endOfMatch := op + restSize in
      '(m, op) <- copy_bytes m (opp op) lowPrefix endOfMatch ;;
      Goto (next ip op m)
    else
      m <- memcpy m (opp op) lowPrefix restSize ;;
      let op := op + restSize in
      Goto (next ip op m).

(** *** The main loop, from its last label to its first *)

(** [safe_match_copy:] to the end of the loop body. *)
Definition safe_match_copy (ip op : Z) (m : memory)
    (length offset match_ : Z) : ctl jump :=
  if checkOffset && (match_ + dictSize <? off lowPrefix)
  then output_error ip op m
  else if dict_eqb dict usingExtDict && (match_ <? off lowPrefix)
  then copy_from_extDict next_safe ip op m length match_
  else
    let cpy := op + length in
    if partialDecoding && (oend - MATCH_SAFEGUARD_DISTANCE <? cpy) then
      let mlen := Z.min length (to_size_t (oend - op)) in
      let matchEnd := match_ + mlen in
      let copyEnd := op + mlen in
      m <- (if op <? matchEnd then
              '(m, _) <- copy_bytes m (opp op) (opp match_) copyEnd ;; Val m
            else memcpy m (opp op) (opp match_) mlen) ;;
      let op := copyEnd in
      if op =? oend then Goto (break_ ip op m) else Goto (next_safe ip op m)
    else
      '(m, match_) <-
        (if offset <? 8 then
           m <- LZ4_write32_zero m (opp op) ;;
           m <- copy_byte m (opp op) (opp match_) 0 ;;
           m <- copy_byte m (opp op) (opp match_) 1 ;;
           m <- copy_byte m (opp op) (opp match_) 2 ;;
           m <- copy_byte m (opp op) (opp match_) 3 ;;
           let match_ := match_ + nth (Z.to_nat offset) inc32table 0 in
           m <- memcpy m (opp (op + 4)) (opp match_) 4 ;;
           let match_ := match_ - nth (Z.to_nat offset) dec64table 0 in
           Val (m, match_)
         else
           m <- memcpy m (opp op) (opp match_) 8 ;;
           Val (m, match_ + 8)) ;;
      let op := op + 8 in
      m <-
        (if oend - MATCH_SAFEGUARD_DISTANCE <? cpy then
           let oCopyLimit := oend - (WILDCOPYLENGTH - 1) in
           if oend - LASTLITERALS <? cpy then output_error ip op m
           else
             '(m, op, match_) <-
               (if op <? oCopyLimit then
                  m <- LZ4_wildCopy8 m (opp op) (opp match_) oCopyLimit ;;
                  Val (m, oCopyLimit, match_ + (oCopyLimit - op))
                else Val (m, op, match_)) ;;
             '(m, _) <- copy_bytes m (opp op) (opp match_) cpy ;;
             Val m
         else
           m <- memcpy m (opp op) (opp match_) 8 ;;
           if 16 <? length
           then LZ4_wildCopy8 m (opp (op + 8)) (opp (match_ + 8)) cpy
           else Val m) ;;
      let op := cpy in
      Goto (next_safe ip op m).

(** [_copy_match:] *)
Definition copy_match (ip op : Z) (m : memory) (length offset match_ : Z)
    : ctl jump :=
  '(ip, length) <-
    (if length =? ML_MASK then
       r <- read_variable_length m (blk src) ip (iend - LASTLITERALS + 1)
                                 endOnInput false ok ;;
       let length := to_size_t (length + vl_length r) in
       let ip := vl_ip r in
       match vl_error r with
       | ok =>
           if safeDecode && ptr_overflow (opp op) length
           then output_error ip op m
           else Val (ip, length)
       | _ => output_error ip op m
       end
     else Val (ip, length)) ;;
  let length := length + MINMATCH in
  safe_match_copy ip op m length offset match_.

(** [safe_literal_copy:] *)
Definition safe_literal_copy (ip op : Z) (m : memory) (token length cpy : Z)
    : ctl jump :=
  '(ip, op, m) <-
    (if (endOnInput && ((oend - MFLIMIT <? cpy)
                        || (iend - (2 + 1 + LASTLITERALS) <? ip + length)))
        || (negb endOnInput && (oend - WILDCOPYLENGTH <? cpy))
     then
       '(length, cpy) <-
         (if partialDecoding then
            if (iend - (2 + 1 + LASTLITERALS) <? ip + length)
               && negb (ip + length =? iend)
            then output_error ip op m
            else if oend <? cpy
                 then Val (to_size_t (oend - op), oend)
                 else Val (length, cpy)
          else
            if negb endOnInput && negb (cpy =? oend)
            then output_error ip op m
            else if endOnInput && (negb (ip + length =? iend) || (oend <? cpy))
                 then output_error ip op m
                 else Val (length, cpy)) ;;
       m <- memmove m (opp op) (ipp ip) length ;;
       let ip := ip + length in
       let op := op + length in
       if negb partialDecoding || (cpy =? oend) || (ip =? iend)
       then Goto (break_ ip op m)
       else Val (ip, op, m)
     else
       m <- LZ4_wildCopy8 m (opp op) (ipp ip) cpy ;;
       Val (ip + length, cpy, m)) ;;
  (* get offset *)
  offset <- LZ4_readLE16 m (ipp ip) ;;
  let ip := ip + 2 in
  let match_ := op - offset in
  (* get matchlength *)
  let length := Z.land token ML_MASK in
  copy_match ip op m length offset match_.

(** The body of the main loop from its top. *)
Definition safe_sequence (ip op : Z) (m : memory) : ctl jump :=
  token <- read8 m (ipp ip) ;;
  let ip := ip + 1 in
  let length := Z.shiftr token ML_BITS in
  if (if endOnInput then negb (length =? RUN_MASK) else length <=? 8)
     && ((if endOnInput then ip <? shortiend else true) && (op <=? shortoend))
  then
    (* Copy the literals *)
    m <- memcpy m (opp op) (ipp ip) (if endOnInput then 16 else 8) ;;
    let op := op + length in
    let ip := ip + length in
    (* The second stage *)
    let length := Z.land token ML_MASK in
    offset <- LZ4_readLE16 m (ipp ip) ;;
    let ip := ip + 2 in
    let match_ := op - offset in
    if negb (length =? ML_MASK) && (8 <=? offset)
       && (dict_eqb dict withPrefix64k || (off lowPrefix <=? match_))
    then
      m <- memcpy m (opp (op + 0)) (opp (match_ + 0)) 8 ;;
      m <- memcpy m (opp (op + 8)) (opp (match_ + 8)) 8 ;;
      m <- memcpy m (opp (op + 16)) (opp (match_ + 16)) 2 ;;
      let op := op + (length + MINMATCH) in
      Goto (next_safe ip op m)
    else copy_match ip op m length offset match_
  else
    (* decode literal length *)
    '(ip, length) <-
      (if length =? RUN_MASK then
         r <- read_variable_length m (blk src) ip (iend - RUN_MASK)
                                   endOnInput endOnInput ok ;;
         let length := to_size_t (length + vl_length r) in
         let ip := vl_ip r in
         match vl_error r with
         | initial_error => output_error ip op m
         | _ =>
             if safeDecode && ptr_overflow (opp op) length
             then output_error ip op m
             else if safeDecode && ptr_overflow (ipp ip) length
                  then output_error ip op m
                  else Val (ip, length)
         end
       else Val (ip, length)) ;;
    (* copy literals *)
    let cpy := op + length in
    safe_literal_copy ip op m token length cpy.

(** *** The fast loop *)

Definition fast_sequence (ip op : Z) (m : memory) : ctl jump :=
  token <- read8 m (ipp ip) ;;
  let ip := ip + 1 in
  let length := Z.shiftr token ML_BITS in
  (* decode literal length *)
  '(ip, op, m) <-
    (if length =? RUN_MASK then
       r <- read_variable_length m (blk src) ip (iend - RUN_MASK)
                                 endOnInput endOnInput ok ;;
       let length := to_size_t (length + vl_length r) in
       let ip := vl_ip r in
       match vl_error r with
       | initial_error => output_error ip op m
       | _ =>
           if safeDecode && ptr_overflow (opp op) length
           then output_error ip op m
           else if safeDecode && ptr_overflow (ipp ip) length
           then output_error ip op m
           else
             (* copy literals *)
             let cpy := op + length in
             if endOnInput then
               if (oend - 32 <? cpy) || (iend - 32 <? ip + length)
               then goto (safe_literal_copy ip op m token length cpy)
               else
                 m <- LZ4_wildCopy32 m (opp op) (ipp ip) cpy ;;
                 Val (ip + length, cpy, m)
             else
               if oend - 8 <? cpy
               then goto (safe_literal_copy ip op m token length cpy)
               else
                 m <- LZ4_wildCopy8 m (opp op) (ipp ip) cpy ;;
                 Val (ip + length, cpy, m)
       end
     else
       let cpy := op + length in
       if endOnInput then
         if iend - (16 + 1) <? ip
         then goto (safe_literal_copy ip op m token length cpy)
         else
           m <- memcpy m (opp op) (ipp ip) 16 ;;
           Val (ip + length, cpy, m)
       else
         m <- memcpy m (opp op) (ipp ip) 8 ;;
         m <- (if 8 <? length
               then memcpy m (opp (op + 8)) (ipp (ip + 8)) 8
               else Val m) ;;
         Val (ip + length, cpy, m)) ;;
  (* get offset *)
  offset <- LZ4_readLE16 m (ipp ip) ;;
  let ip := ip + 2 in
  let match_ := op - offset in
  (* get matchlength *)
  let length := Z.land token ML_MASK in
  '(ip, length) <-
    (if length =? ML_MASK then
       if checkOffset && (match_ + dictSize <? off lowPrefix)
       then output_error ip op m
       else
         r <- read_variable_length m (blk src) ip (iend - LASTLITERALS + 1)
                                   endOnInput false ok ;;
         let length := to_size_t (length + vl_length r) in
         let ip := vl_ip r in
         match vl_error r with
         | ok =>
             if safeDecode && ptr_overflow (opp op) length
             then output_error ip op m
             else
               let length := length + MINMATCH in
               if oend - FASTLOOP_SAFE_DISTANCE <=? op + length
               then goto (safe_match_copy ip op m length offset match_)
               else Val (ip, length)
         | _ => output_error ip op m
         end
     else
       let length := length + MINMATCH in
       if oend - FASTLOOP_SAFE_DISTANCE <=? op + length
       then goto (safe_match_copy ip op m length offset match_)
       else
         (* Fastpath check *)
         if (dict_eqb dict withPrefix64k || (off lowPrefix <=? match_))
            && (8 <=? offset)
         then
           m <- memcpy m (opp op) (opp match_) 8 ;;
           m <- memcpy m (opp (op + 8)) (opp (match_ + 8)) 8 ;;
           m <- memcpy m (opp (op + 16)) (opp (match_ + 16)) 2 ;;
           let op := op + length in
           Goto (next_fast ip op m)
         else Val (ip, length)) ;;
  if checkOffset && (match_ + dictSize <? off lowPrefix)
  then output_error ip op m
  else if dict_eqb dict usingExtDict && (match_ <? off lowPrefix)
  then copy_from_extDict next_fast ip op m length match_
  else
    (* copy match within block *)
    let cpy := op + length in
    m <- (if offset <? 16
          then LZ4_memcpy_using_offset m (opp op) (opp match_) cpy offset
          else LZ4_wildCopy32 m (opp op) (opp match_) cpy) ;;
    let op := cpy in
    Goto (next_fast ip op m).

(** *** The two loops and the end of decoding *)

Fixpoint decode_loop (fuel : nat) (j : jump) : outcome :=
  match j with
  | exit_ o => o
  | break_ ip op m =>
      (* end of decoding *)
      if endOnInput
      then Returned (to_int (op - off dst)) ip op m
      else Returned (to_int (ip - off src)) ip op m
  | next_fast ip op m =>
      match fuel with
      | O => OutOfFuel
      | S fuel' => decode_loop fuel' (land (fast_sequence ip op m))
      end
  | next_safe ip op m =>
      match fuel with
      | O => OutOfFuel
      | S fuel' => decode_loop fuel' (land (safe_sequence ip op m))
      end
  end.

(** The function up to its first loop: the special cases, then the fast
    loop when it is compiled in and the output has room for it, else the
    main loop. *)
Definition decode_entry (m : memory) : ctl jump :=
  let ip := off src in
  let op := off dst in
  if is_null src then Goto (exit_ (Returned (-1) ip op m))
  else if endOnInput && (outputSize =? 0) then
    (* Empty output buffer *)
    if partialDecoding then Goto (exit_ (Returned 0 ip op m))
    else if srcSize =? 1 then
      b <- read8 m (ipp ip) ;;
      Goto (exit_ (Returned (if b =? 0 then 0 else -1) ip op m))
    else Goto (exit_ (Returned (-1) ip op m))
  else if negb endOnInput && (outputSize =? 0) then
    b <- read8 m (ipp ip) ;;
    Goto (exit_ (Returned (if b =? 0 then 1 else -1) ip op m))
  else if endOnInput && (srcSize =? 0) then
    Goto (exit_ (Returned (-1) ip op m))
  else if LZ4_FAST_DEC_LOOP && negb (oend - op <? FASTLOOP_SAFE_DISTANCE)
  then Goto (next_fast ip op m)
  else Goto (next_safe ip op m).

Definition LZ4_decompress_generic (fuel : nat) (m : memory) : outcome :=
  decode_loop fuel (land (decode_entry m)).

End Generic.

(** ** LZ4_decompress_safe *)

(** The directives that [LZ4_decompress_safe] fixes. *)
Definition safe_params (base : block -> Z) (LZ4_FAST_DEC_LOOP : bool)
    (source dest : ptr) (compressedSize maxDecompressedSize : Z) : params :=
  Params base LZ4_FAST_DEC_LOOP source dest
         compressedSize maxDecompressedSize
         endOnInputSize decode_full_block noDict dest NULL 0.

Definition LZ4_decompress_safe (base : block -> Z) (LZ4_FAST_DEC_LOOP : bool)
    (fuel : nat) (m : memory) (source dest : ptr)
    (compressedSize maxDecompressedSize : Z) : outcome :=
  LZ4_decompress_generic
    (safe_params base LZ4_FAST_DEC_LOOP source dest
                 compressedSize maxDecompressedSize)
    fuel m.

(** * Specification *)

(** ** Shapes of memory and of computations *)

Definition blen (m : memory) (b : block) : Z :=
  match b with
  | Null => 0
  | Src => len (src_mem m)
  | Dst => len (dst_mem m)
  | Dict => len (dict_mem m)
  end.

(** The [n] bytes at [p] lie in the block of [p]. *)
Definition inb (m : memory) (p : ptr) (n : Z) : Prop :=
  blk p <> Null /\ 0 <= off p /\ 0 <= n /\ off p + n <= blen m (blk p).

(** [m'] is [m] with some bytes of the destination block overwritten. *)
Definition same_shape (m m' : memory) : Prop :=
  src_mem m' = src_mem m /\ dict_mem m' = dict_mem m /\
  len (dst_mem m') = len (dst_mem m).

(** [Q] holds of the value of [c], or [J] of the jump it takes. *)
Definition wp {A} (c : ctl A) (Q : A -> Prop) (J : jump -> Prop) : Prop :=
  match c with
  | Val a => Q a
  | Goto j => J j
  end.

(** [c] yields a value satisfying [P], or faults. *)
Definition may {A} (c : ctl A) (P : A -> Prop) : Prop :=
  wp c P (fun j => j = exit_ Fault).

(** [c] yields a value satisfying [P]. *)
Definition must {A} (c : ctl A) (P : A -> Prop) : Prop :=
  wp c P (fun _ => False).

(** ** read_variable_length *)

(** What the loop of [read_variable_length] leaves behind. *)
Definition vl_post (ip lencheck : Z) (loop_check : bool)
    (error : variable_length_error) (r : vl_result) : Prop :=
  0 <= vl_length r < 2 ^ 32 /\ ip < vl_ip r /\
  ((vl_error r = loop_error /\ loop_check = true /\
    lencheck <= vl_ip r <= Z.max (ip + 1) lencheck)
   \/ (vl_error r = error /\ (loop_check = true -> vl_ip r < lencheck))).

(** The result of a call with the loop check on. *)
Definition vl_checked (ip lencheck : Z) (initial_check : bool)
    (r : vl_result) : Prop :=
  0 <= vl_length r < 2 ^ 32 /\
  match vl_error r with
  | initial_error => initial_check = true /\ vl_ip r = ip /\ lencheck <= ip
  | loop_error =>
      ip < vl_ip r /\ lencheck <= vl_ip r <= Z.max (ip + 1) lencheck /\
      (if initial_check then ip < lencheck else True)
  | ok => ip < vl_ip r < lencheck
  end.

(** The result of any call: the cursor did not move back. *)
Definition vl_any (ip : Z) (r : vl_result) : Prop :=
  0 <= vl_length r < 2 ^ 32 /\
  match vl_error r with
  | initial_error => vl_ip r = ip
  | _ => ip < vl_ip r
  end.

(** ** Progress of the loops *)

(** A loop body that started at [ip0] with memory [m0] leaves the decoder,
    or iterates with the input cursor moved on. *)
Definition advances (ip0 : Z) (m0 : memory) (j : jump) : Prop :=
  match j with
  | next_fast ip _ m | next_safe ip _ m => ip0 < ip /\ same_shape m0 m
  | exit_ OutOfFuel => False
  | _ => True
  end.

(** A loop body read its token inside the input block and then [advances],
    or it faulted. *)
Definition iterates (P : params) (ip : Z) (m : memory) (j : jump) : Prop :=
  match j with
  | exit_ Fault => True
  | _ => 0 <= ip < blen m (blk (src P)) /\ advances ip m j
  end.

(** Fuel for the iterations that are left: one per byte of the input block
    from the cursor on. *)
Definition enough (P : params) (fuel : nat) (j : jump) : Prop :=
  match j with
  | next_fast ip _ m | next_safe ip _ m =>
      (1 <= fuel)%nat /\ (ip < 0 \/ blen m (blk (src P)) - ip < Z.of_nat fuel)
  | exit_ OutOfFuel => False
  | _ => True
  end.

(** ** Invariants of LZ4_decompress_safe

    [cs] and [cap] are the declared sizes, [m0] the memory at the call. *)

(** What is true at a jump out of a loop body that started at [ip0]. *)
Definition safe_jump (cs cap : Z) (m0 : memory) (ip0 : Z) (j : jump) : Prop :=
  match j with
  | next_fast ip op m =>
      same_shape m0 m /\ ip0 < ip < cs /\ 0 <= ip /\ 0 <= op /\ op + 64 <= cap
  | next_safe ip op m =>
      same_shape m0 m /\ ip0 < ip < cs /\ 0 <= ip /\ 0 <= op <= cap
  | break_ ip op m =>
      same_shape m0 m /\ ip = cs /\ 0 <= op <= cap
  | exit_ (Returned rv ip op m) =>
      same_shape m0 m /\ - cs - 1 <= rv < 0
  | exit_ _ => False
  end.

(** What the loops return: an error code, or the number of bytes decoded
    with the input consumed to its end. *)
Definition safe_outcome (cs cap : Z) (m0 : memory) (o : outcome) : Prop :=
  match o with
  | Returned rv ip op m =>
      same_shape m0 m /\
      (- cs - 1 <= rv < 0 \/ (rv = op /\ 0 <= op <= cap /\ ip = cs))
  | _ => False
  end.

Definition fueled (cs : Z) (fuel : nat) (j : jump) : Prop :=
  match j with
  | next_fast ip _ _ | next_safe ip _ _ => cs - ip <= Z.of_nat fuel
  | _ => True
  end.

(** The sum of the values of a run of bytes. *)
Definition byte_sum (bs : list byte) : Z :=
  fold_right (fun b acc => byte_val b + acc) 0 bs.

(** The number of zero bytes at the start of a run of bytes. *)
Fixpoint zero_prefix (bs : list byte) : nat :=
  match bs with
  | b :: bs' => if byte_val b =? 0 then S (zero_prefix bs') else O
  | [] => O
  end.

(** The number of bytes that two runs have in common at their start. *)
Fixpoint common_prefix (a b : list byte) : nat :=
  match a, b with
  | x :: a', y :: b' =>
      if byte_val x =? byte_val y then S (common_prefix a' b') else O
  | _, _ => O
  end.

(** The bytes of two runs combined by exclusive or. *)
Fixpoint xor_bytes (a b : list byte) : list byte :=
  match a, b with
  | x :: a', y :: b' =>
      byte_of (Z.lxor (byte_val x) (byte_val y)) :: xor_bytes a' b'
  | _, _ => []
  end.

(** ** What a copy leaves in the output *)

Definition byte_at (l : list byte) (i : Z) : byte := nth (Z.to_nat i) l x00.

(** The bytes of a block. *)
Definition contents (m : memory) (b : block) : list byte :=
  match b with
  | Null => []
  | Src => src_mem m
  | Dst => dst_mem m
  | Dict => dict_mem m
  end.

(** From [m0] to [m] the output holds the bytes [f] up to [d], nothing is
    written from [w] on, and nothing outside the output. *)
Definition written (f : Z -> byte) (m0 : memory) (d w : Z) (m : memory)
    : Prop :=
  same_shape m0 m
  /\ (forall i, 0 <= i < d -> byte_at (dst_mem m) i = f i)
  /\ (forall i, w <= i -> byte_at (dst_mem m) i = byte_at (dst_mem m0) i).

(** The output [d0] with the bytes of [s] from [ip] on copied to [op] on. *)
Definition literal_byte (d0 s : list byte) (ip op i : Z) : byte :=
  if i <? op then byte_at d0 i else byte_at s (ip + (i - op)).

(** The output [d0] with its last [offset] bytes before [op] repeated from
    [op] on. *)
Definition match_byte (d0 : list byte) (offset op i : Z) : byte :=
  if i <? op then byte_at d0 i
  else byte_at d0 (op - offset + (i - op) mod offset).

(** [d'] is [d] with the bytes from [op] to [e] taken from [s] at [ip]. *)
Definition literals_copied (d s : list byte) (ip op e : Z) (d' : list byte)
    : Prop :=
  len d' = len d
  /\ (forall i, 0 <= i < op -> byte_at d' i = byte_at d i)
  /\ (forall i, op <= i < e -> byte_at d' i = byte_at s (ip + (i - op))).

(** [d'] is [d] with each byte from [op] to [e] the one [offset] before
    it. *)
Definition match_copied (d : list byte) (offset op e : Z) (d' : list byte)
    : Prop :=
  len d' = len d
  /\ (forall i, 0 <= i < op -> byte_at d' i = byte_at d i)
  /\ (forall i, op <= i < e -> byte_at d' i = byte_at d' (i - offset)).

(** Where a copy takes its bytes: once the output is written up to [d], not
    before [lo], the [step] bytes of block [sb] at [d + delta] are the next
    ones of [f]. *)
Definition feeds (f : Z -> byte) (m0 : memory) (sb : block)
    (delta step lo : Z) : Prop :=
  forall m d w k,
    written f m0 d w m -> lo <= d -> 0 <= k < step ->
    byte_at (contents m sb) (d + delta + k) = f (d + k).

(** What a copy of a match of [length] bytes leaves behind when the decoder
    goes on after it ([partial]: the copy may stop short, at the end of the
    output). *)
Definition match_done (ip op : Z) (m : memory) (partial : bool)
    (length offset : Z) (j : jump) : Prop :=
  match j with
  | exit_ _ => True
  | next_fast ip' op' m' | next_safe ip' op' m' | break_ ip' op' m' =>
      ip' = ip /\ op <= op' <= op + length
      /\ (partial = false -> op' = op + length)
      /\ same_shape m m'
      /\ match_copied (dst_mem m) offset op op' (dst_mem m')
  end.

(** ** What is decoded stays decoded *)

(** From [m0] to [m] only the output from [op] on has changed. *)
Definition kept (m0 : memory) (op : Z) (m : memory) : Prop :=
  same_shape m0 m
  /\ forall i, 0 <= i < op -> byte_at (dst_mem m) i = byte_at (dst_mem m0) i.

(** A jump out of a loop body that started with the output cursor at [op]
    and the memory [m0]. *)
Definition keeps (op : Z) (m0 : memory) (j : jump) : Prop :=
  match j with
  | exit_ (Returned _ _ _ m) => kept m0 op m
  | exit_ _ => True
  | next_fast _ op' m | next_safe _ op' m | break_ _ op' m =>
      op <= op' /\ kept m0 op m
  end.

(** ** What a sequence leaves in the output *)

(** The 16-bit value of two bytes of a run, the low byte first. *)
Definition le16_at (s : list byte) (i : Z) : Z :=
  byte_val (byte_at s i) + 256 * byte_val (byte_at s (i + 1)).

(** What one turn of a loop that started at [ip] and [op] with the memory
    [m] leaves when the decoder goes on: [L] literals taken from the input
    at [lit], then a match whose offset is the 16-bit value that follows
    the literals in the input. *)
Definition sequence_done (ip op : Z) (m : memory) (j : jump) : Prop :=
  match j with
  | exit_ _ => True
  | next_fast ip' op' m' | next_safe ip' op' m' | break_ ip' op' m' =>
      same_shape m m'
      /\ exists lit L offset,
           ip < lit /\ 0 <= L /\ lit + L <= ip' /\ op + L <= op'
           /\ literals_copied (dst_mem m) (src_mem m) lit op (op + L)
                              (dst_mem m')
           /\ (op + L < op' ->
               lit + L + 2 <= ip'
               /\ offset = le16_at (src_mem m) (lit + L)
               /\ 0 <= offset <= op + L
               /\ forall i, op + L <= i < op' ->
                    byte_at (dst_mem m') i = byte_at (dst_mem m') (i - offset))
  end.

(** ** The error code *)

(** A jump out of a loop body of [LZ4_decompress_safe] as [safe_jump] has
    it, with the error code telling where the decoder stopped. *)
Definition error_jump (cs cap : Z) (m0 : memory) (ip0 : Z) (j : jump) : Prop :=
  match j with
  | exit_ (Returned rv ip op m) =>
      same_shape m0 m /\ rv = - ip - 1 /\ 0 <= ip <= cs
  | _ => safe_jump cs cap m0 ip0 j
  end.

(** The outcome of a return at [_output_error], with the cursors and the
    memory of that point. *)
Definition at_output_error (P : params) (o : outcome) : Prop :=
  exists ip op m, @output_error P jump ip op m = Goto (exit_ o).

(** ** The last literals *)

(** What is true at a jump out of a loop body that started with the cursors
    at [ip0] and [op0]: [safe_jump], and when the decoder goes on, the
    match it has just copied ends at least LASTLITERALS bytes before the
    end of the destination, unless the body had 32 bytes of room when it
    started and gave at most 32 bytes (the shortcut of the main loop). *)
Definition last_literals_jump (cs cap : Z) (m0 : memory) (ip0 op0 : Z)
    (j : jump) : Prop :=
  safe_jump cs cap m0 ip0 j /\
  match j with
  | next_fast _ op _ | next_safe _ op _ =>
      op <= cap - LASTLITERALS \/ (op0 + 32 <= cap /\ op <= op0 + 32)
  | _ => True
  end.

(** ** A match that starts in the external dictionary *)

(** What the copy of a match of [length] bytes that starts [k] bytes before
    the prefix leaves when the decoder goes on: the last [k] bytes of the
    dictionary (it ends at [dend]), then the bytes from the start [low] of
    the prefix on. *)
Definition extDict_done (ip op : Z) (m : memory) (partial : bool)
    (length k dend low : Z) (j : jump) : Prop :=
  match j with
  | exit_ _ => True
  | next_fast ip' op' m' | next_safe ip' op' m' | break_ ip' op' m' =>
      ip' = ip /\ op <= op' <= op + length
      /\ (partial = false -> op' = op + length)
      /\ same_shape m m'
      /\ literals_copied (dst_mem m) (dict_mem m) (dend - k) op
                         (Z.min op' (op + k)) (dst_mem m')
      /\ forall i, op + k <= i < op' ->
           byte_at (dst_mem m') i = byte_at (dst_mem m') (i - (op + k - low))
  end.

(** * Proofs *)


(** ** Bytes, lists and memory *)

Lemma byte_val_range b : 0 <= byte_val b < 256.
Proof.
  unfold byte_val. pose proof (Byte.to_N_bounded b). lia.
Qed.

Lemma len_nonneg {A} (l : list A) : 0 <= len l.
Proof. unfold len. lia. Qed.

Lemma same_shape_refl m : same_shape m m.
Proof. repeat split. Qed.

Lemma same_shape_trans m1 m2 m3 :
  same_shape m1 m2 -> same_shape m2 m3 -> same_shape m1 m3.
Proof.
  unfold same_shape. intros (a & b & c) (d & e & f).
  repeat split; congruence.
Qed.

Lemma same_shape_blen m m' b : same_shape m m' -> blen m' b = blen m b.
Proof.
  intros (a & c & d). destruct b; simpl; congruence.
Qed.

Lemma slice_some l o n :
  0 <= o -> 0 <= n -> o + n <= len l ->
  exists bs, slice l o n = Some bs /\ len bs = n.
Proof.
  intros Ho Hn Hl. unfold slice.
  replace ((0 <=? o) && (0 <=? n) && (o + n <=? len l)) with true.
  2:{ symmetry. rewrite !andb_true_iff, !Z.leb_le. auto. }
  eexists. split; [reflexivity|].
  unfold len in *. rewrite length_firstn, length_skipn. lia.
Qed.

Lemma slice_len l o n bs : slice l o n = Some bs -> len bs = n.
Proof.
  unfold slice. destruct ((0 <=? o) && (0 <=? n) && (o + n <=? len l)) eqn:E; [|discriminate].
  rewrite !andb_true_iff, !Z.leb_le in E. intros [= <-].
  unfold len in *. rewrite length_firstn, length_skipn. lia.
Qed.

Lemma splice_some l o bs :
  0 <= o -> o + len bs <= len l ->
  exists l', splice l o bs = Some l' /\ len l' = len l.
Proof.
  intros Ho Hl. unfold splice.
  replace ((0 <=? o) && (o + len bs <=? len l)) with true.
  2:{ symmetry. rewrite !andb_true_iff, !Z.leb_le. auto. }
  eexists. split; [reflexivity|].
  unfold len in *. rewrite !length_app, length_firstn, length_skipn. lia.
Qed.

Lemma splice_len l o bs l' : splice l o bs = Some l' -> len l' = len l.
Proof.
  unfold splice. destruct ((0 <=? o) && (o + len bs <=? len l)) eqn:E; [|discriminate].
  rewrite !andb_true_iff, !Z.leb_le in E. intros [= <-].
  unfold len in *. rewrite !length_app, length_firstn, length_skipn. lia.
Qed.

Lemma load_some m p n :
  inb m p n -> exists bs, load m p n = Some bs /\ len bs = n.
Proof.
  intros (Hb & Ho & Hn & Hl). unfold load.
  destruct (blk p); simpl in Hl; try congruence; apply slice_some; auto.
Qed.

Lemma load_len m p n bs : load m p n = Some bs -> len bs = n.
Proof.
  unfold load. destruct (blk p); try discriminate; apply slice_len.
Qed.

Lemma store_some m p bs :
  blk p = Dst -> 0 <= off p -> off p + len bs <= len (dst_mem m) ->
  exists m', store m p bs = Some m' /\ same_shape m m'.
Proof.
  intros Hb Ho Hl. unfold store. rewrite Hb.
  destruct (splice_some (dst_mem m) (off p) bs Ho Hl) as (l' & -> & E).
  eexists. split; [reflexivity|]. repeat split; auto.
Qed.

Lemma store_shape m p bs m' : store m p bs = Some m' -> same_shape m m'.
Proof.
  unfold store. destruct (blk p); try discriminate.
  destruct (splice (dst_mem m) (off p) bs) eqn:E; [|discriminate].
  intros [= <-]. apply splice_len in E. repeat split; auto.
Qed.

(** ** Rules for [wp], [must] and [may] *)

Lemma wp_bind {A B} (c : ctl A) (k : A -> ctl B) Q J :
  wp c (fun a => wp (k a) Q J) J -> wp (bind c k) Q J.
Proof. destruct c; simpl; auto. Qed.

Lemma wp_must {A B} (c : ctl A) (k : A -> ctl B) P Q J :
  must c P -> (forall a, P a -> wp (k a) Q J) -> wp (bind c k) Q J.
Proof. unfold must. destruct c; simpl; intros; auto. contradiction. Qed.

Lemma wp_may {A B} (c : ctl A) (k : A -> ctl B) P Q (J : jump -> Prop) :
  may c P -> J (exit_ Fault) -> (forall a, P a -> wp (k a) Q J) ->
  wp (bind c k) Q J.
Proof. unfold may. destruct c; simpl; intros; subst; auto. Qed.

Lemma wp_goto {A} (c : ctl jump) (Q : A -> Prop) J :
  wp c J J -> wp (goto c) Q J.
Proof. destruct c; simpl; auto. Qed.

Lemma wp_land (c : ctl jump) (J : jump -> Prop) : wp c J J -> J (land c).
Proof. destruct c; simpl; auto. Qed.

Lemma must_may {A} (c : ctl A) P : must c P -> may c P.
Proof. unfold must, may. destruct c; simpl; auto. contradiction. Qed.

Lemma must_bind {A B} (c : ctl A) (k : A -> ctl B) P Q :
  must c P -> (forall a, P a -> must (k a) Q) -> must (bind c k) Q.
Proof. intros. eapply wp_must; eauto. Qed.

Lemma may_bind {A B} (c : ctl A) (k : A -> ctl B) P Q :
  may c P -> (forall a, P a -> may (k a) Q) -> may (bind c k) Q.
Proof. intros. eapply wp_may; eauto. Qed.

Lemma must_impl {A} (c : ctl A) (P Q : A -> Prop) :
  must c P -> (forall a, P a -> Q a) -> must c Q.
Proof. unfold must. destruct c; simpl; auto. Qed.

Lemma may_impl {A} (c : ctl A) (P Q : A -> Prop) :
  may c P -> (forall a, P a -> Q a) -> may c Q.
Proof. unfold may. destruct c; simpl; auto. Qed.

(** ** The primitives *)

Lemma lift_load_must m p n :
  inb m p n -> must (lift (load m p n)) (fun bs => len bs = n).
Proof.
  intros H. destruct (load_some m p n H) as (bs & -> & E). exact E.
Qed.

Lemma lift_load_may m p n : may (lift (load m p n)) (fun bs => len bs = n).
Proof.
  unfold may. destruct (load m p n) eqn:E; simpl; auto. eapply load_len; eauto.
Qed.

Lemma lift_store_must m p bs :
  blk p = Dst -> 0 <= off p -> off p + len bs <= blen m Dst ->
  must (lift (store m p bs)) (same_shape m).
Proof.
  intros. destruct (store_some m p bs) as (m' & -> & E); auto.
Qed.

Lemma lift_store_may m p bs : may (lift (store m p bs)) (same_shape m).
Proof.
  unfold may. destruct (store m p bs) eqn:E; simpl; auto. eapply store_shape; eauto.
Qed.

Lemma read8_must m p :
  inb m p 1 -> must (read8 m p) (fun t => 0 <= t < 256).
Proof.
  intros. unfold read8. eapply must_bind; [apply lift_load_must; auto|].
  intros bs _. red; simpl. apply byte_val_range.
Qed.

Lemma read8_may m p : may (read8 m p) (fun t => 0 <= t < 256).
Proof.
  unfold read8. eapply may_bind; [apply lift_load_may|].
  intros bs _. red; simpl. apply byte_val_range.
Qed.

Lemma readLE16_range a b :
  0 <= byte_val a + Z.shiftl (byte_val b) 8 < 65536.
Proof.
  pose proof (byte_val_range a). pose proof (byte_val_range b).
  rewrite Z.shiftl_mul_pow2 by lia. change (2 ^ 8) with 256. lia.
Qed.

Lemma LZ4_readLE16_must m p :
  inb m p 2 -> must (LZ4_readLE16 m p) (fun v => 0 <= v < 65536).
Proof.
  intros. unfold LZ4_readLE16. eapply must_bind; [apply lift_load_must; auto|].
  intros bs _. red; simpl. apply readLE16_range.
Qed.

Lemma LZ4_readLE16_may m p : may (LZ4_readLE16 m p) (fun v => 0 <= v < 65536).
Proof.
  unfold LZ4_readLE16. eapply may_bind; [apply lift_load_may|].
  intros bs _. red; simpl. apply readLE16_range.
Qed.

Lemma memcpy_must m d s n :
  inb m s n -> blk d = Dst -> 0 <= off d -> off d + n <= blen m Dst ->
  must (memcpy m d s n) (same_shape m).
Proof.
  intros. unfold memcpy. eapply must_bind; [apply lift_load_must; eauto|].
  intros bs E. cbv beta in E. apply lift_store_must; auto. lia.
Qed.

Lemma memcpy_may m d s n : may (memcpy m d s n) (same_shape m).
Proof.
  unfold memcpy. eapply may_bind; [apply lift_load_may|].
  intros bs _. apply lift_store_may.
Qed.

Lemma write_bytes_must m p bs :
  blk p = Dst -> 0 <= off p -> off p + len bs <= blen m Dst ->
  must (write_bytes m p bs) (same_shape m).
Proof. apply lift_store_must. Qed.

Lemma write_bytes_may m p bs : may (write_bytes m p bs) (same_shape m).
Proof. apply lift_store_may. Qed.

Lemma inb_shape m m' p n : same_shape m m' -> inb m p n -> inb m' p n.
Proof.
  intros S (a & b & c & d). repeat split; auto.
  rewrite (same_shape_blen _ _ _ S). auto.
Qed.

(** ** The copy loops *)

Lemma LZ4_wildCopy8_loop_must e fuel : forall m d s,
  e - off d <= Z.of_nat fuel ->
  blk d = Dst -> blk s <> Null -> 0 <= off d -> 0 <= off s ->
  off d + Z.max 8 (e - off d + 7) <= blen m Dst ->
  off s + Z.max 8 (e - off d + 7) <= blen m (blk s) ->
  must (LZ4_wildCopy8_loop fuel m d s e) (same_shape m).
Proof.
  induction fuel as [|fuel IH]; intros m d s Hf Hd Hs Hd0 Hs0 Bd Bs.
  - simpl. eapply must_bind.
    + apply memcpy_must; unfold inb; repeat split; auto; lia.
    + intros m' S. simpl. destruct (Z.ltb_spec (off d + 8) e); [simpl in Hf; lia|].
      exact S.
  - cbn [LZ4_wildCopy8_loop]. eapply must_bind.
    + apply memcpy_must; unfold inb; repeat split; auto; lia.
    + intros m' S. cbn [padd off blk]. destruct (Z.ltb_spec (off d + 8) e).
      * eapply must_impl.
        -- apply IH; cbn [padd off blk]; auto; try lia;
             rewrite (same_shape_blen _ _ _ S); lia.
        -- intros m'' S'. eapply same_shape_trans; eauto.
      * exact S.
Qed.

Lemma LZ4_wildCopy8_must m d s e :
  blk d = Dst -> blk s <> Null -> 0 <= off d -> 0 <= off s ->
  off d + Z.max 8 (e - off d + 7) <= blen m Dst ->
  off s + Z.max 8 (e - off d + 7) <= blen m (blk s) ->
  must (LZ4_wildCopy8 m d s e) (same_shape m).
Proof.
  intros. apply LZ4_wildCopy8_loop_must; auto. lia.
Qed.

Lemma LZ4_wildCopy8_loop_may e fuel : forall m d s,
  e - off d <= Z.of_nat fuel ->
  may (LZ4_wildCopy8_loop fuel m d s e) (same_shape m).
Proof.
  induction fuel as [|fuel IH]; intros m d s Hf.
  - simpl. eapply may_bind; [apply memcpy_may|].
    intros m' S. simpl. destruct (Z.ltb_spec (off d + 8) e); [simpl in Hf; lia|].
    exact S.
  - cbn [LZ4_wildCopy8_loop]. eapply may_bind; [apply memcpy_may|].
    intros m' S. cbn [padd off blk]. destruct (Z.ltb_spec (off d + 8) e).
    + eapply may_impl; [apply IH; cbn [padd off blk]; lia|].
      intros m'' S'. eapply same_shape_trans; eauto.
    + exact S.
Qed.

Lemma LZ4_wildCopy8_may m d s e : may (LZ4_wildCopy8 m d s e) (same_shape m).
Proof. apply LZ4_wildCopy8_loop_may. lia. Qed.

Lemma wp_may_end {A} (c : ctl A) P (Q : A -> Prop) (J : jump -> Prop) :
  may c P -> J (exit_ Fault) -> (forall a, P a -> Q a) -> wp c Q J.
Proof. unfold may. destruct c; simpl; intros; subst; auto. Qed.

(** Sizes of blocks in a later memory are those in the first one. *)
Ltac shape_tac :=
  repeat match goal with
  | H : same_shape ?m ?m' |- context [blen ?m' ?b] =>
      rewrite (same_shape_blen m m' b H)
  end.

Lemma LZ4_wildCopy32_loop_must e fuel : forall m d s,
  e - off d <= Z.of_nat fuel ->
  blk d = Dst -> blk s <> Null -> 0 <= off d -> 0 <= off s ->
  off d + Z.max 32 (e - off d + 31) <= blen m Dst ->
  off s + Z.max 32 (e - off d + 31) <= blen m (blk s) ->
  must (LZ4_wildCopy32_loop fuel m d s e) (same_shape m).
Proof.
  induction fuel as [|fuel IH]; intros m d s Hf Hd Hs Hd0 Hs0 Bd Bs;
    cbn [LZ4_wildCopy32_loop].
  - eapply must_bind.
    { apply memcpy_must; unfold inb; repeat split; auto; lia. }
    intros m1 S1. cbv beta in S1. eapply must_bind.
    { apply memcpy_must; unfold inb; cbn [padd off blk]; shape_tac;
        repeat split; auto; lia. }
    intros m2 S2. cbv beta in S2. cbn [padd off blk].
    destruct (Z.ltb_spec (off d + 32) e); [simpl in Hf; lia|].
    eapply same_shape_trans; eauto.
  - eapply must_bind.
    { apply memcpy_must; unfold inb; repeat split; auto; lia. }
    intros m1 S1. cbv beta in S1. eapply must_bind.
    { apply memcpy_must; unfold inb; cbn [padd off blk]; shape_tac;
        repeat split; auto; lia. }
    intros m2 S2. cbv beta in S2. cbn [padd off blk].
    assert (S12 : same_shape m m2) by (eapply same_shape_trans; eauto).
    destruct (Z.ltb_spec (off d + 32) e); [|exact S12].
    eapply must_impl.
    + apply IH; cbn [padd off blk]; auto; try lia; shape_tac; lia.
    + intros m3 S3. eapply same_shape_trans; eauto.
Qed.

Lemma LZ4_wildCopy32_must m d s e :
  blk d = Dst -> blk s <> Null -> 0 <= off d -> 0 <= off s ->
  off d + Z.max 32 (e - off d + 31) <= blen m Dst ->
  off s + Z.max 32 (e - off d + 31) <= blen m (blk s) ->
  must (LZ4_wildCopy32 m d s e) (same_shape m).
Proof.
  intros. apply LZ4_wildCopy32_loop_must; auto. lia.
Qed.

Lemma LZ4_wildCopy32_loop_may e fuel : forall m d s,
  e - off d <= Z.of_nat fuel ->
  may (LZ4_wildCopy32_loop fuel m d s e) (same_shape m).
Proof.
  induction fuel as [|fuel IH]; intros m d s Hf; cbn [LZ4_wildCopy32_loop].
  - eapply may_bind; [apply memcpy_may|]. intros m1 S1.
    eapply may_bind; [apply memcpy_may|]. intros m2 S2. cbn [padd off blk].
    destruct (Z.ltb_spec (off d + 32) e); [simpl in Hf; lia|].
    eapply same_shape_trans; eauto.
  - eapply may_bind; [apply memcpy_may|]. intros m1 S1.
    eapply may_bind; [apply memcpy_may|]. intros m2 S2. cbn [padd off blk].
    assert (S12 : same_shape m m2) by (eapply same_shape_trans; eauto).
    destruct (Z.ltb_spec (off d + 32) e); [|exact S12].
    eapply may_impl; [apply IH; cbn [padd off blk]; lia|].
    intros m3 S3. eapply same_shape_trans; eauto.
Qed.

Lemma LZ4_wildCopy32_may m d s e : may (LZ4_wildCopy32 m d s e) (same_shape m).
Proof. apply LZ4_wildCopy32_loop_may. lia. Qed.

Lemma fill_pattern_loop_must e v fuel : forall m d,
  e - off d <= Z.of_nat fuel ->
  blk d = Dst -> 0 <= off d -> len v = 8 ->
  (off d < e -> e + 7 <= blen m Dst) ->
  must (fill_pattern_loop fuel m d e v) (same_shape m).
Proof.
  induction fuel as [|fuel IH]; intros m d Hf Hd Hd0 Hv Bd;
    cbn [fill_pattern_loop].
  - destruct (Z.ltb_spec (off d) e); [simpl in Hf; lia|]. apply same_shape_refl.
  - destruct (Z.ltb_spec (off d) e); [|apply same_shape_refl].
    eapply must_bind.
    { apply write_bytes_must; auto. lia. }
    intros m1 S1. cbv beta in S1. eapply must_impl.
    + apply IH; cbn [padd off blk]; auto; try lia. shape_tac. lia.
    + intros m2 S2. eapply same_shape_trans; eauto.
Qed.

Lemma fill_pattern_loop_may e v fuel : forall m d,
  e - off d <= Z.of_nat fuel ->
  may (fill_pattern_loop fuel m d e v) (same_shape m).
Proof.
  induction fuel as [|fuel IH]; intros m d Hf; cbn [fill_pattern_loop].
  - destruct (Z.ltb_spec (off d) e); [simpl in Hf; lia|]. apply same_shape_refl.
  - destruct (Z.ltb_spec (off d) e); [|apply same_shape_refl].
    eapply may_bind; [apply write_bytes_may|]. intros m1 S1.
    eapply may_impl; [apply IH; cbn [padd off blk]; lia|].
    intros m2 S2. eapply same_shape_trans; eauto.
Qed.

Lemma copy_bytes_loop_must e fuel : forall m op from,
  e - off op <= Z.of_nat fuel ->
  blk op = Dst -> blk from <> Null -> 0 <= off op -> 0 <= off from ->
  (off op < e ->
   e <= blen m Dst /\ off from + (e - off op) <= blen m (blk from)) ->
  must (copy_bytes_loop fuel m op from e) (fun r => same_shape m (fst r)).
Proof.
  induction fuel as [|fuel IH]; intros m op from Hf Hd Hs Hd0 Hs0 B;
    cbn [copy_bytes_loop].
  - destruct (Z.ltb_spec (off op) e); [simpl in Hf; lia|]. apply same_shape_refl.
  - destruct (Z.ltb_spec (off op) e); [|apply same_shape_refl].
    destruct (B H) as [B1 B2]. eapply must_bind.
    { apply memcpy_must; unfold inb; repeat split; auto; lia. }
    intros m1 S1. cbv beta in S1. eapply must_impl.
    + apply IH; cbn [padd off blk]; auto; try lia. shape_tac. lia.
    + intros r S2. eapply same_shape_trans; eauto.
Qed.

Lemma copy_bytes_must m op from e :
  blk op = Dst -> blk from <> Null -> 0 <= off op -> 0 <= off from ->
  (off op < e ->
   e <= blen m Dst /\ off from + (e - off op) <= blen m (blk from)) ->
  must (copy_bytes m op from e) (fun r => same_shape m (fst r)).
Proof. intros. apply copy_bytes_loop_must; auto. lia. Qed.

Lemma copy_bytes_loop_may e fuel : forall m op from,
  e - off op <= Z.of_nat fuel ->
  may (copy_bytes_loop fuel m op from e) (fun r => same_shape m (fst r)).
Proof.
  induction fuel as [|fuel IH]; intros m op from Hf; cbn [copy_bytes_loop].
  - destruct (Z.ltb_spec (off op) e); [simpl in Hf; lia|]. apply same_shape_refl.
  - destruct (Z.ltb_spec (off op) e); [|apply same_shape_refl].
    eapply may_bind; [apply memcpy_may|]. intros m1 S1.
    eapply may_impl; [apply IH; cbn [padd off blk]; lia|].
    intros r S2. eapply same_shape_trans; eauto.
Qed.

Lemma copy_bytes_may m op from e :
  may (copy_bytes m op from e) (fun r => same_shape m (fst r)).
Proof. apply copy_bytes_loop_may. lia. Qed.

Lemma copy_byte_must m d s i :
  inb m (padd s i) 1 -> blk d = Dst -> 0 <= off d + i ->
  off d + i + 1 <= blen m Dst ->
  must (copy_byte m d s i) (same_shape m).
Proof. intros. apply memcpy_must; auto. Qed.

Lemma copy_byte_may m d s i : may (copy_byte m d s i) (same_shape m).
Proof. apply memcpy_may. Qed.

(** ** read_variable_length within its block *)

Lemma to_unsigned_range x : 0 <= to_unsigned x < 2 ^ 32.
Proof. unfold to_unsigned. apply Z.mod_pos_bound. lia. Qed.

Lemma to_size_t_range x : 0 <= to_size_t x < 2 ^ 64.
Proof. unfold to_size_t. apply Z.mod_pos_bound. lia. Qed.

Lemma read_variable_length_loop_may lencheck loop_check error rest :
  forall ip length,
  may (read_variable_length_loop rest ip lencheck loop_check error length)
      (vl_post ip lencheck loop_check error).
Proof.
  induction rest as [|b rest IH]; intros ip length; cbn [read_variable_length_loop].
  - reflexivity.
  - cbv zeta.
    destruct (loop_check && (lencheck <=? ip + 1)) eqn:E.
    + apply andb_true_iff in E. destruct E as [E1 E2]. apply Z.leb_le in E2.
      red. cbn [wp]. unfold vl_post. cbn [vl_length vl_ip vl_error].
      split; [apply to_unsigned_range|]. split; [lia|]. left. repeat split; auto; lia.
    + assert (L : loop_check = true -> ip + 1 < lencheck).
      { intros ->. simpl in E. apply Z.leb_gt in E. lia. }
      destruct (byte_val b =? 255).
      * eapply may_impl; [apply IH|]. intros r (R1 & R2 & R3).
        split; [auto|]. split; [lia|]. destruct R3 as [(a & c & d)|(a & c)].
        -- left. repeat split; auto; try lia. specialize (L c). lia.
        -- right. split; auto.
      * red. cbn [wp]. unfold vl_post. cbn [vl_length vl_ip vl_error].
        split; [apply to_unsigned_range|]. split; [lia|]. right. auto.
Qed.

Lemma read_variable_length_loop_must lencheck error rest :
  forall ip length,
  1 <= len rest -> lencheck <= ip + len rest ->
  must (read_variable_length_loop rest ip lencheck true error length)
       (vl_post ip lencheck true error).
Proof.
  induction rest as [|b rest IH]; intros ip length H1 H2;
    cbn [read_variable_length_loop].
  - unfold len in H1. simpl in H1. lia.
  - cbv zeta. pose proof (read_variable_length_loop_may lencheck true error
                            (b :: rest) ip length) as M.
    cbn [read_variable_length_loop] in M. cbv zeta in M.
    destruct (true && (lencheck <=? ip + 1)) eqn:E; [exact M|].
    simpl in E. apply Z.leb_gt in E.
    destruct (byte_val b =? 255); [|exact M].
    assert (len (b :: rest) = len rest + 1) as L
        by (unfold len; cbn [Datatypes.length]; lia).
    eapply must_impl; [apply IH; lia|].
    intros r (R1 & R2 & R3). split; [auto|]. split; [lia|].
    destruct R3 as [(a & c & d)|(a & c)].
    + left. repeat split; auto; lia.
    + right. split; auto.
Qed.

Lemma bytes_from_len m b o :
  0 <= o <= blen m b -> len (bytes_from m b o) = blen m b - o.
Proof.
  intros H. unfold bytes_from. destruct (Z.leb_spec 0 o); [|lia].
  unfold len, blen in *. rewrite length_skipn. destruct b; simpl in *; unfold len in *; lia.
Qed.

Lemma read_variable_length_must m b ip lencheck initial_check :
  0 <= ip -> lencheck <= blen m b ->
  (initial_check = true \/ ip < blen m b) ->
  must (read_variable_length m b ip lencheck true initial_check ok)
       (vl_checked ip lencheck initial_check).
Proof.
  intros H0 H1 H2. unfold read_variable_length. cbv zeta.
  destruct (initial_check && (lencheck <=? ip)) eqn:E.
  - apply andb_true_iff in E. destruct E as [E1 E2]. apply Z.leb_le in E2.
    red. cbn [wp]. unfold vl_checked. cbn. repeat split; auto; lia.
  - assert (ip < blen m b).
    { destruct H2 as [->|]; auto. simpl in E. apply Z.leb_gt in E. lia. }
    eapply must_impl.
    + apply read_variable_length_loop_must; rewrite bytes_from_len; lia.
    + intros r (R1 & R2 & R3). split; auto.
      destruct R3 as [(-> & c & d)|(-> & c)].
      * repeat split; try lia. destruct initial_check; [|exact I].
        simpl in E. apply Z.leb_gt in E. lia.
      * specialize (c eq_refl). lia.
Qed.

Lemma read_variable_length_may m b ip lencheck loop_check initial_check :
  may (read_variable_length m b ip lencheck loop_check initial_check ok)
      (vl_any ip).
Proof.
  unfold read_variable_length. cbv zeta.
  destruct (initial_check && (lencheck <=? ip)) eqn:E.
  - red. cbn [wp]. unfold vl_any. cbn. split; [lia|reflexivity].
  - eapply may_impl; [apply read_variable_length_loop_may|].
    intros r (R1 & R2 & R3). split; auto.
    destruct R3 as [(-> & c & d)|(-> & c)]; auto.
Qed.

(** ** Nibbles and casts *)

Lemma shiftr4_range t : 0 <= t < 256 -> 0 <= Z.shiftr t ML_BITS <= 15.
Proof.
  intros H. unfold ML_BITS. rewrite Z.shiftr_div_pow2 by lia.
  change (2 ^ 4) with 16. split.
  - apply Z.div_pos; lia.
  - assert (t / 16 < 16) by (apply Z.div_lt_upper_bound; lia). lia.
Qed.

Lemma land15_range t : 0 <= t -> 0 <= Z.land t ML_MASK <= 15.
Proof.
  intros H. change ML_MASK with (Z.ones 4). rewrite Z.land_ones by lia.
  change (2 ^ 4) with 16. pose proof (Z.mod_pos_bound t 16). lia.
Qed.

Lemma to_int_small x : - 2 ^ 31 <= x < 2 ^ 31 -> to_int x = x.
Proof.
  intros H. unfold to_int. rewrite Z.mod_small; lia.
Qed.

(** ** Stepping through the decoder *)

Lemma offset_tables offset :
  0 <= offset < 8 ->
  0 <= nth (Z.to_nat offset) inc32table 0 <= offset /\
  0 <= nth (Z.to_nat offset) inc32table 0
       - nth (Z.to_nat offset) dec64table 0 <= offset.
Proof.
  intros H.
  assert (offset = 0 \/ offset = 1 \/ offset = 2 \/ offset = 3 \/
          offset = 4 \/ offset = 5 \/ offset = 6 \/ offset = 7) as C by lia.
  repeat (destruct C as [->|C]; [vm_compute; intuition discriminate|]).
  subst. vm_compute; intuition discriminate.
Qed.

(** Turn the boolean tests of the code into propositions. *)
Ltac bool_hyps :=
  repeat match goal with
  | H : true = true |- _ => clear H
  | H : false = false |- _ => clear H
  | H : true = false |- _ => discriminate H
  | H : false = true |- _ => discriminate H
  | H : (_ && _) = true |- _ => apply andb_true_iff in H; destruct H
  | H : (_ || _) = false |- _ => apply orb_false_iff in H; destruct H
  | H : negb _ = true |- _ => apply negb_true_iff in H
  | H : negb _ = false |- _ => apply negb_false_iff in H
  | H : (_ <? _) = true |- _ => apply Z.ltb_lt in H
  | H : (_ <? _) = false |- _ => apply Z.ltb_ge in H
  | H : (_ <=? _) = true |- _ => apply Z.leb_le in H
  | H : (_ <=? _) = false |- _ => apply Z.leb_gt in H
  | H : (_ =? _) = true |- _ => apply Z.eqb_eq in H
  | H : (_ =? _) = false |- _ => apply Z.eqb_neq in H
  | H : (_ && _) = false |- _ => apply andb_false_iff in H; destruct H
  | H : (_ || _) = true |- _ => apply orb_true_iff in H; destruct H
  end.

(** Replace the constants of lz4.c by their values. *)
Ltac consts :=
  change ML_MASK with 15 in *; change RUN_MASK with 15 in *;
  unfold MATCH_SAFEGUARD_DISTANCE in *;
  unfold MINMATCH, WILDCOPYLENGTH, LASTLITERALS, MFLIMIT,
    FASTLOOP_SAFE_DISTANCE in *.

(** Compute the derived parameters ([iend], [oend], ...) at given [params]. *)
Ltac params :=
  unfold shortiend, shortoend, checkOffset, safeDecode, iend, oend, opp, ipp in *;
  cbn [base LZ4_FAST_DEC_LOOP src dst srcSize outputSize endOnInput
       partialDecoding dict lowPrefix dictStart dictSize
       blk off padd] in *;
  unfold endOnInputSize, decode_full_block in *;
  cbn [andb orb negb dict_eqb] in *.

(** Name the machine integers of the goal and keep only their ranges. *)
Ltac ranges :=
  repeat match goal with
  | _ : context [to_size_t ?x] |- _ =>
      let v := fresh "sz" in
      pose proof (to_size_t_range x); set (v := to_size_t x) in *; clearbody v
  | |- context [to_size_t ?x] =>
      let v := fresh "sz" in
      pose proof (to_size_t_range x); set (v := to_size_t x) in *; clearbody v
  | H : 0 <= ?t < 256 |- context [Z.shiftr ?t ML_BITS] =>
      let v := fresh "ll" in
      pose proof (shiftr4_range t H); set (v := Z.shiftr t ML_BITS) in *;
      clearbody v
  | H : 0 <= ?t < 256 |- context [Z.land ?t 15] =>
      let v := fresh "ml" in
      pose proof (land15_range t (proj1 H)); change ML_MASK with 15 in *;
      set (v := Z.land t 15) in *; clearbody v
  end.

(** The side conditions of the primitives. *)
Ltac bounds :=
  unfold inb; cbn [padd off blk]; shape_tac; cbn [blen] in *;
  change (len [x00; x00; x00; x00]) with 4;
  intros;
  repeat match goal with |- _ /\ _ => split end;
  try congruence; try lia; try (ranges; lia).

(** Keep one shape fact per memory, relative to the first one. *)
Ltac chain_shape S :=
  cbn [fst] in S;
  lazymatch type of S with
  | same_shape ?m1 ?m2 =>
      match goal with
      | H : same_shape ?m0 m1 |- _ =>
          let S' := fresh "Sh" in
          pose proof (same_shape_trans _ _ _ H S) as S'; clear S
      | _ => idtac
      end
  | _ => idtac
  end.

Lemma wp_must_end {A} (c : ctl A) P (Q : A -> Prop) J :
  must c P -> (forall a, P a -> Q a) -> wp c Q J.
Proof. unfold must. destruct c; simpl; auto. contradiction. Qed.

(** A primitive that [must] succeed, followed by the rest of the code, or
    at the end of it. *)
Ltac wp_prim lem :=
  eapply wp_must;
  [apply lem; bounds
  | let m := fresh "m" in let S := fresh "S" in
    intros m S; cbv beta in S; try chain_shape S].

Ltac wp_prim_end lem :=
  eapply wp_must_end;
  [apply lem; bounds
  | let m := fresh "m" in let S := fresh "S" in
    intros m S; cbv beta in S; try chain_shape S].

(** One step of the code: a primitive with its side conditions, a test, a
    binding or a jump. *)
Ltac wp_step :=
  cbv beta zeta;
  lazymatch goal with
  | |- wp (bind (bind _ _) _) _ _ => apply wp_bind
  | |- wp (bind (if _ then _ else _) _) _ _ => apply wp_bind
  | |- wp (bind (match _ with _ => _ end) _) _ _ => apply wp_bind
  | |- wp (bind (memcpy _ _ _ _) _) _ _ => wp_prim memcpy_must
  | |- wp (bind (memmove _ _ _ _) _) _ _ => wp_prim memcpy_must
  | |- wp (bind (copy_byte _ _ _ _) _) _ _ => wp_prim copy_byte_must
  | |- wp (bind (LZ4_write32_zero _ _) _) _ _ => wp_prim write_bytes_must
  | |- wp (bind (LZ4_wildCopy8 _ _ _ _) _) _ _ => wp_prim LZ4_wildCopy8_must
  | |- wp (bind (LZ4_wildCopy32 _ _ _ _) _) _ _ => wp_prim LZ4_wildCopy32_must
  | |- wp (bind (copy_bytes _ _ _ _) _) _ _ => wp_prim copy_bytes_must
  | |- wp (bind (lift (load _ _ _)) _) _ _ => wp_prim lift_load_must
  | |- wp (bind (write_bytes _ _ _) _) _ _ => wp_prim write_bytes_must
  | |- wp (bind (read8 _ _) _) _ _ => wp_prim read8_must
  | |- wp (bind (LZ4_readLE16 _ _) _) _ _ => wp_prim LZ4_readLE16_must
  | |- wp (bind (read_variable_length _ _ _ _ true _ ok) _) _ _ =>
      eapply wp_must;
      [apply read_variable_length_must; bounds
      | let r := fresh "r" in let R := fresh "R" in
        let vlen := fresh "vlen" in let vip := fresh "vip" in
        let verr := fresh "verr" in
        intros r R; destruct r as [vlen vip verr]; destruct R as [? R];
        destruct verr; cbn [vl_length vl_ip vl_error] in *; cbv iota in R]
  | |- wp (bind (Val _) _) _ _ => cbn [bind]
  | |- wp (bind (output_error _ _ _ _) _) _ _ =>
      unfold output_error; cbn [bind wp src off]
  | |- wp (memcpy _ _ _ _) _ _ => wp_prim_end memcpy_must
  | |- wp (fill_pattern_loop _ _ _ _ _) _ _ => wp_prim_end fill_pattern_loop_must
  | |- wp (LZ4_wildCopy8 _ _ _ _) _ _ => wp_prim_end LZ4_wildCopy8_must
  | |- wp (LZ4_wildCopy32 _ _ _ _) _ _ => wp_prim_end LZ4_wildCopy32_must
  | |- wp (match ?x with pair _ _ => _ end) _ _ => destruct x
  | |- wp (if ?b then _ else _) _ _ =>
      let E := fresh "E" in destruct b eqn:E; bool_hyps; try (exfalso; lia)
  | |- wp (Val _) _ _ => cbn [wp]
  | |- wp (Goto _) _ _ => cbn [wp]
  | |- wp (output_error _ _ _ _) _ _ => unfold output_error; cbn [wp src off]
  | |- wp (goto _) _ _ => apply wp_goto
  end.

(** Forget [inc32table] and [dec64table] at [offset], keeping what
    [offset_tables] says of them. *)
Ltac tables offset :=
  let T := fresh "T" in
  assert (T : offset < 8 -> 0 <= offset ->
              0 <= nth (Z.to_nat offset) inc32table 0 <= offset /\
              0 <= nth (Z.to_nat offset) inc32table 0
                   - nth (Z.to_nat offset) dec64table 0 <= offset)
    by (intros; apply offset_tables; lia);
  revert T;
  generalize (nth (Z.to_nat offset) inc32table 0);
  generalize (nth (Z.to_nat offset) dec64table 0);
  let dec := fresh "dec" in let inc := fresh "inc" in intros dec inc T.

Lemma LZ4_memcpy_using_offset_base_must m d s e offset :
  blk d = Dst -> blk s = Dst -> off s = off d - offset ->
  0 <= offset -> 0 <= off s ->
  off d + Z.max 16 (e - off d + 7) <= blen m Dst ->
  must (LZ4_memcpy_using_offset_base m d s e offset) (same_shape m).
Proof.
  destruct d as [bd od], s as [bs os]. cbn [blk off].
  intros -> -> -> Ho Hs B. pose proof (same_shape_refl m) as S0.
  unfold must, LZ4_memcpy_using_offset_base, copy_byte. tables offset.
  repeat wp_step; assumption.
Qed.

Lemma LZ4_memcpy_using_offset_default m d s e offset :
  offset <> 1 -> offset <> 2 -> offset <> 4 ->
  LZ4_memcpy_using_offset m d s e offset =
  (m <- LZ4_write32_zero m d ;; LZ4_memcpy_using_offset_base m d s e offset).
Proof.
  intros H1 H2 H4. unfold LZ4_memcpy_using_offset.
  destruct offset as [|p|p]; try reflexivity.
  destruct p as [p|p|]; try reflexivity; [|congruence].
  destruct p as [p|p|]; try reflexivity; [|congruence].
  destruct p as [p|p|]; try reflexivity; congruence.
Qed.

(** The 8-byte pattern of [LZ4_memcpy_using_offset] has 8 bytes. *)
Ltac len8 :=
  unfold len in *;
  rewrite ?length_app, ?length_firstn, ?repeat_length, ?length_app; lia.

Lemma LZ4_memcpy_using_offset_must m d s e offset :
  blk d = Dst -> blk s = Dst -> off s = off d - offset ->
  0 <= offset -> 0 <= off s ->
  off d + Z.max 16 (e - off d + 7) <= blen m Dst ->
  must (LZ4_memcpy_using_offset m d s e offset) (same_shape m).
Proof.
  intros Hd Hs Ho H0 H1 B. pose proof (same_shape_refl m) as S0.
  destruct (Z.eq_dec offset 1) as [->|N1];
    [|destruct (Z.eq_dec offset 2) as [->|N2];
      [|destruct (Z.eq_dec offset 4) as [->|N4]]].
  4:{ rewrite LZ4_memcpy_using_offset_default by assumption.
      eapply must_bind.
      - apply write_bytes_must; auto; change (len [x00; x00; x00; x00]) with 4; lia.
      - intros m1 S1. cbv beta in S1. eapply must_impl.
        + apply LZ4_memcpy_using_offset_base_must; auto.
          rewrite (same_shape_blen _ _ _ S1). lia.
        + intros m2 S2. eapply same_shape_trans; eauto. }
  all: destruct d as [bd od], s as [bs os]; cbn [blk off] in *; subst;
    unfold must, LZ4_memcpy_using_offset; cbv beta iota zeta.
  all: wp_step; wp_step.
  all: match goal with
       | |- wp (bind (write_bytes _ _ ?v) _) _ _ =>
           assert (len v = 8) by len8
       end.
  all: repeat wp_step; assumption.
Qed.

(** [wp_step] with the copy of the fast loop. *)
Ltac wp_step_fast :=
  cbv beta zeta;
  lazymatch goal with
  | |- wp (LZ4_memcpy_using_offset _ _ _ _ _) _ _ =>
      wp_prim_end LZ4_memcpy_using_offset_must
  | _ => wp_step
  end.

(** ** LZ4_decompress_safe stays in its buffers *)

Section SafeDecode.

Variable base : block -> Z.
Variable fast : bool.
Variables (cs cap : Z).
Variable m0 : memory.
Hypothesis cs_int : 0 <= cs <= INT_MAX.
Hypothesis cap_int : 0 <= cap <= INT_MAX.
Hypothesis src_len : len (src_mem m0) = cs.
Hypothesis dst_len : len (dst_mem m0) = cap.

Local Abbreviation P :=
  (Params base fast (Ptr Src 0) (Ptr Dst 0) cs cap
          endOnInputSize decode_full_block noDict (Ptr Dst 0) NULL 0).

Lemma output_error_safe ip0 ip op m :
  same_shape m0 m -> 0 <= ip <= cs ->
  safe_jump cs cap m0 ip0
    (exit_ (Returned (to_int (to_int (- (ip - 0)) - 1)) ip op m)).
Proof.
  intros S H. cbn [safe_jump]. split; auto.
  unfold INT_MAX in *. rewrite !to_int_small; rewrite ?to_int_small; lia.
Qed.

(** A jump out of the loop body meets [safe_jump]. *)
Ltac jump_done :=
  first [ apply output_error_safe; [assumption | ranges; lia]
        | cbn [safe_jump]; split; [assumption | ranges; lia] ].

Lemma safe_match_copy_safe ip0 ip op m length offset match_ :
  same_shape m0 m -> ip0 < ip < cs -> 0 <= ip0 -> 0 <= op -> op + 12 <= cap ->
  4 <= length -> 0 <= offset -> match_ = op - offset ->
  wp (safe_match_copy P ip op m length offset match_)
     (safe_jump cs cap m0 ip0) (safe_jump cs cap m0 ip0).
Proof.
  intros S Hip Hip0 Hop Hop' Hl Ho ->.
  unfold safe_match_copy. params. consts. tables offset.
  repeat wp_step; try jump_done.
Qed.

Lemma copy_match_safe ip0 ip op m length offset match_ :
  same_shape m0 m -> ip0 < ip < cs -> 0 <= ip0 -> 0 <= op -> op + 12 <= cap ->
  0 <= length -> 0 <= offset -> match_ = op - offset ->
  wp (copy_match P ip op m length offset match_)
     (safe_jump cs cap m0 ip0) (safe_jump cs cap m0 ip0).
Proof.
  intros S Hip Hip0 Hop Hop' Hl Ho ->.
  unfold copy_match. params. consts. ranges.
  repeat wp_step; try jump_done.
  all: apply safe_match_copy_safe; auto; try lia; ranges; lia.
Qed.

Lemma safe_literal_copy_safe ip0 ip op m token length cpy :
  same_shape m0 m -> ip0 < ip <= cs -> 0 <= ip0 -> 0 <= op <= cap ->
  0 <= length -> 0 <= token < 256 -> cpy = op + length ->
  wp (safe_literal_copy P ip op m token length cpy)
     (safe_jump cs cap m0 ip0) (safe_jump cs cap m0 ip0).
Proof.
  intros S Hip Hip0 Hop Hl Ht ->.
  unfold safe_literal_copy. params. consts. ranges.
  repeat wp_step; try jump_done.
  all: apply copy_match_safe; auto; try lia; ranges; lia.
Qed.

Lemma safe_sequence_safe ip op m :
  same_shape m0 m -> 0 <= ip < cs -> 0 <= op <= cap ->
  wp (safe_sequence P ip op m) (safe_jump cs cap m0 ip) (safe_jump cs cap m0 ip).
Proof.
  intros S Hip Hop.
  unfold safe_sequence. params. consts.
  wp_step. ranges.
  repeat wp_step; try jump_done.
  all: first [apply copy_match_safe | apply safe_literal_copy_safe];
    auto; try lia; ranges; lia.
Qed.

Lemma fast_sequence_safe ip op m :
  same_shape m0 m -> 0 <= ip < cs -> 0 <= op -> op + 64 <= cap ->
  wp (fast_sequence P ip op m) (safe_jump cs cap m0 ip) (safe_jump cs cap m0 ip).
Proof.
  intros S Hip Hop Hop'.
  unfold fast_sequence. params. consts.
  wp_step. ranges.
  repeat wp_step_fast; try jump_done.
  all: first [apply safe_match_copy_safe | apply safe_literal_copy_safe];
    auto; try lia; ranges; lia.
Qed.

Lemma safe_jump_fueled ip fuel j :
  cs - ip <= Z.of_nat (S fuel) -> safe_jump cs cap m0 ip j -> fueled cs fuel j.
Proof.
  destruct j; cbn [safe_jump fueled]; intros; try exact I; lia.
Qed.

Lemma decode_loop_safe fuel : forall j ip0,
  safe_jump cs cap m0 ip0 j -> fueled cs fuel j -> safe_outcome cs cap m0 (decode_loop P fuel j).
Proof.
  induction fuel as [|fuel IH]; intros j ip0 HJ HF.
  - destruct j as [ip op m|ip op m|ip op m|o]; cbn [decode_loop safe_jump fueled] in *.
    + lia.
    + lia.
    + cbn [endOnInput dst off]. unfold endOnInputSize. cbn [safe_outcome].
      destruct HJ as (S & -> & Hop). split; auto. right.
      unfold INT_MAX in *. rewrite to_int_small; lia.
    + destruct o; try contradiction. cbn [safe_outcome]. intuition.
  - destruct j as [ip op m|ip op m|ip op m|o]; cbn [decode_loop safe_jump fueled] in *.
    + destruct HJ as (S & Hip & Hip' & Hop & Hop').
      assert (J : safe_jump cs cap m0 ip (land (fast_sequence P ip op m)))
        by (apply wp_land, fast_sequence_safe; auto; lia).
      eapply IH; [exact J|]. eapply safe_jump_fueled; eauto.
    + destruct HJ as (S & Hip & Hip' & Hop).
      assert (J : safe_jump cs cap m0 ip (land (safe_sequence P ip op m)))
        by (apply wp_land, safe_sequence_safe; auto; lia).
      eapply IH; [exact J|]. eapply safe_jump_fueled; eauto.
    + cbn [endOnInput dst off]. unfold endOnInputSize. cbn [safe_outcome].
      destruct HJ as (S & -> & Hop). split; auto. right.
      unfold INT_MAX in *. rewrite to_int_small; lia.
    + destruct o; try contradiction. cbn [safe_outcome]. intuition.
Qed.

(** The special cases before the loops. *)
Lemma decode_entry_safe :
  match land (decode_entry P m0) with
  | exit_ (Returned rv ip op m) =>
      m = m0 /\ ip = 0 /\ op = 0 /\
      (rv = -1 \/ (rv = 0 /\ cap = 0 /\ cs = 1 /\ src_mem m0 = [x00]))
  | j => safe_jump cs cap m0 (-1) j /\ cap <> 0
  end.
Proof.
  unfold decode_entry. params. consts. cbn [is_null blk].
  destruct (cap =? 0) eqn:Ecap; bool_hyps.
  - destruct (cs =? 1) eqn:Ecs; bool_hyps; cbn [land]; [|auto].
    destruct (src_mem m0) as [|b [|b' l]] eqn:Es.
    1, 3: exfalso; unfold len in src_len; cbn [Datatypes.length] in src_len; lia.
    replace (read8 m0 (Ptr Src 0)) with (@Val Z (byte_val b))
      by (unfold read8, load; cbn [blk off]; rewrite Es; reflexivity).
    cbn [bind land].
    destruct (byte_val b =? 0) eqn:Eb; bool_hyps; [|auto].
    repeat split; auto. right. repeat split; auto.
    destruct b; try reflexivity; vm_compute in Eb; discriminate.
  - destruct (cs =? 0) eqn:Ecs; bool_hyps; cbn [land]; [auto|].
    destruct (fast && negb (0 + cap - 0 <? 64)) eqn:Ef; bool_hyps; cbn [land safe_jump];
      (split; [|assumption]); (split; [apply same_shape_refl|]); lia.
Qed.

Lemma decode_loop_exit fuel o : decode_loop P fuel (exit_ o) = o.
Proof. destruct fuel; reflexivity. Qed.

(** The whole call, with fuel for every byte of the input. *)
Lemma LZ4_decompress_safe_outcome fuel :
  cs <= Z.of_nat fuel ->
  match LZ4_decompress_safe base fast fuel m0 (Ptr Src 0) (Ptr Dst 0) cs cap with
  | Returned rv ip op m =>
      same_shape m0 m /\
      (- cs - 1 <= rv < 0
       \/ (rv = op /\ 0 <= op <= cap /\ ip = cs)
       \/ (rv = 0 /\ ip = 0 /\ op = 0 /\ cap = 0 /\ cs = 1 /\
           src_mem m0 = [x00]))
  | _ => False
  end.
Proof.
  intros Hf.
  unfold LZ4_decompress_safe, LZ4_decompress_generic, safe_params.
  pose proof decode_entry_safe as E.
  destruct (land (decode_entry P m0)) as [ip op m|ip op m|ip op m|o] eqn:Ej.
  1-3: destruct E as [J _];
    pose proof (decode_loop_safe fuel _ (-1) J) as L;
    match type of L with
    | ?F -> _ => assert (HF : F) by (cbn [fueled safe_jump] in *; try exact I; lia)
    end;
    specialize (L HF);
    match type of L with
    | safe_outcome _ _ _ ?o => destruct o; cbn [safe_outcome] in L; intuition
    end.
  rewrite decode_loop_exit. destruct o as [rv ip op m| |].
  - destruct E as (-> & -> & -> & [->|(-> & C)]).
    + split; [apply same_shape_refl|]. left. lia.
    + split; [apply same_shape_refl|]. right. right. intuition.
  - destruct E as [[] _].
  - destruct E as [[] _].
Qed.

End SafeDecode.

(** ** Termination, for every directive and every input *)

Lemma read8_may_inb m p :
  may (read8 m p) (fun t => 0 <= t < 256 /\ 0 <= off p < blen m (blk p)).
Proof.
  unfold read8, may. destruct (load m p 1) as [bs|] eqn:E; cbn; [|reflexivity].
  split; [apply byte_val_range|].
  unfold load in E. destruct (blk p); try discriminate; cbn [blen];
    unfold slice in E;
    match type of E with (if ?c then _ else _) = _ => destruct c eqn:C end;
    try discriminate; bool_hyps; lia.
Qed.

Lemma LZ4_memcpy_using_offset_base_may m d s e offset :
  may (LZ4_memcpy_using_offset_base m d s e offset) (same_shape m).
Proof.
  unfold LZ4_memcpy_using_offset_base.
  eapply may_bind with (P := fun r => same_shape m (fst (fst r))).
  - destruct (offset <? 8).
    + eapply may_bind; [apply copy_byte_may|]. intros m1 S1.
      eapply may_bind; [apply copy_byte_may|]. intros m2 S2.
      eapply may_bind; [apply copy_byte_may|]. intros m3 S3.
      eapply may_bind; [apply copy_byte_may|]. intros m4 S4.
      eapply may_bind; [apply memcpy_may|]. intros m5 S5.
      red. cbn [wp fst].
      repeat (eapply same_shape_trans; [eassumption|]). apply same_shape_refl.
    + eapply may_bind; [apply memcpy_may|]. intros m1 S1. exact S1.
  - intros [[m1 d1] s1] S1. cbn [fst] in S1.
    eapply may_impl; [apply LZ4_wildCopy8_may|].
    intros m2 S2. eapply same_shape_trans; eauto.
Qed.

Lemma LZ4_memcpy_using_offset_may m d s e offset :
  may (LZ4_memcpy_using_offset m d s e offset) (same_shape m).
Proof.
  assert (F : forall m1 v, same_shape m m1 ->
            may (m2 <- write_bytes m1 d v ;;
                 fill_pattern_loop (Z.to_nat (e - off (padd d 8))) m2
                                   (padd d 8) e v) (same_shape m)).
  { intros m1 v S1. eapply may_bind; [apply write_bytes_may|]. intros m2 S2.
    eapply may_impl; [apply fill_pattern_loop_may; lia|].
    intros m3 S3. repeat (eapply same_shape_trans; [eassumption|]).
    apply same_shape_refl. }
  destruct (Z.eq_dec offset 1) as [->|N1];
    [|destruct (Z.eq_dec offset 2) as [->|N2];
      [|destruct (Z.eq_dec offset 4) as [->|N4]]].
  4:{ rewrite LZ4_memcpy_using_offset_default by assumption.
      eapply may_bind; [apply write_bytes_may|]. intros m1 S1.
      eapply may_impl; [apply LZ4_memcpy_using_offset_base_may|].
      intros m2 S2. eapply same_shape_trans; eauto. }
  all: unfold LZ4_memcpy_using_offset; cbv beta iota zeta;
    (eapply may_bind; [apply write_bytes_may|]); intros m1 S1;
    (eapply may_bind; [apply lift_load_may|]); intros bs _; apply F; exact S1.
Qed.

(** The same steps for a primitive that [may] fault. *)
Ltac wp_prim_may lem :=
  eapply wp_may;
  [apply lem
  | try exact I
  | let m := fresh "m" in let S := fresh "S" in
    intros m S; cbv beta in S; try chain_shape S].

Ltac wp_prim_may_end lem :=
  eapply wp_may_end;
  [apply lem
  | try exact I
  | let m := fresh "m" in let S := fresh "S" in
    intros m S; cbv beta in S; try chain_shape S].

(** One step of the code, any fault allowed. *)
Ltac wp_step_may :=
  cbv beta zeta;
  lazymatch goal with
  | |- wp (bind (bind _ _) _) _ _ => apply wp_bind
  | |- wp (bind (if _ then _ else _) _) _ _ => apply wp_bind
  | |- wp (bind (match _ with _ => _ end) _) _ _ => apply wp_bind
  | |- wp (bind (memcpy _ _ _ _) _) _ _ => wp_prim_may memcpy_may
  | |- wp (bind (memmove _ _ _ _) _) _ _ => wp_prim_may memcpy_may
  | |- wp (bind (copy_byte _ _ _ _) _) _ _ => wp_prim_may copy_byte_may
  | |- wp (bind (LZ4_write32_zero _ _) _) _ _ => wp_prim_may write_bytes_may
  | |- wp (bind (LZ4_wildCopy8 _ _ _ _) _) _ _ => wp_prim_may LZ4_wildCopy8_may
  | |- wp (bind (LZ4_wildCopy32 _ _ _ _) _) _ _ => wp_prim_may LZ4_wildCopy32_may
  | |- wp (bind (copy_bytes _ _ _ _) _) _ _ => wp_prim_may copy_bytes_may
  | |- wp (bind (read8 _ _) _) _ _ => wp_prim_may read8_may_inb
  | |- wp (bind (LZ4_readLE16 _ _) _) _ _ => wp_prim_may LZ4_readLE16_may
  | |- wp (bind (read_variable_length _ _ _ _ _ _ ok) _) _ _ =>
      eapply wp_may;
      [apply read_variable_length_may
      | try exact I
      | let r := fresh "r" in let R := fresh "R" in
        let vlen := fresh "vlen" in let vip := fresh "vip" in
        let verr := fresh "verr" in
        intros r R; destruct r as [vlen vip verr]; destruct R as [? R];
        destruct verr; cbn [vl_length vl_ip vl_error] in *; cbv iota in R]
  | |- wp (bind (Val _) _) _ _ => cbn [bind]
  | |- wp (bind (output_error _ _ _ _ _) _) _ _ =>
      unfold output_error; cbn [bind wp]
  | |- wp (memcpy _ _ _ _) _ _ => wp_prim_may_end memcpy_may
  | |- wp (LZ4_wildCopy8 _ _ _ _) _ _ => wp_prim_may_end LZ4_wildCopy8_may
  | |- wp (LZ4_wildCopy32 _ _ _ _) _ _ => wp_prim_may_end LZ4_wildCopy32_may
  | |- wp (LZ4_memcpy_using_offset _ _ _ _ _) _ _ =>
      wp_prim_may_end LZ4_memcpy_using_offset_may
  | |- wp (match ?x with pair _ _ => _ end) _ _ => destruct x
  | |- wp (if ?b then _ else _) _ _ =>
      let E := fresh "E" in destruct b eqn:E; bool_hyps; try (exfalso; lia)
  | |- wp (Val _) _ _ => cbn [wp]
  | |- wp (Goto _) _ _ => cbn [wp]
  | |- wp (output_error _ _ _ _ _) _ _ => unfold output_error; cbn [wp]
  | |- wp (goto _) _ _ => apply wp_goto
  end.

(** A jump out of the loop body meets [advances]. *)
Ltac adv_done :=
  cbn [advances]; first [exact I | split; [ranges; lia | assumption]].

Section Advance.

Variable P : params.
Variables (ip0 : Z) (m0 : memory).

Lemma copy_from_extDict_adv next ip op m length match_ :
  next = next_fast \/ next = next_safe ->
  same_shape m0 m -> ip0 < ip ->
  wp (copy_from_extDict P next ip op m length match_)
     (advances ip0 m0) (advances ip0 m0).
Proof.
  intros N S Hip. unfold copy_from_extDict.
  repeat wp_step_may; destruct N as [-> | ->]; adv_done.
Qed.

Lemma safe_match_copy_adv ip op m length offset match_ :
  same_shape m0 m -> ip0 < ip ->
  wp (safe_match_copy P ip op m length offset match_)
     (advances ip0 m0) (advances ip0 m0).
Proof.
  intros S Hip. unfold safe_match_copy.
  repeat wp_step_may; try adv_done.
  all: apply copy_from_extDict_adv; auto.
Qed.

Lemma copy_match_adv ip op m length offset match_ :
  same_shape m0 m -> ip0 < ip ->
  wp (copy_match P ip op m length offset match_)
     (advances ip0 m0) (advances ip0 m0).
Proof.
  intros S Hip. unfold copy_match.
  repeat wp_step_may; try adv_done.
  all: apply safe_match_copy_adv; auto; lia.
Qed.

Lemma safe_literal_copy_adv ip op m token length cpy :
  same_shape m0 m -> ip0 < ip -> 0 <= length ->
  wp (safe_literal_copy P ip op m token length cpy)
     (advances ip0 m0) (advances ip0 m0).
Proof.
  intros S Hip Hl. unfold safe_literal_copy.
  repeat wp_step_may; try adv_done.
  all: apply copy_match_adv; auto; ranges; lia.
Qed.

End Advance.

Lemma wp_conseq {A} (c : ctl A) (Q Q' : A -> Prop) (J J' : jump -> Prop) :
  wp c Q J -> (forall a, Q a -> Q' a) -> (forall j, J j -> J' j) -> wp c Q' J'.
Proof. destruct c; simpl; auto. Qed.

Lemma advances_iterates P ip m j :
  0 <= ip < blen m (blk (src P)) -> advances ip m j -> iterates P ip m j.
Proof.
  intros H A. destruct j as [| | |[]]; cbn [iterates]; auto.
Qed.

Section Iterate.

Variable P : params.

Lemma safe_sequence_adv ip op m :
  wp (safe_sequence P ip op m) (iterates P ip m) (iterates P ip m).
Proof.
  unfold safe_sequence. pose proof (same_shape_refl m) as S.
  eapply wp_may; [apply read8_may_inb|exact I|]. intros token [Ht Hin].
  cbn [ipp off blk] in Hin.
  eapply wp_conseq; [|intros j; apply (advances_iterates P ip m j Hin)..].
  ranges.
  repeat wp_step_may; try adv_done.
  all: first [apply copy_match_adv | apply safe_literal_copy_adv];
    auto; ranges; lia.
Qed.

Lemma fast_sequence_adv ip op m :
  wp (fast_sequence P ip op m) (iterates P ip m) (iterates P ip m).
Proof.
  unfold fast_sequence. pose proof (same_shape_refl m) as S.
  eapply wp_may; [apply read8_may_inb|exact I|]. intros token [Ht Hin].
  cbn [ipp off blk] in Hin.
  eapply wp_conseq; [|intros j; apply (advances_iterates P ip m j Hin)..].
  ranges.
  repeat wp_step_may; try adv_done.
  all: first [apply safe_match_copy_adv | apply safe_literal_copy_adv
             | apply copy_from_extDict_adv];
    auto; ranges; lia.
Qed.

Lemma iterates_enough fuel ip m j :
  (ip < 0 \/ blen m (blk (src P)) - ip < Z.of_nat (S fuel)) ->
  iterates P ip m j -> enough P fuel j.
Proof.
  intros F I.
  destruct j as [ip' op' m'|ip' op' m'|ip' op' m'|[]];
    cbn [iterates advances enough] in *; try exact I; try tauto.
  all: destruct I as (Hin & Hlt & S); rewrite (same_shape_blen _ _ _ S); lia.
Qed.

Lemma decode_loop_terminates fuel : forall j,
  enough P fuel j -> decode_loop P fuel j <> OutOfFuel.
Proof.
  induction fuel as [|fuel IH]; intros j E.
  - destruct j as [ip op m|ip op m|ip op m|[]]; cbn [decode_loop enough] in *;
      try lia; try discriminate; try contradiction.
    destruct (endOnInput P); discriminate.
  - destruct j as [ip op m|ip op m|ip op m|[]]; cbn [decode_loop enough] in *;
      try discriminate; try contradiction.
    + apply IH. eapply iterates_enough; [apply E|].
      apply wp_land, fast_sequence_adv.
    + apply IH. eapply iterates_enough; [apply E|].
      apply wp_land, safe_sequence_adv.
    + destruct (endOnInput P); discriminate.
Qed.

Lemma decode_entry_enough m k :
  enough P (S (Z.to_nat (blen m (blk (src P))) + k)) (land (decode_entry P m)).
Proof.
  assert (B : 0 <= blen m (blk (src P))) by (destruct (blk (src P)); cbn; unfold len; lia).
  assert (R : forall f : Z -> jump,
             (forall b, enough P (S (Z.to_nat (blen m (blk (src P))) + k)) (f b)) ->
             enough P (S (Z.to_nat (blen m (blk (src P))) + k))
                    (land (b <- read8 m (ipp P (off (src P))) ;; Goto (f b)))).
  { intros f Hf. pose proof (read8_may m (ipp P (off (src P)))) as M.
    destruct (read8 m (ipp P (off (src P)))) as [b|j]; cbn [bind land].
    - apply Hf.
    - unfold may in M. cbn [wp] in M. subst j. exact I. }
  unfold decode_entry. cbv zeta.
  repeat match goal with
         | |- enough _ _ (land (if ?c then _ else _)) => destruct c
         | |- enough _ _ (land (Goto _)) => cbn [land enough]
         | |- enough _ _ (land (bind (read8 _ _) _)) => apply R; intros; cbn [enough]
         end; try exact I; split; lia.
Qed.

Lemma LZ4_decompress_generic_terminates m k :
  LZ4_decompress_generic P (S (Z.to_nat (blen m (blk (src P))) + k)) m
  <> OutOfFuel.
Proof.
  unfold LZ4_decompress_generic. apply decode_loop_terminates, decode_entry_enough.
Qed.

End Iterate.


(** ** The error code of LZ4_decompress_safe *)

Section ErrorCode.

Variable base : block -> Z.
Variable fast : bool.
Variables (cs cap : Z).
Variable m0 : memory.
Hypothesis cs_int : 0 <= cs <= INT_MAX.
Hypothesis cap_int : 0 <= cap <= INT_MAX.
Hypothesis src_len : len (src_mem m0) = cs.
Hypothesis dst_len : len (dst_mem m0) = cap.

Local Abbreviation P :=
  (Params base fast (Ptr Src 0) (Ptr Dst 0) cs cap
          endOnInputSize decode_full_block noDict (Ptr Dst 0) NULL 0).

Lemma output_error_coded ip0 ip op m :
  same_shape m0 m -> 0 <= ip <= cs ->
  error_jump cs cap m0 ip0
    (exit_ (Returned (to_int (to_int (- (ip - 0)) - 1)) ip op m)).
Proof.
  intros S H. cbn [error_jump]. split; [exact S|]. split; [|exact H].
  unfold INT_MAX in *. rewrite (to_int_small (- (ip - 0))) by lia.
  rewrite to_int_small by lia. lia.
Qed.

(** A jump out of the loop body meets [error_jump]. *)
Ltac code_done :=
  first [ apply output_error_coded; [assumption | ranges; lia]
        | cbn [error_jump safe_jump]; split; [assumption | ranges; lia] ].

Lemma safe_match_copy_coded ip0 ip op m length offset match_ :
  same_shape m0 m -> ip0 < ip < cs -> 0 <= ip0 -> 0 <= op -> op + 12 <= cap ->
  4 <= length -> 0 <= offset -> match_ = op - offset ->
  wp (safe_match_copy P ip op m length offset match_)
     (error_jump cs cap m0 ip0) (error_jump cs cap m0 ip0).
Proof.
  intros S Hip Hip0 Hop Hop' Hl Ho ->.
  unfold safe_match_copy. params. consts. tables offset.
  repeat wp_step; try code_done.
Qed.

Lemma copy_match_coded ip0 ip op m length offset match_ :
  same_shape m0 m -> ip0 < ip < cs -> 0 <= ip0 -> 0 <= op -> op + 12 <= cap ->
  0 <= length -> 0 <= offset -> match_ = op - offset ->
  wp (copy_match P ip op m length offset match_)
     (error_jump cs cap m0 ip0) (error_jump cs cap m0 ip0).
Proof.
  intros S Hip Hip0 Hop Hop' Hl Ho ->.
  unfold copy_match. params. consts. ranges.
  repeat wp_step; try code_done.
  all: apply safe_match_copy_coded; auto; try lia; ranges; lia.
Qed.

Lemma safe_literal_copy_coded ip0 ip op m token length cpy :
  same_shape m0 m -> ip0 < ip <= cs -> 0 <= ip0 -> 0 <= op <= cap ->
  0 <= length -> 0 <= token < 256 -> cpy = op + length ->
  wp (safe_literal_copy P ip op m token length cpy)
     (error_jump cs cap m0 ip0) (error_jump cs cap m0 ip0).
Proof.
  intros S Hip Hip0 Hop Hl Ht ->.
  unfold safe_literal_copy. params. consts. ranges.
  repeat wp_step; try code_done.
  all: apply copy_match_coded; auto; try lia; ranges; lia.
Qed.

Lemma safe_sequence_coded ip op m :
  same_shape m0 m -> 0 <= ip < cs -> 0 <= op <= cap ->
  wp (safe_sequence P ip op m) (error_jump cs cap m0 ip) (error_jump cs cap m0 ip).
Proof.
  intros S Hip Hop.
  unfold safe_sequence. params. consts.
  wp_step. ranges.
  repeat wp_step; try code_done.
  all: first [apply copy_match_coded | apply safe_literal_copy_coded];
    auto; try lia; ranges; lia.
Qed.

Lemma fast_sequence_coded ip op m :
  same_shape m0 m -> 0 <= ip < cs -> 0 <= op -> op + 64 <= cap ->
  wp (fast_sequence P ip op m) (error_jump cs cap m0 ip) (error_jump cs cap m0 ip).
Proof.
  intros S Hip Hop Hop'.
  unfold fast_sequence. params. consts.
  wp_step. ranges.
  repeat wp_step_fast; try code_done.
  all: first [apply safe_match_copy_coded | apply safe_literal_copy_coded];
    auto; try lia; ranges; lia.
Qed.


Lemma decode_loop_coded fuel : forall j ip0,
  error_jump cs cap m0 ip0 j ->
  match decode_loop P fuel j with
  | Returned rv ip op m => rv < 0 -> rv = - ip - 1 /\ 0 <= ip <= cs
  | _ => True
  end.
Proof.
  assert (B : forall ip op m, 0 <= op <= cap ->
            match decode_loop P 0 (break_ ip op m) with
            | Returned rv ip op m => rv < 0 -> rv = - ip - 1 /\ 0 <= ip <= cs
            | _ => True
            end).
  { intros ip op m Hop. cbn [decode_loop endOnInput dst off].
    unfold endOnInputSize. unfold INT_MAX in *. rewrite to_int_small by lia.
    lia. }
  induction fuel as [|fuel IH]; intros j ip0 HJ;
    destruct j as [ip op m|ip op m|ip op m|[rv ip op m| |]];
    cbn [error_jump safe_jump] in HJ; try contradiction;
    try (cbn [decode_loop]; exact I);
    try (cbn [decode_loop]; intros _; tauto).
  - apply B. tauto.
  - cbn [decode_loop]. destruct HJ as (S & Hip & Hip' & Hop & Hop').
    apply (IH _ ip). apply wp_land, fast_sequence_coded; auto; lia.
  - cbn [decode_loop]. destruct HJ as (S & Hip & Hip' & Hop).
    apply (IH _ ip). apply wp_land, safe_sequence_coded; auto; lia.
  - apply (B ip op m). tauto.
Qed.

Lemma decode_entry_coded :
  error_jump cs cap m0 (-1) (land (decode_entry P m0))
  \/ exists rv, land (decode_entry P m0) = exit_ (Returned rv 0 0 m0) /\ 0 <= rv.
Proof.
  unfold decode_entry. params. consts. cbn [is_null blk].
  destruct (cap =? 0) eqn:Ecap; bool_hyps.
  - destruct (cs =? 1) eqn:Ecs; bool_hyps; cbn [land].
    + destruct (read8 m0 (Ptr Src 0)) as [b|j] eqn:R; cbn [bind land].
      * destruct (b =? 0); [right; exists 0; split; [reflexivity|lia]|].
        left. cbn [error_jump]. split; [apply same_shape_refl|]. lia.
      * exfalso. unfold read8 in R.
        destruct (load_some m0 (Ptr Src 0) 1) as (bs & E & _).
        { unfold inb. cbn [blk off blen]. repeat split; try lia. discriminate. }
        rewrite E in R. discriminate.
    + left. cbn [error_jump]. split; [apply same_shape_refl|]. lia.
  - destruct (cs =? 0) eqn:Ecs; bool_hyps; cbn [land].
    + left. cbn [error_jump]. split; [apply same_shape_refl|]. lia.
    + left.
      destruct (fast && negb (0 + cap - 0 <? 64)) eqn:Ef; bool_hyps;
        cbn [land error_jump safe_jump];
        (split; [apply same_shape_refl|]); lia.
Qed.

Lemma LZ4_decompress_safe_coded fuel rv ip op m :
  LZ4_decompress_safe base fast fuel m0 (Ptr Src 0) (Ptr Dst 0) cs cap
  = Returned rv ip op m ->
  rv < 0 -> rv = - ip - 1 /\ 0 <= ip <= cs.
Proof.
  unfold LZ4_decompress_safe, LZ4_decompress_generic, safe_params.
  destruct decode_entry_coded as [J|(rv0 & E & R)].
  - pose proof (decode_loop_coded fuel _ _ J) as D. intros H. rewrite H in D.
    exact D.
  - rewrite E. destruct fuel; cbn [decode_loop]; intros [= <- <- <- <-]; lia.
Qed.

End ErrorCode.

(** ** The last LASTLITERALS bytes of the destination *)

Section LastLiteralsCheck.

Variable base : block -> Z.
Variable fast : bool.
Variables (cs cap : Z).
Variable m0 : memory.
Hypothesis cs_int : 0 <= cs <= INT_MAX.
Hypothesis cap_int : 0 <= cap <= INT_MAX.
Hypothesis src_len : len (src_mem m0) = cs.
Hypothesis dst_len : len (dst_mem m0) = cap.

Local Abbreviation P :=
  (Params base fast (Ptr Src 0) (Ptr Dst 0) cs cap
          endOnInputSize decode_full_block noDict (Ptr Dst 0) NULL 0).

Lemma output_error_last ip0 op0 ip op m :
  same_shape m0 m -> 0 <= ip <= cs ->
  last_literals_jump cs cap m0 ip0 op0
    (exit_ (Returned (to_int (to_int (- (ip - 0)) - 1)) ip op m)).
Proof.
  intros S H. split; [|exact I]. apply output_error_safe; assumption.
Qed.

(** A jump out of the loop body meets [last_literals_jump]. *)
Ltac last_done :=
  first [ apply output_error_last; [assumption | ranges; lia]
        | unfold last_literals_jump; cbn [safe_jump]; unfold LASTLITERALS;
          split; [split; [assumption | ranges; lia]
                 |first [exact I | left; ranges; lia | right; ranges; lia]] ].

Lemma safe_match_copy_last ip0 op0 ip op m length offset match_ :
  same_shape m0 m -> ip0 < ip < cs -> 0 <= ip0 -> 0 <= op -> op + 12 <= cap ->
  4 <= length -> 0 <= offset -> match_ = op - offset ->
  wp (safe_match_copy P ip op m length offset match_)
     (last_literals_jump cs cap m0 ip0 op0) (last_literals_jump cs cap m0 ip0 op0).
Proof.
  intros S Hip Hip0 Hop Hop' Hl Ho ->.
  unfold safe_match_copy. params. consts. tables offset.
  repeat wp_step; try last_done.
Qed.

Lemma copy_match_last ip0 op0 ip op m length offset match_ :
  same_shape m0 m -> ip0 < ip < cs -> 0 <= ip0 -> 0 <= op -> op + 12 <= cap ->
  0 <= length -> 0 <= offset -> match_ = op - offset ->
  wp (copy_match P ip op m length offset match_)
     (last_literals_jump cs cap m0 ip0 op0) (last_literals_jump cs cap m0 ip0 op0).
Proof.
  intros S Hip Hip0 Hop Hop' Hl Ho ->.
  unfold copy_match. params. consts. ranges.
  repeat wp_step; try last_done.
  all: apply safe_match_copy_last; auto; try lia; ranges; lia.
Qed.

Lemma safe_literal_copy_last_check ip0 op0 ip op m token length cpy :
  same_shape m0 m -> ip0 < ip <= cs -> 0 <= ip0 -> 0 <= op <= cap ->
  0 <= length -> 0 <= token < 256 -> cpy = op + length ->
  wp (safe_literal_copy P ip op m token length cpy)
     (last_literals_jump cs cap m0 ip0 op0) (last_literals_jump cs cap m0 ip0 op0).
Proof.
  intros S Hip Hip0 Hop Hl Ht ->.
  unfold safe_literal_copy. params. consts. ranges.
  repeat wp_step; try last_done.
  all: apply copy_match_last; auto; try lia; ranges; lia.
Qed.

Lemma safe_sequence_last ip op m :
  same_shape m0 m -> 0 <= ip < cs -> 0 <= op <= cap ->
  wp (safe_sequence P ip op m) (last_literals_jump cs cap m0 ip op)
     (last_literals_jump cs cap m0 ip op).
Proof.
  intros S Hip Hop.
  unfold safe_sequence. params. consts.
  wp_step. ranges.
  repeat wp_step; try last_done.
  all: first [apply copy_match_last | apply safe_literal_copy_last_check];
    auto; try lia; ranges; lia.
Qed.

Lemma fast_sequence_last ip op m :
  same_shape m0 m -> 0 <= ip < cs -> 0 <= op -> op + 64 <= cap ->
  wp (fast_sequence P ip op m) (last_literals_jump cs cap m0 ip op)
     (last_literals_jump cs cap m0 ip op).
Proof.
  intros S Hip Hop Hop'.
  unfold fast_sequence. params. consts.
  wp_step. ranges.
  repeat wp_step_fast; try last_done.
  all: first [apply safe_match_copy_last | apply safe_literal_copy_last_check];
    auto; try lia; ranges; lia.
Qed.

End LastLiteralsCheck.


(** * The claims *)

(** ** read_variable_length, exactly *)

Lemma byte_val_255 b : byte_val b = 255 -> b = xff.
Proof.
  intros H. destruct b; try reflexivity; vm_compute in H; discriminate.
Qed.

Lemma byte_sum_app a b : byte_sum (a ++ b) = byte_sum a + byte_sum b.
Proof.
  induction a as [|x a IH]; cbn [app byte_sum fold_right]; [reflexivity|].
  fold (byte_sum (a ++ b)). fold (byte_sum a). lia.
Qed.

Lemma byte_sum_repeat_xff n : byte_sum (repeat xff n) = 255 * Z.of_nat n.
Proof.
  induction n as [|n IH]; [reflexivity|].
  cbn [repeat byte_sum fold_right]. fold (byte_sum (repeat xff n)).
  rewrite IH. change (byte_val xff) with 255. lia.
Qed.

Lemma to_unsigned_add_l a b : to_unsigned (to_unsigned a + b) = to_unsigned (a + b).
Proof. unfold to_unsigned. apply Zplus_mod_idemp_l. Qed.

(** The loop consumes a run of bytes 255 and one more byte; it stops on
    that byte because it is not 255, or because the check fired. *)
Lemma read_variable_length_loop_exact lencheck loop_check rest :
  forall ip length r,
  read_variable_length_loop rest ip lencheck loop_check ok length = Val r ->
  exists (n : nat) (last : byte) (rest' : list byte),
    rest = repeat xff n ++ last :: rest' /\
    vl_ip r = ip + Z.of_nat n + 1 /\
    vl_length r = to_unsigned (length + byte_sum (repeat xff n ++ [last])) /\
    ((vl_error r = ok /\ byte_val last < 255 /\
      (loop_check = true -> vl_ip r < lencheck))
     \/ (vl_error r = loop_error /\ loop_check = true /\ lencheck <= vl_ip r)).
Proof.
  induction rest as [|b rest IH]; intros ip length r H;
    cbn [read_variable_length_loop] in H; [discriminate|].
  cbv zeta in H.
  destruct (loop_check && (lencheck <=? ip + 1)) eqn:E.
  - injection H as <-. apply andb_true_iff in E. destruct E as [E1 E2].
    apply Z.leb_le in E2.
    exists 0%nat, b, rest. cbn [repeat app vl_ip vl_length vl_error byte_sum fold_right].
    repeat split; try lia.
    + f_equal. lia.
    + right. repeat split; auto; lia.
  - assert (L : loop_check = true -> ip + 1 < lencheck).
    { intros ->. simpl in E. apply Z.leb_gt in E. lia. }
    destruct (byte_val b =? 255) eqn:Eb.
    + apply Z.eqb_eq in Eb. pose proof (byte_val_255 b Eb) as ->.
      destruct (IH _ _ _ H) as (n & last & rest' & -> & Hip & Hlen & Hc).
      exists (S n), last, rest'. cbn [repeat app].
      repeat split.
      * lia.
      * rewrite Hlen, to_unsigned_add_l.
        cbn [byte_sum fold_right]. fold (byte_sum (repeat xff n ++ [last])).
        f_equal. rewrite Eb. lia.
      * exact Hc.
    + injection H as <-. apply Z.eqb_neq in Eb.
      exists 0%nat, b, rest. cbn [repeat app vl_ip vl_length vl_error byte_sum fold_right].
      pose proof (byte_val_range b).
      repeat split; try lia.
      * f_equal. lia.
      * left. repeat split; auto; lia.
Qed.

Lemma len_app {A} (a b : list A) : len (a ++ b) = len a + len b.
Proof. unfold len. rewrite length_app. lia. Qed.

(** A prefix of what is left of a block can be loaded. *)
Lemma load_bytes_from m b ip pre rest :
  pre <> [] -> bytes_from m b ip = pre ++ rest ->
  load m (Ptr b ip) (len pre) = Some pre.
Proof.
  intros Hne H. unfold bytes_from in H.
  destruct (Z.leb_spec 0 ip) as [Hip|Hip].
  2:{ destruct pre; [congruence|discriminate]. }
  assert (S : forall l, skipn (Z.to_nat ip) l = pre ++ rest ->
                        slice l ip (len pre) = Some pre).
  { intros l E. unfold slice.
    assert (1 <= length pre)%nat by (destruct pre; [congruence | simpl; lia]).
    assert (len (skipn (Z.to_nat ip) l) = len pre + len rest)
      by (rewrite E; apply len_app).
    unfold len in *. rewrite length_skipn in *.
    replace ((0 <=? ip) && (0 <=? Z.of_nat (length pre))
             && (ip + Z.of_nat (length pre) <=? Z.of_nat (length l))) with true.
    2:{ symmetry. rewrite !andb_true_iff, !Z.leb_le. lia. }
    rewrite E, Nat2Z.id, firstn_app, Nat.sub_diag, firstn_all.
    cbn [firstn]. rewrite app_nil_r. reflexivity. }
  unfold load. cbn [blk off].
  destruct b; auto. rewrite skipn_nil in H.
  destruct pre; [congruence|discriminate].
Qed.

(** What can be loaded at a cursor is the start of what is left of the
    block. *)
Lemma bytes_from_load m b ip n bs :
  load m (Ptr b ip) n = Some bs -> exists rest, bytes_from m b ip = bs ++ rest.
Proof.
  assert (S : forall l, slice l ip n = Some bs ->
            exists rest,
              (if 0 <=? ip then skipn (Z.to_nat ip) l else []) = bs ++ rest).
  { intros l H. unfold slice in H.
    destruct (Z.leb_spec 0 ip); cbn [andb] in H; [|discriminate].
    destruct ((0 <=? n) && (ip + n <=? len l)); [|discriminate].
    injection H as <-. exists (skipn (Z.to_nat n) (skipn (Z.to_nat ip) l)).
    symmetry. apply firstn_skipn. }
  unfold load, bytes_from. cbn [blk off]. destruct b; auto; discriminate.
Qed.

(** The loop goes through a run of bytes 255 that ends before the limit. *)
Lemma read_variable_length_loop_skip lencheck lc err last tail :
  forall (n : nat) ip length,
  (lc = true -> (0 < n)%nat -> ip + Z.of_nat n < lencheck) ->
  read_variable_length_loop (repeat xff n ++ last :: tail) ip lencheck lc err
                            length
  = read_variable_length_loop (last :: tail) (ip + Z.of_nat n) lencheck lc err
      (to_unsigned (length + byte_sum (repeat xff n))).
Proof.
  induction n as [|n IH]; intros ip length C.
  - cbn [repeat app read_variable_length_loop byte_sum fold_right]. cbv zeta.
    change (Z.of_nat 0) with 0. rewrite !Z.add_0_r.
    rewrite <- (to_unsigned_add_l length). reflexivity.
  - cbn [repeat app]. cbn [read_variable_length_loop]. cbv zeta.
    destruct (lc && (lencheck <=? ip + 1)) eqn:E.
    { exfalso. apply andb_true_iff in E. destruct E as [E1 E2].
      apply Z.leb_le in E2. specialize (C E1). lia. }
    change (byte_val xff) with 255. cbn [Z.eqb Pos.eqb].
    rewrite IH by (intros Hc Hn; specialize (C Hc); lia).
    rewrite to_unsigned_add_l.
    cbn [byte_sum fold_right]. fold (byte_sum (repeat xff n)).
    change (byte_val xff) with 255.
    rewrite Nat2Z.inj_succ.
    replace (ip + 1 + Z.of_nat n) with (ip + Z.succ (Z.of_nat n)) by lia.
    replace (length + 255 + byte_sum (repeat xff n))
      with (length + (255 + byte_sum (repeat xff n))) by lia.
    reflexivity.
Qed.

Lemma byte_sum_last bs b : byte_sum (bs ++ [b]) = byte_sum bs + byte_val b.
Proof. rewrite byte_sum_app. cbn [byte_sum fold_right]. lia. Qed.

(** The run ends with a byte below 255, before the limit: no error. *)
Lemma read_variable_length_loop_ok lencheck lc err last tail (n : nat) ip :
  byte_val last < 255 ->
  (lc = true -> ip + Z.of_nat n + 1 < lencheck) ->
  read_variable_length_loop (repeat xff n ++ last :: tail) ip lencheck lc err 0
  = Val (VL (to_unsigned (byte_sum (repeat xff n ++ [last])))
            (ip + Z.of_nat n + 1) err).
Proof.
  intros L C.
  rewrite read_variable_length_loop_skip by (intros Hc _; specialize (C Hc); lia).
  cbn [read_variable_length_loop]. cbv zeta.
  destruct (lc && (lencheck <=? ip + Z.of_nat n + 1)) eqn:E.
  { exfalso. apply andb_true_iff in E. destruct E as [E1 E2].
    apply Z.leb_le in E2. specialize (C E1). lia. }
  destruct (Z.eqb_spec (byte_val last) 255); [lia|].
  rewrite to_unsigned_add_l, byte_sum_last. reflexivity.
Qed.

(** The run reaches the limit: the loop stops there with [loop_error],
    whatever the byte it has just read. *)
Lemma read_variable_length_loop_limit lencheck err last tail (n : nat) ip :
  Z.of_nat n = Z.max 0 (lencheck - ip - 1) ->
  read_variable_length_loop (repeat xff n ++ last :: tail) ip lencheck true err 0
  = Val (VL (to_unsigned (byte_sum (repeat xff n ++ [last])))
            (ip + Z.of_nat n + 1) loop_error).
Proof.
  intros N.
  rewrite read_variable_length_loop_skip by (intros _ Hn; lia).
  cbn [read_variable_length_loop]. cbv zeta.
  destruct (Z.leb_spec lencheck (ip + Z.of_nat n + 1)) as [E|E]; [|lia].
  cbn [andb]. rewrite to_unsigned_add_l, byte_sum_last. reflexivity.
Qed.

(** C4. read_variable_length returns [initial_error], with length 0 and the
    cursor where it was, when the initial check is on and the cursor is at
    or past the limit, before any read.  Otherwise it reads a run of bytes
    255 and one more byte: when that byte is below 255 and, with the loop
    check on, the cursor after it is before the limit, it returns without
    error the sum of the bytes in [unsigned] arithmetic and leaves the
    cursor just after them; when the loop check is on and the cursor
    reaches or passes the limit after a byte of the run, it returns
    [loop_error] at that byte, whatever its value.  These are all its
    returns: a call that returns without error has consumed a run of bytes
    255 ended by one byte below 255, returns their sum (the plain sum when
    the run is shorter than 16843009 bytes) and leaves the cursor just
    after them; the error is [initial_error] exactly when the initial
    check is on and the cursor is at or past the limit before the first
    read, and [loop_error] exactly when the loop check is on and the cursor
    is at or past the limit after a byte was consumed. *)
Theorem read_variable_length_exact m b ip lencheck loop_check initial_check :
  let run := read_variable_length m b ip lencheck loop_check initial_check ok in
  (initial_check = true /\ lencheck <= ip ->
   run = Val (VL 0 ip initial_error))
  /\ (forall (n : nat) (last : byte),
      ~ (initial_check = true /\ lencheck <= ip) ->
      load m (Ptr b ip) (Z.of_nat n + 1) = Some (repeat xff n ++ [last]) ->
      byte_val last < 255 ->
      (loop_check = true -> ip + Z.of_nat n + 1 < lencheck) ->
      run = Val (VL (to_unsigned (byte_sum (repeat xff n ++ [last])))
                    (ip + Z.of_nat n + 1) ok))
  /\ (forall (n : nat) (last : byte),
      ~ (initial_check = true /\ lencheck <= ip) ->
      load m (Ptr b ip) (Z.of_nat n + 1) = Some (repeat xff n ++ [last]) ->
      loop_check = true -> Z.of_nat n = Z.max 0 (lencheck - ip - 1) ->
      run = Val (VL (to_unsigned (byte_sum (repeat xff n ++ [last])))
                    (ip + Z.of_nat n + 1) loop_error))
  /\ (forall r, run = Val r ->
      (vl_error r = ok ->
       exists (n : nat) (last : byte),
         load m (Ptr b ip) (Z.of_nat n + 1) = Some (repeat xff n ++ [last]) /\
         byte_val last < 255 /\
         vl_ip r = ip + Z.of_nat n + 1 /\
         vl_length r = to_unsigned (byte_sum (repeat xff n ++ [last])) /\
         (Z.of_nat n < 16843009 ->
          vl_length r = byte_sum (repeat xff n ++ [last])))
      /\ (vl_error r = initial_error <-> initial_check = true /\ lencheck <= ip)
      /\ (vl_error r = loop_error <->
          loop_check = true /\ ip < vl_ip r /\ lencheck <= vl_ip r)).
Proof.
  intros run.
  assert (NI : ~ (initial_check = true /\ lencheck <= ip) ->
               run = read_variable_length_loop (bytes_from m b ip) ip lencheck
                       loop_check ok 0).
  { intros N. unfold run, read_variable_length. cbv zeta.
    destruct (initial_check && (lencheck <=? ip)) eqn:E; [|reflexivity].
    exfalso. apply N. apply andb_true_iff in E. destruct E as [E1 E2].
    apply Z.leb_le in E2. tauto. }
  split; [|split; [|split]].
  - intros [-> H]. unfold run, read_variable_length. cbv zeta.
    destruct (Z.leb_spec lencheck ip); [reflexivity|lia].
  - intros n last N L B C. rewrite (NI N).
    destruct (bytes_from_load _ _ _ _ _ L) as (rest & ->).
    rewrite <- app_assoc. cbn [app].
    apply read_variable_length_loop_ok; assumption.
  - intros n last N L -> C. rewrite (NI N).
    destruct (bytes_from_load _ _ _ _ _ L) as (rest & ->).
    rewrite <- app_assoc. cbn [app].
    apply read_variable_length_loop_limit; assumption.
  - intros r. unfold run, read_variable_length. cbv zeta.
    destruct (initial_check && (lencheck <=? ip)) eqn:E.
    + intros [= <-]. cbn [vl_error vl_ip vl_length].
      apply andb_true_iff in E. destruct E as [E1 E2]. apply Z.leb_le in E2.
      repeat split; try discriminate; auto; try lia.
    + intros H.
      destruct (read_variable_length_loop_exact _ _ _ _ _ _ H)
        as (n & last & rest' & Hrest & Hip & Hlen & Hc).
      assert (NI' : ~ (initial_check = true /\ lencheck <= ip)).
      { intros [-> H2]. simpl in E. apply Z.leb_gt in E. lia. }
      split; [|split].
      * intros Hok. exists n, last.
        destruct Hc as [(_ & Hlast & _)|(Hle & _)]; [|congruence].
        split; [|split; [|split; [|split]]]; auto.
        -- replace (Z.of_nat n + 1) with (len (repeat xff n ++ [last])).
           2:{ rewrite len_app. unfold len. rewrite repeat_length. simpl. lia. }
           eapply load_bytes_from; [destruct n; discriminate|].
           rewrite Hrest, <- app_assoc. reflexivity.
        -- intros Hn. rewrite Hlen. cbn [Z.add].
           rewrite byte_sum_app, byte_sum_repeat_xff.
           cbn [byte_sum fold_right]. pose proof (byte_val_range last).
           unfold to_unsigned. apply Z.mod_small. lia.
      * split; [|tauto]. destruct Hc as [(Hc & _)|(Hc & _)]; congruence.
      * split.
        -- intros He. destruct Hc as [(Hc & _)|(_ & Hc & Hl)]; [congruence|].
           repeat split; auto; lia.
        -- intros (Hc1 & Hc2 & Hc3).
           destruct Hc as [(_ & _ & Hc)|(Hc & _)]; [|exact Hc].
           specialize (Hc Hc1). lia.
Qed.

Lemma read_variable_length_exact_witness :
  let m := Mem [xff; xff; x03; x07] [] [] in
  read_variable_length m Src 4 4 true true ok = Val (VL 0 4 initial_error)
  /\ read_variable_length m Src 0 10 true true ok = Val (VL 513 3 ok)
  /\ read_variable_length m Src 0 2 true true ok = Val (VL 510 2 loop_error).
Proof.
  intros m. split; [|split].
  - apply (proj1 (read_variable_length_exact m Src 4 4 true true)).
    split; [reflexivity|lia].
  - apply (proj1 (proj2 (read_variable_length_exact m Src 0 10 true true))
             2%nat x03).
    + intros [_ H]. lia.
    + reflexivity.
    + reflexivity.
    + intros _. simpl. lia.
  - apply (proj1 (proj2 (proj2
             (read_variable_length_exact m Src 0 2 true true))) 1%nat xff).
    + intros [_ H]. lia.
    + reflexivity.
    + reflexivity.
    + reflexivity.
Defined.

(** ** LZ4_compressBound *)

(** C5. For an [int] inputSize in 0 .. LZ4_MAX_INPUT_SIZE the bound is
    inputSize + inputSize/255 + 16; for a negative one or one above
    LZ4_MAX_INPUT_SIZE it is 0. *)
Theorem LZ4_compressBound_value isize :
  INT_MIN <= isize <= INT_MAX ->
  (0 <= isize <= LZ4_MAX_INPUT_SIZE ->
   LZ4_compressBound isize = isize + isize / 255 + 16)
  /\ (isize < 0 \/ LZ4_MAX_INPUT_SIZE < isize -> LZ4_compressBound isize = 0).
Proof.
  unfold INT_MIN, INT_MAX, LZ4_compressBound, LZ4_COMPRESSBOUND,
    LZ4_MAX_INPUT_SIZE, to_unsigned, to_int.
  intros R. split; intros H.
  - rewrite (Z.mod_small isize) by lia. rewrite Z.mod_small by lia.
    destruct (Z.ltb_spec 2113929216 isize); [lia|].
    rewrite Z.quot_div_nonneg by lia.
    assert (0 <= isize / 255 <= 8289918) by (Z.div_mod_to_equations; lia).
    rewrite Z.mod_small by lia. lia.
  - rewrite (Z.mod_small 2113929216) by lia.
    destruct (Z.ltb_spec 2113929216 (isize mod 2 ^ 32)) as [L|L]; [reflexivity|].
    exfalso. destruct H as [H|H].
    + Z.div_mod_to_equations. lia.
    + rewrite Z.mod_small in L by lia. lia.
Qed.

Lemma LZ4_compressBound_value_witness :
  (0 <= 1000 <= LZ4_MAX_INPUT_SIZE ->
   LZ4_compressBound 1000 = 1000 + 1000 / 255 + 16)
  /\ (1000 < 0 \/ LZ4_MAX_INPUT_SIZE < 1000 -> LZ4_compressBound 1000 = 0).
Proof.
  apply (LZ4_compressBound_value 1000). unfold INT_MIN, INT_MAX. lia.
Defined.

(** ** The special cases of the decoder *)

(** C10. With a null source LZ4_decompress_generic, and so
    LZ4_decompress_safe, returns -1 at once, whatever the other arguments:
    no access is made and the memory is the one of the call. *)
Theorem LZ4_decompress_null_source base fast dst srcSize outputSize
    endOnInput partialDecoding dict lowPrefix dictStart dictSize fuel m :
  LZ4_decompress_generic
    (Params base fast NULL dst srcSize outputSize endOnInput partialDecoding
            dict lowPrefix dictStart dictSize) fuel m
  = Returned (-1) 0 (off dst) m
  /\ LZ4_decompress_safe base fast fuel m NULL dst srcSize outputSize
     = Returned (-1) 0 (off dst) m.
Proof.
  split; destruct fuel; reflexivity.
Qed.

Lemma slice_head b l : slice (b :: l) 0 1 = Some [b].
Proof.
  unfold slice.
  replace ((0 <=? 0) && (0 <=? 1) && (0 + 1 <=? len (b :: l))) with true.
  - reflexivity.
  - symmetry. rewrite !andb_true_iff, !Z.leb_le.
    unfold len. cbn [Datatypes.length]. lia.
Qed.

(** C6. With dstCapacity 0, LZ4_decompress_safe returns 0 exactly when
    compressedSize is 1 and the source byte is 0x00; otherwise, also for
    compressedSize 0, it returns -1.  Nothing is written. *)
Theorem LZ4_decompress_safe_empty_output base fast fuel m compressedSize :
  compressedSize <= len (src_mem m) ->
  exists rv,
    LZ4_decompress_safe base fast fuel m (Ptr Src 0) (Ptr Dst 0) compressedSize 0
    = Returned rv 0 0 m
    /\ (rv = 0 \/ rv = -1)
    /\ (rv = 0 <-> compressedSize = 1 /\ hd_error (src_mem m) = Some x00).
Proof.
  intros H.
  unfold LZ4_decompress_safe, safe_params, LZ4_decompress_generic, decode_entry.
  cbn [src dst is_null blk off endOnInput partialDecoding outputSize srcSize
       endOnInputSize decode_full_block andb Z.eqb].
  unfold endOnInputSize, decode_full_block. cbn [andb].
  destruct (Z.eqb_spec compressedSize 1) as [->|N].
  - destruct (src_mem m) as [|b l] eqn:Es.
    { unfold len in H. simpl in H. lia. }
    replace (read8 m (ipp _ 0)) with (@Val Z (byte_val b))
      by (unfold read8, load, ipp; cbn [blk off src];
          rewrite Es, slice_head; reflexivity).
    cbn [bind land]. rewrite decode_loop_exit.
    destruct (Z.eqb_spec (byte_val b) 0) as [E|E].
    + exists 0. repeat split; auto. cbn [hd_error]. f_equal.
      destruct b; try reflexivity; vm_compute in E; discriminate.
    + exists (-1). repeat split; auto; try discriminate.
      intros [_ [= ->]]. exfalso. apply E. reflexivity.
  - cbn [land]. rewrite decode_loop_exit. exists (-1).
    repeat split; auto; try discriminate. intros [? _]. contradiction.
Qed.

Lemma LZ4_decompress_safe_empty_output_witness :
  exists rv,
    LZ4_decompress_safe (fun _ => 0) true 1 (Mem [x00] [] []) (Ptr Src 0)
                        (Ptr Dst 0) 1 0
    = Returned rv 0 0 (Mem [x00] [] [])
    /\ (rv = 0 \/ rv = -1)
    /\ (rv = 0 <-> 1 = 1 /\ hd_error (src_mem (Mem [x00] [] [])) = Some x00).
Proof.
  apply (LZ4_decompress_safe_empty_output (fun _ => 0) true 1 (Mem [x00] [] []) 1).
  vm_compute. discriminate.
Defined.

(** ** Memory safety and termination *)

(** On buffers of the declared sizes a call returns: an error code, or the
    number of bytes decoded with the input consumed to its end, or 0 for the
    empty block in an empty destination. *)
Lemma LZ4_decompress_safe_returns base fast m compressedSize dstCapacity k :
  len (src_mem m) = compressedSize -> len (dst_mem m) = dstCapacity ->
  compressedSize <= INT_MAX -> dstCapacity <= INT_MAX ->
  exists rv ip op m',
    LZ4_decompress_safe base fast (S (length (src_mem m) + k)) m
                        (Ptr Src 0) (Ptr Dst 0) compressedSize dstCapacity
    = Returned rv ip op m'
    /\ same_shape m m'
    /\ (- compressedSize - 1 <= rv < 0
        \/ (rv = op /\ 0 <= op <= dstCapacity /\ ip = compressedSize)
        \/ (rv = 0 /\ ip = 0 /\ op = 0 /\ dstCapacity = 0 /\
            compressedSize = 1 /\ src_mem m = [x00])).
Proof.
  intros Hs Hd Hcs Hcap.
  assert (0 <= compressedSize) by (subst; apply len_nonneg).
  assert (0 <= dstCapacity) by (subst; apply len_nonneg).
  pose proof (LZ4_decompress_safe_outcome base fast compressedSize dstCapacity m
                ltac:(lia) ltac:(lia) Hs Hd (S (length (src_mem m) + k))) as O.
  match type of O with ?F -> _ => assert (HF : F) by (unfold len in Hs; lia) end.
  specialize (O HF).
  destruct (LZ4_decompress_safe _ _ _ _ _ _ _ _) as [rv ip op m'| |];
    try contradiction.
  exists rv, ip, op, m'. split; [reflexivity|exact O].
Qed.

(** With no input the call returns -1. *)
Lemma LZ4_decompress_safe_no_input base fast fuel m dstCapacity :
  LZ4_decompress_safe base fast (S fuel) m (Ptr Src 0) (Ptr Dst 0) 0 dstCapacity
  = Returned (-1) 0 0 m.
Proof.
  unfold LZ4_decompress_safe, LZ4_decompress_generic, decode_entry, safe_params.
  cbn [src dst off blk is_null endOnInput outputSize srcSize partialDecoding
       endOnInputSize decode_full_block andb negb Z.eqb].
  destruct (dstCapacity =? 0); reflexivity.
Qed.

(** C1. Whatever the bytes of a source buffer of the declared length and
    whatever the declared capacity of the destination, LZ4_decompress_safe
    never leaves the source block when it reads nor the destination block
    when it writes: the call does not fault; it returns, a negative value
    or a count within the capacity, and the memory it leaves has the source
    unchanged and a destination of the same size.  When it detects
    malformation it returns a negative value: a return at [_output_error]
    is negative; a negative value is [-(ip - src) - 1] for the input cursor
    [ip] where the decoder stopped, inside the input or at its end, which
    is what [_output_error] returns there (the special cases return -1 with
    the cursor at the start of the input); a value that is not negative is
    returned only at the end of decoding, with the input consumed to its
    end, or for the empty block in an empty destination; and a turn of
    either loop that starts inside the buffers leaves by a [return] only
    with a negative value, its other ways out being the next turn and the
    end of decoding, inside the buffers. *)
Theorem LZ4_decompress_safe_in_bounds base fast m compressedSize dstCapacity k :
  len (src_mem m) = compressedSize -> len (dst_mem m) = dstCapacity ->
  compressedSize <= INT_MAX -> dstCapacity <= INT_MAX ->
  let P := safe_params base fast (Ptr Src 0) (Ptr Dst 0)
                       compressedSize dstCapacity in
  exists rv ip op m',
    LZ4_decompress_safe base fast (S (length (src_mem m) + k)) m
                        (Ptr Src 0) (Ptr Dst 0) compressedSize dstCapacity
    = Returned rv ip op m'
    /\ src_mem m' = src_mem m /\ dict_mem m' = dict_mem m
    /\ len (dst_mem m') = dstCapacity
    /\ (rv < 0 \/ 0 <= rv <= dstCapacity)
    /\ 0 <= ip <= compressedSize
    /\ (at_output_error P (Returned rv ip op m') -> rv < 0)
    /\ (rv < 0 -> rv = - ip - 1 /\ at_output_error P (Returned rv ip op m'))
    /\ (0 <= rv ->
        (rv = op /\ ip = compressedSize /\ 1 <= compressedSize)
        \/ (rv = 0 /\ ip = 0 /\ op = 0 /\ dstCapacity = 0 /\
            compressedSize = 1 /\ src_mem m = [x00]))
    /\ (forall (fast_loop : bool) ip1 op1 m1,
        same_shape m m1 ->
        0 <= ip1 < compressedSize -> 0 <= op1 <= dstCapacity ->
        (fast_loop = true -> op1 + 64 <= dstCapacity) ->
        safe_jump compressedSize dstCapacity m ip1
          (land ((if fast_loop then fast_sequence else safe_sequence)
                   P ip1 op1 m1))).
Proof.
  intros Hs Hd Hcs Hcap P.
  pose proof (len_nonneg (src_mem m)) as Ns.
  pose proof (len_nonneg (dst_mem m)) as Nd.
  destruct (LZ4_decompress_safe_returns base fast m compressedSize dstCapacity
              k Hs Hd Hcs Hcap) as (rv & ip & op & m' & E & (S1 & S2 & S3) & R).
  assert (C : rv < 0 -> rv = - ip - 1 /\ 0 <= ip <= compressedSize).
  { apply (LZ4_decompress_safe_coded base fast compressedSize dstCapacity m
             ltac:(lia) ltac:(lia) Hs Hd _ _ _ _ _ E). }
  assert (Z0 : 0 <= rv -> 1 <= compressedSize).
  { intros Hrv. destruct (Z.eq_dec compressedSize 0) as [E0|]; [|lia].
    rewrite E0, LZ4_decompress_safe_no_input in E. injection E as <- _ _ _. lia. }
  assert (I : 0 <= ip <= compressedSize) by (destruct R as [R|[R|R]]; lia).
  assert (V : forall i, 0 <= i <= compressedSize ->
                to_int (to_int (- (i - 0)) - 1) = - i - 1).
  { intros i Hi. unfold INT_MAX in *. rewrite (to_int_small (- (i - 0))) by lia.
    rewrite to_int_small by lia. lia. }
  exists rv, ip, op, m'.
  split; [exact E|]. split; [exact S1|]. split; [exact S2|].
  split; [congruence|]. split; [lia|]. split; [exact I|].
  split; [|split; [|split]].
  - intros (ipe & ope & me & O). unfold output_error in O.
    cbn [P safe_params src off] in O. injection O as O1 O2 _ _. subst ipe.
    rewrite V in O1 by exact I. lia.
  - intros Hrv. destruct (C Hrv) as [C1 C2]. split; [exact C1|].
    exists ip, op, m'. unfold output_error. cbn [P safe_params src off].
    rewrite V by exact I. rewrite C1. reflexivity.
  - intros Hrv. specialize (Z0 Hrv). destruct R as [R|[R|R]]; [lia|left|right].
    + repeat split; lia.
    + exact R.
  - intros fast_loop ip1 op1 m1 S Hip Hop Hf. apply wp_land.
    destruct fast_loop.
    + apply fast_sequence_safe; auto; lia.
    + apply safe_sequence_safe; auto; lia.
Qed.

Lemma LZ4_decompress_safe_in_bounds_witness :
  let m := Mem [x10; xff; x09; x00] (repeat x00 70) [] in
  let P := safe_params (fun _ => 0) true (Ptr Src 0) (Ptr Dst 0) 4 70 in
  exists rv ip op m',
    LZ4_decompress_safe (fun _ => 0) true (S (length (src_mem m) + 0)) m
                        (Ptr Src 0) (Ptr Dst 0) 4 70
    = Returned rv ip op m'
    /\ src_mem m' = src_mem m /\ dict_mem m' = dict_mem m
    /\ len (dst_mem m') = 70
    /\ (rv < 0 \/ 0 <= rv <= 70)
    /\ 0 <= ip <= 4
    /\ (at_output_error P (Returned rv ip op m') -> rv < 0)
    /\ (rv < 0 -> rv = - ip - 1 /\ at_output_error P (Returned rv ip op m'))
    /\ (0 <= rv ->
        (rv = op /\ ip = 4 /\ 1 <= 4)
        \/ (rv = 0 /\ ip = 0 /\ op = 0 /\ 70 = 0 /\ 4 = 1 /\
            src_mem m = [x00]))
    /\ (forall (fast_loop : bool) ip1 op1 m1,
        same_shape m m1 ->
        0 <= ip1 < 4 -> 0 <= op1 <= 70 ->
        (fast_loop = true -> op1 + 64 <= 70) ->
        safe_jump 4 70 m ip1
          (land ((if fast_loop then fast_sequence else safe_sequence)
                   P ip1 op1 m1))).
Proof.
  intros m.
  apply (LZ4_decompress_safe_in_bounds (fun _ => 0) true m 4 70 0);
    try reflexivity; unfold INT_MAX; lia.
Defined.

(** C8. A call of LZ4_decompress_safe terminates: an iteration of the fast
    loop or of the main loop that does not leave the decoder has read its
    token inside the input and leaves the input cursor further on, so that
    one unit of fuel for each byte of the input block is never used up; and
    on buffers of the declared sizes the call returns a value. *)
Theorem LZ4_decompress_safe_terminates base fast m compressedSize dstCapacity k :
  let P := safe_params base fast (Ptr Src 0) (Ptr Dst 0)
                       compressedSize dstCapacity in
  let run := LZ4_decompress_safe base fast (S (length (src_mem m) + k)) m
               (Ptr Src 0) (Ptr Dst 0) compressedSize dstCapacity in
  (forall ip op mm, iterates P ip mm (land (fast_sequence P ip op mm)))
  /\ (forall ip op mm, iterates P ip mm (land (safe_sequence P ip op mm)))
  /\ run <> OutOfFuel
  /\ (len (src_mem m) = compressedSize -> len (dst_mem m) = dstCapacity ->
      compressedSize <= INT_MAX -> dstCapacity <= INT_MAX ->
      exists rv ip op m', run = Returned rv ip op m').
Proof.
  intros P run. split; [|split; [|split]].
  - intros. apply wp_land, fast_sequence_adv.
  - intros. apply wp_land, safe_sequence_adv.
  - pose proof (LZ4_decompress_generic_terminates P m k) as T.
    cbn [P safe_params src blk blen] in T. unfold len in T.
    rewrite Nat2Z.id in T. exact T.
  - intros Hs Hd Hcs Hcap.
    destruct (LZ4_decompress_safe_returns base fast m compressedSize
                dstCapacity k Hs Hd Hcs Hcap) as (rv & ip & op & m' & E & _).
    exists rv, ip, op, m'. exact E.
Qed.

Lemma LZ4_decompress_safe_terminates_witness :
  exists rv ip op m',
    LZ4_decompress_safe (fun _ => 0) true
      (S (length (src_mem (Mem [x00] (repeat x00 3) [])) + 0))
      (Mem [x00] (repeat x00 3) []) (Ptr Src 0) (Ptr Dst 0) 1 3
    = Returned rv ip op m'.
Proof.
  apply (proj2 (proj2 (proj2
           (LZ4_decompress_safe_terminates (fun _ => 0) true
              (Mem [x00] (repeat x00 3) []) 1 3 0))));
    try reflexivity; unfold INT_MAX; lia.
Defined.

(** ** The end of a block *)

(** C2, as stated, fails: the terminal sequence of four literals consumes
    the 5 bytes of the input and leaves the output, 4 bytes, short of the
    capacity 10; the call succeeds with 4. *)
Lemma short_output_is_accepted :
  LZ4_decompress_safe (fun _ => 0) true 6
    (Mem [x40; x61; x62; x63; x64] (repeat x00 10) [])
    (Ptr Src 0) (Ptr Dst 0) 5 10
  = Returned 4 5 4
      (Mem [x40; x61; x62; x63; x64]
           ([x61; x62; x63; x64] ++ repeat x00 6) [])
  /\ 4 < 10.
Proof. split; [vm_compute; reflexivity | lia]. Qed.

(** C2, amended. In non-partial mode with endOnInputSize the decoder returns
    success, a count rv >= 0, only when the input is consumed exactly to its
    declared end and the count is the output cursor, at or below the
    declared capacity; the only other success is 0 for the one-byte empty
    block in a destination of capacity 0. *)
Theorem success_consumes_the_input base fast m compressedSize dstCapacity k
    rv ip op m' :
  len (src_mem m) = compressedSize -> len (dst_mem m) = dstCapacity ->
  compressedSize <= INT_MAX -> dstCapacity <= INT_MAX ->
  LZ4_decompress_safe base fast (S (length (src_mem m) + k)) m
                      (Ptr Src 0) (Ptr Dst 0) compressedSize dstCapacity
  = Returned rv ip op m' ->
  0 <= rv ->
  (ip = compressedSize /\ rv = op /\ op <= dstCapacity)
  \/ (rv = 0 /\ dstCapacity = 0 /\ compressedSize = 1 /\ src_mem m = [x00]).
Proof.
  intros Hs Hd Hcs Hcap E Hrv.
  destruct (LZ4_decompress_safe_returns base fast m compressedSize dstCapacity
              k Hs Hd Hcs Hcap) as (rv' & ip' & op' & m'' & E' & _ & R).
  rewrite E in E'. injection E' as <- <- <- <-.
  destruct R as [R|[R|R]]; [lia|left|right]; intuition.
Qed.

Lemma success_consumes_the_input_witness :
  (5 = 5 /\ 4 = 4 /\ 4 <= 10)
  \/ (4 = 0 /\ 10 = 0 /\ 5 = 1 /\
      src_mem (Mem [x40; x61; x62; x63; x64] (repeat x00 10) []) = [x00]).
Proof.
  apply (success_consumes_the_input (fun _ => 0) true
           (Mem [x40; x61; x62; x63; x64] (repeat x00 10) []) 5 10 0
           4 5 4
           (Mem [x40; x61; x62; x63; x64]
                ([x61; x62; x63; x64] ++ repeat x00 6) []));
    try (vm_compute; reflexivity); unfold INT_MAX; lia.
Defined.

(** ** Offsets *)

(** C3, as stated, fails: the second and third bytes after the literal are
    the offset 0; the block is decoded, the match giving four bytes 0. *)
Lemma offset_zero_is_decoded :
  LZ4_decompress_safe (fun _ => 0) true 18
    (Mem ([x10; x61; x00; x00; xc0] ++ repeat x62 12) (repeat xff 17) [])
    (Ptr Src 0) (Ptr Dst 0) 17 17
  = Returned 17 17 17
      (Mem ([x10; x61; x00; x00; xc0] ++ repeat x62 12)
           ([x61; x00; x00; x00; x00] ++ repeat x62 12) []).
Proof. vm_compute. reflexivity. Qed.

(** C3, amended. LZ4_decompress_safe does not reject an offset of 0: at the
    match copy of the main loop a match of offset 0 that ends at least
    LASTLITERALS bytes before the end of the destination is decoded as a
    self-reference, the output cursor moves on by the match length and the
    loop goes on.  The offset that the match copy rejects, with a negative
    result, is one that reaches before the start of the destination. *)
Theorem match_copy_offset_check base fast compressedSize dstCapacity
    ip op m length :
  len (dst_mem m) = dstCapacity ->
  0 <= ip <= INT_MAX -> 0 <= op -> op + 12 <= dstCapacity -> 4 <= length ->
  let P := safe_params base fast (Ptr Src 0) (Ptr Dst 0)
                       compressedSize dstCapacity in
  (op + length <= dstCapacity - LASTLITERALS ->
   exists m',
     land (safe_match_copy P ip op m length 0 (op - 0))
     = next_safe ip (op + length) m' /\ same_shape m m')
  /\ (forall offset, op < offset ->
      exists rv,
        land (safe_match_copy P ip op m length offset (op - offset))
        = exit_ (Returned rv ip op m) /\ rv < 0).
Proof.
  intros Hd Hip Hop Hop' Hl P. split.
  - intros Hfit. apply wp_land.
    pose proof (same_shape_refl m) as S.
    unfold P, safe_params, safe_match_copy. params. consts.
    change (nth (Z.to_nat 0) inc32table 0) with 0.
    change (nth (Z.to_nat 0) dec64table 0) with 0.
    repeat wp_step.
    all: eexists; split; [reflexivity | assumption].
  - intros offset Ho. unfold P, safe_params, safe_match_copy. params.
    destruct (Z.ltb_spec (op - offset + 0) 0) as [L|L]; [|lia].
    cbn [andb land]. unfold output_error. cbn [land src off].
    eexists. split; [reflexivity|].
    unfold INT_MAX in Hip. rewrite !to_int_small; rewrite ?to_int_small; lia.
Qed.

Lemma match_copy_offset_check_witness :
  let P := safe_params (fun _ => 0) true (Ptr Src 0) (Ptr Dst 0) 17 17 in
  let m := Mem ([x10; x61; x00; x00; xc0] ++ repeat x62 12)
               (x61 :: repeat xff 16) [] in
  (1 + 4 <= 17 - LASTLITERALS ->
   exists m',
     land (safe_match_copy P 4 1 m 4 0 (1 - 0)) = next_safe 4 (1 + 4) m'
     /\ same_shape m m')
  /\ (forall offset, 1 < offset ->
      exists rv,
        land (safe_match_copy P 4 1 m 4 offset (1 - offset))
        = exit_ (Returned rv 4 1 m) /\ rv < 0).
Proof.
  apply (match_copy_offset_check (fun _ => 0) true 17 17 4 1
           (Mem ([x10; x61; x00; x00; xc0] ++ repeat x62 12)
                (x61 :: repeat xff 16) []) 4);
    try reflexivity; unfold INT_MAX; lia.
Defined.

(** ** The scenario of a match of period 2 *)

(** C7, as stated, fails: the 5-byte block is not decoded into eight bytes,
    it is rejected; the destination is left as it was. *)
Lemma lone_match_sequence_is_rejected :
  LZ4_decompress_safe (fun _ => 0) true 6
    (Mem [x22; x61; x62; x02; x00] (repeat x00 8) [])
    (Ptr Src 0) (Ptr Dst 0) 5 8
  = Returned (-2) 1 0 (Mem [x22; x61; x62; x02; x00] (repeat x00 8) []).
Proof. vm_compute. reflexivity. Qed.

(** C7, amended. The 5-byte block of token 0x22, literals 'a','b' and offset
    02 00 has no terminal sequence of literals: decoded alone into a
    destination of capacity 8 it is rejected with -2, nothing written.
    Followed by a terminal sequence of six literals (token 0x60) and decoded
    into a destination of capacity 14 it succeeds: the output is the eight
    bytes a b a b a b a b, two literals and a match of six bytes of period
    2, and then the six literals. *)
Theorem period_two_match base fast d dict c1 c2 c3 c4 c5 c6
    d0 d1 d2 d3 d4 d5 d6 d7 d8 d9 d10 d11 d12 d13 :
  let block := [x22; x61; x62; x02; x00] in
  let tail := [x60; c1; c2; c3; c4; c5; c6] in
  let dst0 := [d0; d1; d2; d3; d4; d5; d6; d7; d8; d9; d10; d11; d12; d13] in
  LZ4_decompress_safe base fast 6 (Mem block d dict) (Ptr Src 0) (Ptr Dst 0) 5 8
  = Returned (-2) 1 0 (Mem block d dict)
  /\ LZ4_decompress_safe base fast 13 (Mem (block ++ tail) dst0 dict)
                         (Ptr Src 0) (Ptr Dst 0) 12 14
     = Returned 14 12 14
         (Mem (block ++ tail)
              ([x61; x62; x61; x62; x61; x62; x61; x62]
               ++ [c1; c2; c3; c4; c5; c6]) dict).
Proof.
  destruct fast; split; vm_compute; reflexivity.
Qed.

(** ** The last literals *)

(** The match copy at [safe_match_copy] rejects every match that ends
    within the last LASTLITERALS bytes of the destination. *)
Lemma match_copy_keeps_last_literals base fast compressedSize dstCapacity
    ip op m length offset :
  len (dst_mem m) = dstCapacity ->
  0 <= ip <= INT_MAX -> 0 <= op -> op + 12 <= dstCapacity -> 4 <= length ->
  0 <= offset <= op ->
  dstCapacity - LASTLITERALS < op + length ->
  exists rv ip' op' m',
    land (safe_match_copy
            (safe_params base fast (Ptr Src 0) (Ptr Dst 0)
                         compressedSize dstCapacity)
            ip op m length offset (op - offset))
    = exit_ (Returned rv ip' op' m') /\ rv < 0.
Proof.
  intros Hd Hip Hop Hop' Hl Ho Hend. apply wp_land.
  pose proof (same_shape_refl m) as S.
  unfold safe_params, safe_match_copy. params. consts. tables offset.
  repeat wp_step.
  all: do 4 eexists; split; [reflexivity|].
  all: unfold INT_MAX in Hip; rewrite !to_int_small; rewrite ?to_int_small; lia.
Qed.

(** The match copy at [safe_match_copy] copies every match that ends at
    least LASTLITERALS bytes before the end of the destination, and goes
    on. *)
Lemma match_copy_before_last_literals base fast compressedSize dstCapacity
    ip op m length offset :
  len (dst_mem m) = dstCapacity ->
  0 <= ip <= INT_MAX -> 0 <= op -> op + 12 <= dstCapacity -> 4 <= length ->
  0 <= offset <= op ->
  op + length <= dstCapacity - LASTLITERALS ->
  exists m',
    land (safe_match_copy
            (safe_params base fast (Ptr Src 0) (Ptr Dst 0)
                         compressedSize dstCapacity)
            ip op m length offset (op - offset))
    = next_safe ip (op + length) m' /\ same_shape m m'.
Proof.
  intros Hd Hip Hop Hop' Hl Ho Hend. apply wp_land.
  pose proof (same_shape_refl m) as S.
  unfold safe_params, safe_match_copy. params. consts. tables offset.
  repeat wp_step.
  all: eexists; split; [reflexivity | assumption].
Qed.

(** C9, as stated, fails.  In the first block a literal 'a' and a match of
    19 bytes at offset 1 are decoded by the match copy at
    [safe_match_copy]: the match ends at byte 20 of a destination of
    capacity 25, LASTLITERALS bytes before its end, and is accepted; four
    literals follow and the call succeeds with 24, so that byte 19, one of
    the final 5 bytes of the output, comes from the match.  In the second
    block 14 literals and a match of 18 bytes at offset 8 go through the
    shortcut of the main loop, which makes no test on LASTLITERALS: the
    match ends at the end of the destination, of capacity 32, the empty
    terminal sequence follows and the call succeeds with 32. *)
Lemma last_bytes_from_a_match :
  let P := safe_params (fun _ => 0) true (Ptr Src 0) (Ptr Dst 0) 10 25 in
  let block := [x1f; x61; x01; x00; x00; x40; x77; x78; x79; x7a] in
  let block' := [xee] ++ [x61; x62; x63; x64; x65; x66; x67; x68; x69; x6a;
                          x6b; x6c; x6d; x6e] ++ [x08; x00; x00] in
  land (safe_sequence P 0 0 (Mem block (repeat x00 25) []))
  = next_safe 5 20 (Mem block (repeat x61 25) [])
  /\ LZ4_decompress_safe (fun _ => 0) true 11 (Mem block (repeat x00 25) [])
                         (Ptr Src 0) (Ptr Dst 0) 10 25
     = Returned 24 10 24
         (Mem block (repeat x61 20 ++ [x77; x78; x79; x7a; x61]) [])
  /\ 24 - LASTLITERALS < 20
  /\ LZ4_decompress_safe (fun _ => 0) true 19 (Mem block' (repeat x00 32) [])
                         (Ptr Src 0) (Ptr Dst 0) 18 32
     = Returned 32 18 32
         (Mem block'
              ([x61; x62; x63; x64; x65; x66; x67; x68; x69; x6a; x6b; x6c;
                x6d; x6e]
               ++ [x67; x68; x69; x6a; x6b; x6c; x6d; x6e]
               ++ [x67; x68; x69; x6a; x6b; x6c; x6d; x6e]
               ++ [x67; x68]) []).
Proof.
  repeat split; try (vm_compute; reflexivity).
Qed.

(** C9, amended. In non-partial bounds-checked mode the LASTLITERALS test is
    made on the declared capacity of the destination, not on the end of the
    output that is produced, and by the match copy at [safe_match_copy]: it
    rejects, with a negative value, every match that would end within the
    last LASTLITERALS bytes of the destination, and copies every match that
    ends at or before them, the output cursor moving on to the end of the
    match (the match copy is reached with at least MFLIMIT = 12 bytes of
    the destination left and a match of at least MINMATCH = 4 bytes).  A
    turn of either loop that goes on leaves the output cursor, at
    the end of its match, at least LASTLITERALS bytes before the end of the
    destination, unless the turn began with at least 32 bytes of the
    destination left and gave at most 32 bytes: this is the shortcut of the
    main loop, which copies at most 14 literals and a match of at most 18
    bytes and makes no LASTLITERALS test. *)
Theorem last_literals_of_the_capacity base fast compressedSize dstCapacity :
  0 <= compressedSize <= INT_MAX -> 0 <= dstCapacity <= INT_MAX ->
  let P := safe_params base fast (Ptr Src 0) (Ptr Dst 0)
                       compressedSize dstCapacity in
  (forall ip op m length offset,
     len (dst_mem m) = dstCapacity ->
     0 <= ip <= INT_MAX -> 0 <= op -> op + 12 <= dstCapacity -> 4 <= length ->
     0 <= offset <= op ->
     (dstCapacity - LASTLITERALS < op + length ->
      exists rv ip' op' m',
        land (safe_match_copy P ip op m length offset (op - offset))
        = exit_ (Returned rv ip' op' m') /\ rv < 0)
     /\ (op + length <= dstCapacity - LASTLITERALS ->
         exists m',
           land (safe_match_copy P ip op m length offset (op - offset))
           = next_safe ip (op + length) m' /\ same_shape m m'))
  /\ (forall (fast_loop : bool) ip op m,
        len (src_mem m) = compressedSize -> len (dst_mem m) = dstCapacity ->
        0 <= ip < compressedSize -> 0 <= op <= dstCapacity ->
        (fast_loop = true -> op + 64 <= dstCapacity) ->
        last_literals_jump compressedSize dstCapacity m ip op
          (land ((if fast_loop then fast_sequence else safe_sequence)
                   P ip op m))).
Proof.
  intros Hcs Hcap P. split.
  - intros ip op m length offset Hd Hip Hop Hop' Hl Ho. split; intros Hend.
    + apply match_copy_keeps_last_literals; assumption.
    + apply match_copy_before_last_literals; assumption.
  - intros fast_loop ip op m Hs Hd Hip Hop Hf. apply wp_land.
    destruct fast_loop.
    + apply fast_sequence_last; auto; try apply same_shape_refl; lia.
    + apply safe_sequence_last; auto; apply same_shape_refl.
Qed.

Lemma last_literals_of_the_capacity_witness :
  let P := safe_params (fun _ => 0) true (Ptr Src 0) (Ptr Dst 0) 18 32 in
  let m := Mem ([xee] ++ [x61; x62; x63; x64; x65; x66; x67; x68; x69; x6a;
                          x6b; x6c; x6d; x6e] ++ [x08; x00; x00])
               (repeat x00 32) [] in
  (exists rv ip' op' m',
     land (safe_match_copy P 17 14 m 14 8 (14 - 8))
     = exit_ (Returned rv ip' op' m') /\ rv < 0)
  /\ (exists m',
        land (safe_match_copy P 17 14 m 13 8 (14 - 8))
        = next_safe 17 (14 + 13) m' /\ same_shape m m')
  /\ last_literals_jump 18 32 m 0 0 (land (safe_sequence P 0 0 m)).
Proof.
  intros P m.
  assert (H1 : 0 <= 18 <= INT_MAX) by (unfold INT_MAX; lia).
  assert (H2 : 0 <= 32 <= INT_MAX) by (unfold INT_MAX; lia).
  pose proof (last_literals_of_the_capacity (fun _ => 0) true 18 32 H1 H2)
    as [A B].
  split; [|split].
  - apply (A 17 14 m 14 8); try reflexivity; unfold INT_MAX, LASTLITERALS; lia.
  - apply (A 17 14 m 13 8); try reflexivity; unfold INT_MAX, LASTLITERALS; lia.
  - apply (B false 0 0 m); try reflexivity; lia.
Defined.

(** * Further properties *)

(** * Counting common bytes *)

Lemma ctz_pos_spec p :
  0 <= ctz_pos p /\ exists q, 0 <= q /\ Zpos p = 2 ^ ctz_pos p * (2 * q + 1).
Proof.
  induction p as [p IH|p IH|]; cbn [ctz_pos].
  - split; [lia|]. exists (Zpos p). split; lia.
  - destruct IH as [N [q [Hq E]]]. split; [lia|]. exists q. split; [exact Hq|].
    rewrite Z.pow_add_r by lia. change (Zpos p~0) with (2 * Zpos p). rewrite E.
    ring.
  - split; [lia|]. exists 0. split; [lia|reflexivity].
Qed.

Lemma builtin_ctzll_spec v :
  0 < v ->
  0 <= builtin_ctzll v
  /\ exists q, 0 <= q /\ v = 2 ^ builtin_ctzll v * (2 * q + 1).
Proof.
  destruct v as [|p|p]; try lia. intros _. apply ctz_pos_spec.
Qed.

Lemma builtin_ctzll_256 v : 0 < v -> builtin_ctzll (256 * v) = 8 + builtin_ctzll v.
Proof.
  destruct v as [|p|p]; try lia. intros _.
  change (256 * Zpos p) with (Zpos p~0~0~0~0~0~0~0~0). cbn [builtin_ctzll ctz_pos]. lia.
Qed.

Lemma builtin_ctzll_low v : 0 < v -> v mod 256 <> 0 -> 0 <= builtin_ctzll v < 8.
Proof.
  intros P H. destruct (builtin_ctzll_spec v P) as [N [q [Hq E]]].
  split; [exact N|]. destruct (Z.lt_ge_cases (builtin_ctzll v) 8) as [L|L]; [exact L|].
  exfalso. apply H. rewrite E.
  replace (builtin_ctzll v) with (8 + (builtin_ctzll v - 8)) by lia.
  rewrite Z.pow_add_r by lia. change (2 ^ 8) with 256.
  rewrite <- !Z.mul_assoc. rewrite Z.mul_comm. apply Z.mod_mul. lia.
Qed.

Lemma builtin_ctzll_bound v : 0 < v < 2 ^ 64 -> 0 <= builtin_ctzll v < 64.
Proof.
  intros P. destruct (builtin_ctzll_spec v) as [N [q [Hq E]]]; [lia|].
  split; [exact N|]. destruct (Z.lt_ge_cases (builtin_ctzll v) 64) as [L|L]; [exact L|].
  exfalso. assert (2 ^ 64 <= 2 ^ builtin_ctzll v) by (apply Z.pow_le_mono_r; lia).
  nia.
Qed.

Lemma le_value_nonneg bs : 0 <= le_value bs.
Proof.
  induction bs as [|b bs IH]; cbn [le_value]; [lia|].
  pose proof (byte_val_range b). lia.
Qed.

Lemma le_value_bound bs : le_value bs < 256 ^ len bs.
Proof.
  induction bs as [|b bs IH]; cbn [le_value]; [reflexivity|].
  unfold len in *. cbn [Datatypes.length]. rewrite Nat2Z.inj_succ, Z.pow_succ_r by lia.
  pose proof (byte_val_range b). lia.
Qed.

Lemma shiftr3 c : Z.shiftr (8 + c) 3 = 1 + Z.shiftr c 3.
Proof.
  rewrite !Z.shiftr_div_pow2 by lia. change (2 ^ 3) with 8.
  Z.div_mod_to_equations. lia.
Qed.

Lemma shiftr3_low c : 0 <= c < 8 -> Z.shiftr c 3 = 0.
Proof.
  intros H. rewrite Z.shiftr_div_pow2 by lia. apply Z.div_small. exact H.
Qed.

(** The hardware count on a little-endian word. *)
Lemma ctz_zero_prefix bs :
  le_value bs <> 0 ->
  Z.shiftr (builtin_ctzll (le_value bs)) 3 = Z.of_nat (zero_prefix bs).
Proof.
  induction bs as [|b bs IH]; cbn [le_value zero_prefix]; [congruence|].
  intros H. pose proof (byte_val_range b) as R. pose proof (le_value_nonneg bs) as N.
  destruct (Z.eqb_spec (byte_val b) 0) as [E|E].
  - rewrite E in *. cbn [Z.add] in *.
    rewrite builtin_ctzll_256 by lia. rewrite shiftr3, IH by lia. lia.
  - apply shiftr3_low. apply builtin_ctzll_low; [lia|].
    rewrite (Z.mul_comm 256), Z.mod_add by lia. rewrite Z.mod_small by lia.
    exact E.
Qed.

(** [val & -val] keeps the lowest bit that is set. *)
Lemma land_odd_opp q : Z.land (2 * q + 1) (- (2 * q + 1)) = 1.
Proof.
  replace (- (2 * q + 1)) with (2 * Z.lnot q + 1) by (unfold Z.lnot; lia).
  apply Z.bits_inj'. intros n Hn. rewrite Z.land_spec.
  destruct (Z.eq_dec n 0) as [->|Hz].
  - rewrite !Z.testbit_odd_0. reflexivity.
  - replace n with (Z.succ (n - 1)) by lia.
    rewrite !Z.testbit_odd_succ by lia. rewrite Z.lnot_spec by lia.
    rewrite andb_negb_r. change 1 with (2 * 0 + 1).
    rewrite Z.testbit_odd_succ by lia. rewrite Z.testbit_0_l. reflexivity.
Qed.

Lemma land_opp v : 0 < v -> Z.land v (- v) = 2 ^ builtin_ctzll v.
Proof.
  intros P. destruct (builtin_ctzll_spec v P) as [N [q [Hq E]]].
  rewrite E at 1 2. set (k := builtin_ctzll v) in *.
  replace (- (2 ^ k * (2 * q + 1))) with (- (2 * q + 1) * 2 ^ k) by ring.
  rewrite (Z.mul_comm (2 ^ k)). rewrite <- !Z.shiftl_mul_pow2 by lia.
  rewrite <- Z.shiftl_land, land_odd_opp. rewrite Z.shiftl_mul_pow2 by lia. lia.
Qed.

Lemma land_opp_U64 v :
  0 < v < 2 ^ 64 -> Z.land v (to_U64 (- v)) = 2 ^ builtin_ctzll v.
Proof.
  intros P. unfold to_U64. rewrite <- Z.land_ones by lia.
  rewrite Z.land_assoc, land_opp by lia. rewrite Z.land_ones by lia.
  apply Z.mod_small. pose proof (builtin_ctzll_bound v P). split.
  - apply Z.pow_nonneg. lia.
  - apply Z.pow_lt_mono_r; lia.
Qed.

Lemma DeBruijnBytePos_spec k :
  0 <= k < 64 ->
  nth (Z.to_nat (Z.shiftr (to_U64 (2 ^ k * 0x0218A392CDABBD3F)) 58))
      DeBruijnBytePos 0
  = Z.shiftr k 3.
Proof.
  intros H. replace k with (Z.of_nat (Z.to_nat k)) by lia.
  assert (L : (Z.to_nat k < 64)%nat) by lia. revert L.
  generalize (Z.to_nat k). clear. intros n L.
  do 64 (destruct n as [|n]; [vm_compute; reflexivity|]). lia.
Qed.

Lemma le_value_app a b : le_value (a ++ b) = le_value a + 256 ^ len a * le_value b.
Proof.
  induction a as [|x a IH]; cbn [le_value app].
  - change (len []) with 0. lia.
  - rewrite IH. unfold len. cbn [Datatypes.length].
    rewrite Nat2Z.inj_succ, Z.pow_succ_r by lia. ring.
Qed.

(** The value of a big-endian word, by its leading zero bytes. *)
Lemma be_value_zero_prefix bs :
  le_value (rev bs) <> 0 ->
  Z.of_nat (zero_prefix bs) < len bs
  /\ 256 ^ (len bs - 1 - Z.of_nat (zero_prefix bs)) <= le_value (rev bs)
     < 256 ^ (len bs - Z.of_nat (zero_prefix bs)).
Proof.
  induction bs as [|b bs IH]; cbn [rev zero_prefix]; [cbn; congruence|].
  rewrite le_value_app. cbn [le_value]. unfold len in *. rewrite length_rev.
  cbn [Datatypes.length]. rewrite Nat2Z.inj_succ.
  pose proof (byte_val_range b) as R. pose proof (le_value_nonneg (rev bs)) as N.
  pose proof (le_value_bound (rev bs)) as B. unfold len in B. rewrite length_rev in B.
  intros H. destruct (Z.eqb_spec (byte_val b) 0) as [E|E].
  - rewrite E in *. rewrite Nat2Z.inj_succ.
    replace (le_value (rev bs) + _) with (le_value (rev bs)) in * by lia.
    destruct (IH H) as [L [L1 L2]]. split; [lia|].
    replace (Z.succ (Z.of_nat (length bs)) - 1 - Z.succ (Z.of_nat (zero_prefix bs)))
      with (Z.of_nat (length bs) - 1 - Z.of_nat (zero_prefix bs)) by lia.
    replace (Z.succ (Z.of_nat (length bs)) - Z.succ (Z.of_nat (zero_prefix bs)))
      with (Z.of_nat (length bs) - Z.of_nat (zero_prefix bs)) by lia.
    lia.
  - change (Z.of_nat 0) with 0. split; [lia|].
    replace (Z.succ (Z.of_nat (length bs)) - 1 - 0) with (Z.of_nat (length bs)) by lia.
    rewrite Z.sub_0_r, Z.pow_succ_r by lia.
    assert (0 < 256 ^ Z.of_nat (length bs)) by (apply Z.pow_pos_nonneg; lia).
    nia.
Qed.

Lemma pow256 k : 0 <= k -> 256 ^ k = 2 ^ (8 * k).
Proof. intros H. rewrite Z.pow_mul_r by lia. reflexivity. Qed.

Lemma clz_zero_prefix bs :
  length bs = 8%nat -> le_value (rev bs) <> 0 ->
  Z.shiftr (builtin_clzll (le_value (rev bs))) 3 = Z.of_nat (zero_prefix bs).
Proof.
  intros L H. destruct (be_value_zero_prefix bs H) as [K [B1 B2]].
  unfold len in *. rewrite L in *. change (Z.of_nat 8) with 8 in *.
  set (k := Z.of_nat (zero_prefix bs)) in *. assert (0 <= k) by (unfold k; lia).
  rewrite pow256 in B1, B2 by lia.
  assert (P : 0 < le_value (rev bs)).
  { pose proof (le_value_nonneg (rev bs)). lia. }
  apply Z.log2_le_pow2 in B1; [|exact P]. apply Z.log2_lt_pow2 in B2; [|exact P].
  unfold builtin_clzll. rewrite Z.shiftr_div_pow2 by lia. change (2 ^ 3) with 8.
  Z.div_mod_to_equations. lia.
Qed.

Lemma be_software_zero_prefix bs :
  length bs = 8%nat -> le_value (rev bs) <> 0 ->
  LZ4_NbCommonBytes false true (le_value (rev bs)) = Z.of_nat (zero_prefix bs).
Proof.
  intros L H. destruct (be_value_zero_prefix bs H) as [K [B1 B2]].
  unfold len in *. rewrite L in *. change (Z.of_nat 8) with 8 in *.
  set (k := Z.of_nat (zero_prefix bs)) in *. assert (K0 : 0 <= k) by (unfold k; lia).
  set (v := le_value (rev bs)) in *.
  unfold LZ4_NbCommonBytes. change (LZ4_isLittleEndian false =? 0) with true.
  cbn [negb]. change (8 * 4) with 32.
  assert (C : k = 0 \/ k = 1 \/ k = 2 \/ k = 3 \/ k = 4 \/ k = 5 \/ k = 6 \/ k = 7)
    by lia.
  clearbody k v. clear - B1 B2 C.
  repeat (rewrite Z.shiftr_div_pow2 by lia).
  change (2 ^ 32) with 4294967296. change (2 ^ 16) with 65536.
  destruct C as [->|[->|[->|[->|[->|[->|[->| ->]]]]]]];
    cbn in B1, B2;
    destruct (Z.eqb_spec (v / 4294967296) 0) as [E1|E1];
    try (exfalso; Z.div_mod_to_equations; lia);
    repeat (rewrite Z.shiftr_div_pow2 by lia);
    change (2 ^ 8) with 256; change (2 ^ 16) with 65536;
    change (2 ^ 24) with 16777216.
  all: match goal with
       | |- context [?a / 65536 =? 0] =>
           destruct (Z.eqb_spec (a / 65536) 0) as [E2|E2];
             try (exfalso; Z.div_mod_to_equations; lia)
       end.
  all: match goal with
       | |- context [?a =? 0] =>
           destruct (Z.eqb_spec a 0) as [E3|E3];
             try (exfalso; Z.div_mod_to_equations; lia)
       end.
  all: reflexivity.
Qed.

(** All four variants of [LZ4_NbCommonBytes] count the zero bytes at the
    start of the word in memory. *)
Lemma NbCommonBytes_word little_endian sw_bitcount bs :
  length bs = 8%nat ->
  native_value little_endian bs <> 0 ->
  LZ4_NbCommonBytes little_endian sw_bitcount (native_value little_endian bs)
  = Z.of_nat (zero_prefix bs).
Proof.
  intros L H. destruct little_endian; cbn [native_value] in *.
  - unfold LZ4_NbCommonBytes. change (LZ4_isLittleEndian true =? 0) with false.
    cbn [negb]. destruct sw_bitcount; [|apply ctz_zero_prefix; exact H].
    assert (R : 0 < le_value bs < 2 ^ 64).
    { pose proof (le_value_nonneg bs). pose proof (le_value_bound bs) as B.
      unfold len in B. rewrite L in B. change (256 ^ Z.of_nat 8) with (2 ^ 64) in B.
      lia. }
    rewrite land_opp_U64 by exact R.
    rewrite DeBruijnBytePos_spec by (apply builtin_ctzll_bound; exact R).
    apply ctz_zero_prefix. exact H.
  - destruct sw_bitcount; [apply be_software_zero_prefix; assumption|].
    unfold LZ4_NbCommonBytes. change (LZ4_isLittleEndian false =? 0) with true.
    cbn [negb]. apply clz_zero_prefix; assumption.
Qed.

(** X1. [LZ4_NbCommonBytes], on a 64-bit word read from memory that is not
    zero, gives the number of zero bytes at the start of the word in memory:
    on a little-endian and on a big-endian CPU, with the hardware bit count
    and with the software one. *)
Theorem LZ4_NbCommonBytes_zero_prefix little_endian sw_bitcount bs :
  length bs = 8%nat ->
  native_value little_endian bs <> 0 ->
  LZ4_NbCommonBytes little_endian sw_bitcount (native_value little_endian bs)
  = Z.of_nat (zero_prefix bs).
Proof. apply NbCommonBytes_word. Qed.

Lemma LZ4_NbCommonBytes_zero_prefix_witness :
  LZ4_NbCommonBytes false true
    (native_value false [x00; x00; x00; x2a; x00; x01; x00; x00])
  = Z.of_nat (zero_prefix [x00; x00; x00; x2a; x00; x01; x00; x00]).
Proof.
  apply (LZ4_NbCommonBytes_zero_prefix false true
           [x00; x00; x00; x2a; x00; x01; x00; x00]).
  - reflexivity.
  - vm_compute. discriminate.
Defined.

Lemma byte_val_byte_of z : byte_val (byte_of z) = z mod 256.
Proof.
  unfold byte_val, byte_of.
  assert (R : 0 <= z mod 256 < 256) by (apply Z.mod_pos_bound; lia).
  destruct (Byte.of_N (Z.to_N (z mod 256))) as [b|] eqn:E.
  - apply Byte.to_of_N in E. rewrite E. lia.
  - apply Byte.of_N_None_iff in E. lia.
Qed.

Lemma le_value_le_bytes n : forall v,
  le_value (le_bytes n v) = v mod 256 ^ Z.of_nat n.
Proof.
  induction n as [|n IH]; intros v.
  - cbn [le_bytes le_value]. change (256 ^ Z.of_nat 0) with 1.
    rewrite Z.mod_1_r. reflexivity.
  - cbn [le_bytes le_value]. rewrite byte_val_byte_of, IH.
    rewrite Nat2Z.inj_succ, Z.pow_succ_r by lia.
    rewrite Z.rem_mul_r by (try apply Z.pow_nonzero; lia). reflexivity.
Qed.

Lemma le_bytes_length n : forall v, length (le_bytes n v) = n.
Proof. induction n; intros v; cbn [le_bytes length]; auto. Qed.

Lemma native_value_bytes le n v :
  native_value le (native_bytes le n v) = v mod 256 ^ Z.of_nat n.
Proof.
  destruct le; cbn [native_value native_bytes];
    rewrite ?rev_involutive; apply le_value_le_bytes.
Qed.

(** X2. The software bit count of [LZ4_NbCommonBytes] (the De Bruijn table on
    a little-endian CPU, the three tests on a big-endian one) gives what the
    hardware bit count gives, for every 64-bit value that is not zero. *)
Theorem LZ4_NbCommonBytes_software little_endian val :
  0 < val < 2 ^ 64 ->
  LZ4_NbCommonBytes little_endian true val
  = LZ4_NbCommonBytes little_endian false val.
Proof.
  intros R.
  assert (E : native_value little_endian (native_bytes little_endian 8 val) = val).
  { rewrite native_value_bytes. change (256 ^ Z.of_nat 8) with (2 ^ 64).
    apply Z.mod_small. lia. }
  assert (L : length (native_bytes little_endian 8 val) = 8%nat).
  { destruct little_endian; cbn [native_bytes]; rewrite ?length_rev;
      apply le_bytes_length. }
  rewrite <- E.
  rewrite !(NbCommonBytes_word little_endian _ _ L) by (rewrite E; lia).
  reflexivity.
Qed.

Lemma LZ4_NbCommonBytes_software_witness :
  LZ4_NbCommonBytes true true 0x0000450000000000
  = LZ4_NbCommonBytes true false 0x0000450000000000.
Proof.
  apply (LZ4_NbCommonBytes_software true 0x0000450000000000).
  vm_compute. split; reflexivity.
Defined.

(** ** Bytes and runs of bytes *)

Lemma byte_val_inj x y : byte_val x = byte_val y -> x = y.
Proof.
  unfold byte_val. intros H. apply N2Z.inj in H.
  assert (E : Byte.of_N (Byte.to_N x) = Byte.of_N (Byte.to_N y))
    by (rewrite H; reflexivity).
  rewrite !Byte.of_to_N in E. congruence.
Qed.

Lemma byte_val_of z : 0 <= z < 256 -> byte_val (byte_of z) = z.
Proof.
  intros H. unfold byte_val, byte_of. rewrite Z.mod_small by exact H.
  destruct (Byte.of_N (Z.to_N z)) as [b|] eqn:E.
  - apply Byte.to_of_N in E. rewrite E. lia.
  - apply Byte.of_N_None_iff in E. lia.
Qed.

Lemma slice_spec l o n bs :
  slice l o n = Some bs <->
  0 <= o /\ 0 <= n /\ o + n <= len l
  /\ bs = firstn (Z.to_nat n) (skipn (Z.to_nat o) l).
Proof.
  unfold slice. destruct ((0 <=? o) && (0 <=? n) && (o + n <=? len l)) eqn:E.
  - rewrite !andb_true_iff, !Z.leb_le in E. split.
    + intros [= <-]. tauto.
    + intros (_ & _ & _ & ->). reflexivity.
  - split; [discriminate|]. intros (a & b & c & _).
    rewrite !andb_false_iff, !Z.leb_gt in E. lia.
Qed.

Lemma slice_split l o n bs k :
  slice l o n = Some bs -> 0 <= k <= n ->
  slice l o k = Some (firstn (Z.to_nat k) bs)
  /\ slice l (o + k) (n - k) = Some (skipn (Z.to_nat k) bs).
Proof.
  intros H K. apply slice_spec in H. destruct H as (Ho & Hn & Hl & ->). split.
  - apply slice_spec. repeat split; try lia.
    rewrite firstn_firstn. f_equal. lia.
  - apply slice_spec. repeat split; try lia.
    rewrite skipn_firstn_comm, skipn_skipn. f_equal; [lia|]. f_equal. lia.
Qed.

Lemma load_split m p n bs k :
  load m p n = Some bs -> 0 <= k <= n ->
  load m p k = Some (firstn (Z.to_nat k) bs)
  /\ load m (padd p k) (n - k) = Some (skipn (Z.to_nat k) bs).
Proof.
  destruct p as [b o]. unfold load, padd. simpl. destruct b; try discriminate;
    apply slice_split.
Qed.

Lemma padd_padd p a b : padd (padd p a) b = padd p (a + b).
Proof. destruct p. unfold padd. simpl. f_equal. lia. Qed.

Lemma padd_0 p : padd p 0 = p.
Proof. destruct p. unfold padd. simpl. f_equal. lia. Qed.

(** ** Words and their bytes *)

Lemma le_value_inj a : forall b,
  length a = length b -> le_value a = le_value b -> a = b.
Proof.
  induction a as [|x a IH]; intros [|y b] L H; try discriminate; [reflexivity|].
  cbn [le_value] in H. cbn [Datatypes.length] in L.
  pose proof (byte_val_range x). pose proof (byte_val_range y).
  assert (byte_val x = byte_val y /\ le_value a = le_value b) as [E1 E2] by lia.
  f_equal; [apply byte_val_inj; exact E1|apply IH; [lia|exact E2]].
Qed.

Lemma native_value_inj le a b :
  length a = length b -> native_value le a = native_value le b -> a = b.
Proof.
  destruct le; cbn [native_value]; intros L H.
  - apply le_value_inj; assumption.
  - apply le_value_inj in H; [|rewrite !length_rev; exact L].
    rewrite <- (rev_involutive a), <- (rev_involutive b), H. reflexivity.
Qed.

Lemma testbit_byte_add x v n :
  0 <= x < 256 -> 0 <= n ->
  Z.testbit (x + 256 * v) n
  = if n <? 8 then Z.testbit x n else Z.testbit v (n - 8).
Proof.
  intros X N. destruct (Z.ltb_spec n 8) as [L|L].
  - rewrite <- (Z.mod_pow2_bits_low (x + 256 * v) 8 n) by lia.
    change (2 ^ 8) with 256. rewrite (Z.mul_comm 256), Z.mod_add by lia.
    rewrite Z.mod_small by exact X. reflexivity.
  - replace n with (n - 8 + 8) at 1 by lia.
    rewrite <- Z.div_pow2_bits by lia. change (2 ^ 8) with 256.
    rewrite (Z.mul_comm 256), Z.div_add by lia.
    rewrite Z.div_small by exact X. reflexivity.
Qed.

Lemma lxor_byte_range x y : 0 <= x < 256 -> 0 <= y < 256 -> 0 <= Z.lxor x y < 256.
Proof.
  intros X Y. assert (N : 0 <= Z.lxor x y) by (apply Z.lxor_nonneg; lia).
  split; [exact N|]. destruct (Z.eq_dec (Z.lxor x y) 0) as [E|E]; [lia|].
  change 256 with (2 ^ 8). apply Z.log2_lt_pow2; [lia|].
  pose proof (Z.log2_lxor x y ltac:(lia) ltac:(lia)) as L.
  assert (Z.log2 x < 8).
  { destruct (Z.eq_dec x 0) as [->|]; [cbn; lia|]. apply Z.log2_lt_pow2; lia. }
  assert (Z.log2 y < 8).
  { destruct (Z.eq_dec y 0) as [->|]; [cbn; lia|]. apply Z.log2_lt_pow2; lia. }
  lia.
Qed.

Lemma lxor_byte_add x y a b :
  0 <= x < 256 -> 0 <= y < 256 ->
  Z.lxor (x + 256 * a) (y + 256 * b) = Z.lxor x y + 256 * Z.lxor a b.
Proof.
  intros X Y. pose proof (lxor_byte_range x y X Y) as R.
  apply Z.bits_inj'. intros n N.
  rewrite Z.lxor_spec, !testbit_byte_add by assumption.
  destruct (n <? 8); rewrite Z.lxor_spec; reflexivity.
Qed.

Lemma le_value_xor a : forall b,
  length a = length b ->
  le_value (xor_bytes a b) = Z.lxor (le_value a) (le_value b).
Proof.
  induction a as [|x a IH]; intros [|y b] L; try discriminate; [reflexivity|].
  cbn [le_value xor_bytes]. cbn [Datatypes.length] in L.
  pose proof (byte_val_range x) as X. pose proof (byte_val_range y) as Y.
  rewrite lxor_byte_add, byte_val_of, IH by (auto using lxor_byte_range; lia).
  reflexivity.
Qed.

Lemma xor_bytes_app a1 : forall b1 a2 b2,
  length a1 = length b1 ->
  xor_bytes (a1 ++ a2) (b1 ++ b2) = xor_bytes a1 b1 ++ xor_bytes a2 b2.
Proof.
  induction a1 as [|x a1 IH]; intros [|y b1] a2 b2 L; try discriminate;
    [reflexivity|].
  cbn [app xor_bytes]. f_equal. apply IH. cbn [Datatypes.length] in L. lia.
Qed.

Lemma xor_bytes_length a : forall b,
  length a = length b -> length (xor_bytes a b) = length a.
Proof.
  induction a as [|x a IH]; intros [|y b] L; try discriminate; [reflexivity|].
  cbn [xor_bytes Datatypes.length]. f_equal. apply IH.
  cbn [Datatypes.length] in L. lia.
Qed.

Lemma xor_bytes_rev a : forall b,
  length a = length b -> rev (xor_bytes a b) = xor_bytes (rev a) (rev b).
Proof.
  induction a as [|x a IH]; intros [|y b] L; try discriminate; [reflexivity|].
  cbn [Datatypes.length] in L. cbn [xor_bytes rev].
  rewrite xor_bytes_app by (rewrite !length_rev; lia).
  rewrite IH by lia. reflexivity.
Qed.

Lemma native_value_xor le a b :
  length a = length b ->
  Z.lxor (native_value le a) (native_value le b) = native_value le (xor_bytes a b).
Proof.
  intros L. destruct le; cbn [native_value].
  - symmetry. apply le_value_xor. exact L.
  - rewrite xor_bytes_rev by exact L. symmetry. apply le_value_xor.
    rewrite !length_rev. exact L.
Qed.

Lemma zero_prefix_xor a : forall b,
  zero_prefix (xor_bytes a b) = common_prefix a b.
Proof.
  induction a as [|x a IH]; intros [|y b]; try reflexivity.
  cbn [xor_bytes zero_prefix common_prefix].
  pose proof (byte_val_range x) as X. pose proof (byte_val_range y) as Y.
  rewrite byte_val_of by (apply lxor_byte_range; assumption).
  destruct (Z.eqb_spec (byte_val x) (byte_val y)) as [E|E].
  - rewrite E, Z.lxor_nilpotent. cbn. f_equal. apply IH.
  - destruct (Z.eqb_spec (Z.lxor (byte_val x) (byte_val y)) 0) as [F|F];
      [|reflexivity].
    apply (proj1 (Z.lxor_eq_0_iff _ _)) in F. congruence.
Qed.

(** ** Common prefixes *)

Lemma common_prefix_le a : forall b,
  (common_prefix a b <= length a)%nat /\ (common_prefix a b <= length b)%nat.
Proof.
  induction a as [|x a IH]; intros [|y b]; cbn [common_prefix Datatypes.length];
    try lia.
  destruct (byte_val x =? byte_val y); [|lia]. specialize (IH b). lia.
Qed.

Lemma common_prefix_firstn s : forall a b,
  (s <= length a)%nat -> (s <= length b)%nat ->
  (firstn s a = firstn s b <-> (s <= common_prefix a b)%nat).
Proof.
  induction s as [|s IH]; intros a b La Lb.
  - cbn. split; [lia|reflexivity].
  - destruct a as [|x a], b as [|y b]; cbn [Datatypes.length] in La, Lb; try lia.
    cbn [firstn common_prefix].
    destruct (Z.eqb_spec (byte_val x) (byte_val y)) as [E|E].
    + apply byte_val_inj in E. subst y. specialize (IH a b ltac:(lia) ltac:(lia)).
      split.
      * intros [= H]. apply IH in H. lia.
      * intros H. f_equal. apply IH. lia.
    + split; [|lia]. intros [= H _]. subst. contradiction.
Qed.

Lemma common_prefix_skipn s : forall a b,
  (s <= common_prefix a b)%nat ->
  common_prefix (skipn s a) (skipn s b) = (common_prefix a b - s)%nat.
Proof.
  induction s as [|s IH]; intros a b H.
  - cbn [skipn]. lia.
  - destruct a as [|x a], b as [|y b]; cbn [common_prefix] in *; try lia.
    destruct (byte_val x =? byte_val y); [|lia].
    cbn [skipn]. rewrite IH by lia. lia.
Qed.

Lemma common_prefix_firstn_lt s : forall a b,
  (common_prefix a b < s)%nat ->
  common_prefix (firstn s a) (firstn s b) = common_prefix a b.
Proof.
  induction s as [|s IH]; intros a b H; [lia|].
  destruct a as [|x a], b as [|y b]; cbn [common_prefix firstn] in *;
    try reflexivity.
  destruct (byte_val x =? byte_val y); [|reflexivity].
  f_equal. apply IH. lia.
Qed.

(** ** LZ4_count *)

(** Two words read at [p] and [q] are equal when the next [s] bytes are
    common to the runs there. *)
Lemma words_compare le m p q r A B s :
  load m p r = Some A -> load m q r = Some B -> 0 <= s <= r ->
  load m p s = Some (firstn (Z.to_nat s) A)
  /\ load m q s = Some (firstn (Z.to_nat s) B)
  /\ (native_value le (firstn (Z.to_nat s) B)
      = native_value le (firstn (Z.to_nat s) A)
      <-> s <= Z.of_nat (common_prefix A B)).
Proof.
  intros HA HB S. pose proof (load_len _ _ _ _ HA) as LA.
  pose proof (load_len _ _ _ _ HB) as LB. unfold len in *.
  destruct (load_split _ _ _ _ s HA S) as [HA1 _].
  destruct (load_split _ _ _ _ s HB S) as [HB1 _].
  split; [exact HA1|]. split; [exact HB1|].
  pose proof (common_prefix_firstn (Z.to_nat s) A B ltac:(lia) ltac:(lia)) as C.
  split.
  - intros E. apply native_value_inj in E.
    + symmetry in E. apply C in E. lia.
    + rewrite !length_firstn. lia.
  - intros E. assert (F : firstn (Z.to_nat s) A = firstn (Z.to_nat s) B)
      by (apply C; lia).
    rewrite F. reflexivity.
Qed.

Lemma word_diff le sw A B :
  (8 <= length A)%nat -> (8 <= length B)%nat ->
  (common_prefix A B < 8)%nat ->
  LZ4_NbCommonBytes le sw
    (Z.lxor (native_value le (firstn 8 B)) (native_value le (firstn 8 A)))
  = Z.of_nat (common_prefix A B).
Proof.
  intros LA LB C.
  assert (L : length (firstn 8 B) = length (firstn 8 A))
    by (rewrite !length_firstn; lia).
  rewrite native_value_xor by exact L.
  assert (Z : zero_prefix (xor_bytes (firstn 8 B) (firstn 8 A)) = common_prefix A B).
  { rewrite zero_prefix_xor. rewrite <- (common_prefix_firstn_lt 8 A B C).
    clear. generalize (firstn 8 A) (firstn 8 B). intros a.
    induction a as [|x a IH]; intros [|y b]; cbn [common_prefix]; try reflexivity.
    rewrite (Z.eqb_sym (byte_val y)). destruct (byte_val x =? byte_val y);
      [f_equal; apply IH|reflexivity]. }
  rewrite <- Z. apply NbCommonBytes_word.
  - rewrite xor_bytes_length by exact L. rewrite length_firstn. lia.
  - rewrite <- native_value_xor by exact L. intros E.
    apply (proj1 (Z.lxor_eq_0_iff _ _)) in E. apply native_value_inj in E; [|exact L].
    symmetry in E.
    apply (common_prefix_firstn 8 A B LA LB) in E. lia.
Qed.

Lemma LZ4_read_ARCH_val le m p bs :
  load m p 8 = Some bs -> LZ4_read_ARCH le m p = Val (native_value le bs).
Proof. intros H. unfold LZ4_read_ARCH. rewrite H. reflexivity. Qed.

Lemma LZ4_read32_val le m p bs :
  load m p 4 = Some bs -> LZ4_read32 le m p = Val (native_value le bs).
Proof. intros H. unfold LZ4_read32. rewrite H. reflexivity. Qed.

Lemma LZ4_read16_val le m p bs :
  load m p 2 = Some bs -> LZ4_read16 le m p = Val (native_value le bs).
Proof. intros H. unfold LZ4_read16. rewrite H. reflexivity. Qed.

Lemma read8_val m p bs :
  load m p 1 = Some bs -> read8 m p = Val (native_value true bs).
Proof.
  intros H. unfold read8. rewrite H. cbn [lift bind]. f_equal.
  apply load_len in H. unfold len in H.
  destruct bs as [|b [|c bs]]; cbn [Datatypes.length] in H; try lia.
  cbn [hd native_value le_value]. lia.
Qed.

(** The loop of [LZ4_count] either finds the first byte that differs or
    stops less than a word before the limit, all bytes passed being
    common. *)
Lemma LZ4_count_loop_spec le sw m pInLimit pStart fuel : forall pIn pMatch A B,
  load m pIn (pInLimit - off pIn) = Some A ->
  load m pMatch (pInLimit - off pIn) = Some B ->
  pInLimit - off pIn <= Z.of_nat fuel ->
  0 <= off pIn - pStart -> pInLimit - pStart < 2 ^ 32 ->
  LZ4_count_loop fuel le sw m pIn pMatch pInLimit pStart
  = Val (inl (off pIn - pStart + Z.of_nat (common_prefix A B)))
  \/ exists j, 0 <= j <= Z.of_nat (common_prefix A B)
       /\ pInLimit - off pIn - j < 8
       /\ LZ4_count_loop fuel le sw m pIn pMatch pInLimit pStart
          = Val (inr (padd pIn j, padd pMatch j)).
Proof.
  induction fuel as [|fuel IH]; intros pIn pMatch A B HA HB F S0 S1;
    cbn [LZ4_count_loop]; unfold STEPSIZE;
    (destruct (Z.ltb_spec (off pIn) (pInLimit - (8 - 1))) as [C|C];
     [|right; exists 0; rewrite !padd_0; repeat split;
        try lia; reflexivity]).
  - exfalso. lia.
  - destruct (words_compare le m pIn pMatch _ A B 8 HA HB ltac:(lia))
      as (RA & RB & EQ).
    pose proof (load_len _ _ _ _ HA) as LA. pose proof (load_len _ _ _ _ HB) as LB.
    unfold len in LA, LB. pose proof (common_prefix_le A B) as [CA CB].
    rewrite (LZ4_read_ARCH_val _ _ _ _ RB), (LZ4_read_ARCH_val _ _ _ _ RA).
    cbn [bind]. change (Z.to_nat 8) with 8%nat in *.
    destruct (Z.eqb_spec (Z.lxor (native_value le (firstn 8 B))
                                 (native_value le (firstn 8 A))) 0) as [D|D].
    + apply (proj1 (Z.lxor_eq_0_iff _ _)) in D. apply EQ in D.
      destruct (load_split _ _ _ _ 8 HA ltac:(lia)) as [_ HA'].
      destruct (load_split _ _ _ _ 8 HB ltac:(lia)) as [_ HB'].
      change (Z.to_nat 8) with 8%nat in *.
      assert (O : off (padd pIn 8) = off pIn + 8) by reflexivity.
      replace (pInLimit - off pIn - 8) with (pInLimit - off (padd pIn 8)) in HA', HB'
        by (rewrite O; lia).
      specialize (IH (padd pIn 8) (padd pMatch 8) _ _ HA' HB').
      rewrite O in IH. rewrite common_prefix_skipn in IH by lia.
      destruct IH as [R|(j & J1 & J2 & R)]; try lia.
      * left. rewrite R. do 2 f_equal. lia.
      * right. exists (8 + j). rewrite R, !padd_padd. repeat split; lia.
    + left. assert (K : (common_prefix A B < 8)%nat).
      { destruct (Nat.lt_ge_cases (common_prefix A B) 8) as [K|K]; [exact K|].
        exfalso. apply D. apply Z.lxor_eq_0_iff. apply EQ. lia. }
      rewrite (word_diff le sw A B) by lia. do 2 f_equal.
      unfold padd. simpl. unfold to_unsigned. rewrite Z.mod_small by lia. lia.
Qed.

Lemma LZ4_count_loop_first le sw m pInLimit pStart fuel pIn pMatch A B :
  load m pIn (pInLimit - off pIn) = Some A ->
  load m pMatch (pInLimit - off pIn) = Some B ->
  pInLimit - off pIn <= Z.of_nat fuel ->
  0 <= off pIn - pStart -> pInLimit - pStart < 2 ^ 32 ->
  exists r,
    LZ4_count_loop fuel le sw m pIn pMatch pInLimit pStart = Val r
    /\ match r with
       | inl n => n = off pIn - pStart + Z.of_nat (common_prefix A B)
       | inr (pIn', pMatch') =>
           exists j, 0 <= j <= Z.of_nat (common_prefix A B)
             /\ pInLimit - off pIn - j < 8
             /\ pIn' = padd pIn j /\ pMatch' = padd pMatch j
       end.
Proof.
  intros HA HB F S0 S1.
  destruct (LZ4_count_loop_spec le sw m pInLimit pStart fuel pIn pMatch A B
              HA HB F S0 S1) as [R|(j & J1 & J2 & R)]; rewrite R.
  - eexists. split; reflexivity.
  - eexists. split; [reflexivity|]. exists j. auto.
Qed.

(** One step of the tail of [LZ4_count]: [s] more bytes are taken when they
    are there and common. *)
Lemma tail_step le m pIn pMatch r A B s
    (rd : memory -> ptr -> ctl Z) :
  (forall p bs, load m p s = Some bs ->
     rd m p = Val (native_value le bs)) ->
  load m pIn r = Some A -> load m pMatch r = Some B ->
  0 < s -> Z.of_nat (common_prefix A B) < 2 * s ->
  exists d A' B',
    (if s <=? r then
       a <- rd m pMatch ;;
       b <- rd m pIn ;;
       if a =? b then Val (padd pIn s, padd pMatch s) else Val (pIn, pMatch)
     else Val (pIn, pMatch)) = Val (padd pIn d, padd pMatch d)
    /\ 0 <= d
    /\ load m (padd pIn d) (r - d) = Some A'
    /\ load m (padd pMatch d) (r - d) = Some B'
    /\ Z.of_nat (common_prefix A B) = d + Z.of_nat (common_prefix A' B')
    /\ Z.of_nat (common_prefix A' B') < s.
Proof.
  intros RD HA HB S C.
  pose proof (load_len _ _ _ _ HA) as LA. pose proof (load_len _ _ _ _ HB) as LB.
  unfold len in LA, LB. pose proof (common_prefix_le A B) as [CA CB].
  destruct (Z.leb_spec s r) as [L|L].
  - destruct (words_compare le m pIn pMatch _ A B s HA HB ltac:(lia))
      as (RA & RB & EQ).
    rewrite (RD _ _ RB), (RD _ _ RA). cbn [bind].
    destruct (Z.eqb_spec (native_value le (firstn (Z.to_nat s) B))
                         (native_value le (firstn (Z.to_nat s) A))) as [D|D].
    + apply EQ in D.
      destruct (load_split _ _ _ _ s HA ltac:(lia)) as [_ HA'].
      destruct (load_split _ _ _ _ s HB ltac:(lia)) as [_ HB'].
      exists s, (skipn (Z.to_nat s) A), (skipn (Z.to_nat s) B).
      rewrite common_prefix_skipn by lia. repeat split; auto; lia.
    + exists 0, A, B. rewrite !padd_0, Z.sub_0_r. repeat split; auto; lia.
  - exists 0, A, B. rewrite !padd_0, Z.sub_0_r. repeat split; auto; lia.
Qed.

Lemma tail_step_fst le m pIn pMatch r A B s
    (rd : memory -> ptr -> ctl Z) :
  (forall p bs, load m p s = Some bs ->
     rd m p = Val (native_value le bs)) ->
  load m pIn r = Some A -> load m pMatch r = Some B ->
  0 < s -> Z.of_nat (common_prefix A B) < 2 * s ->
  exists d,
    (if s <=? r then
       a <- rd m pMatch ;;
       b <- rd m pIn ;;
       if a =? b then Val (padd pIn s) else Val pIn
     else Val pIn) = Val (padd pIn d)
    /\ 0 <= d
    /\ Z.of_nat (common_prefix A B) < d + s
    /\ d <= Z.of_nat (common_prefix A B).
Proof.
  intros RD HA HB S C.
  destruct (tail_step le m pIn pMatch r A B s rd RD HA HB S C)
    as (d & A' & B' & E & D0 & _ & _ & D1 & D2).
  exists d. repeat split; try lia.
  destruct (s <=? r); [|congruence].
  destruct (rd m pMatch) as [a|]; [|discriminate]. cbn [bind] in *.
  destruct (rd m pIn) as [b|]; [|discriminate]. cbn [bind] in *.
  destruct (a =? b); congruence.
Qed.

(** The first test of [LZ4_count]: one word at the start. *)
Lemma LZ4_count_first le sw m pIn pMatch pInLimit A B :
  load m pIn (pInLimit - off pIn) = Some A ->
  load m pMatch (pInLimit - off pIn) = Some B ->
  exists r,
    (if off pIn <? pInLimit - (STEPSIZE - 1) then
       a <- LZ4_read_ARCH le m pMatch ;;
       b <- LZ4_read_ARCH le m pIn ;;
       let diff := Z.lxor a b in
       if diff =? 0 then Val (inr (padd pIn STEPSIZE, padd pMatch STEPSIZE))
       else Val (inl (LZ4_NbCommonBytes le sw diff))
     else Val (inr (pIn, pMatch))) = Val r
    /\ match r with
       | inl n => n = Z.of_nat (common_prefix A B)
       | inr (pIn', pMatch') =>
           exists j, 0 <= j <= Z.of_nat (common_prefix A B)
             /\ pIn' = padd pIn j /\ pMatch' = padd pMatch j
       end.
Proof.
  intros HA HB. unfold STEPSIZE.
  destruct (Z.ltb_spec (off pIn) (pInLimit - (8 - 1))) as [C|C].
  - destruct (words_compare le m pIn pMatch _ A B 8 HA HB ltac:(lia))
      as (RA & RB & EQ).
    pose proof (load_len _ _ _ _ HA) as LA. pose proof (load_len _ _ _ _ HB) as LB.
    unfold len in LA, LB.
    rewrite (LZ4_read_ARCH_val _ _ _ _ RB), (LZ4_read_ARCH_val _ _ _ _ RA).
    cbn [bind]. change (Z.to_nat 8) with 8%nat in *. cbv zeta.
    destruct (Z.eqb_spec (Z.lxor (native_value le (firstn 8 B))
                                 (native_value le (firstn 8 A))) 0) as [D|D].
    + apply (proj1 (Z.lxor_eq_0_iff _ _)) in D. apply EQ in D.
      eexists. split; [reflexivity|]. exists 8. repeat split; lia.
    + eexists. split; [reflexivity|]. cbv beta iota. apply word_diff; try lia.
      destruct (Nat.lt_ge_cases (common_prefix A B) 8) as [K|K]; [exact K|].
      exfalso. apply D. apply Z.lxor_eq_0_iff. apply EQ. lia.
  - eexists. split; [reflexivity|]. exists 0. rewrite !padd_0.
    repeat split; lia.
Qed.

Lemma load_at m p n bs j :
  load m p n = Some bs -> 0 <= j <= n ->
  load m (padd p j) (n - j) = Some (skipn (Z.to_nat j) bs).
Proof. intros H J. apply (load_split m p n bs j H J). Qed.

(** [LZ4_count] gives the number of bytes that the runs at [pIn] and at
    [pMatch] have in common, up to [pInLimit]. *)
Lemma LZ4_count_spec le sw m pIn pMatch pInLimit A B :
  load m pIn (pInLimit - off pIn) = Some A ->
  load m pMatch (pInLimit - off pIn) = Some B ->
  pInLimit - off pIn < 2 ^ 32 ->
  LZ4_count le sw m pIn pMatch pInLimit = Val (Z.of_nat (common_prefix A B)).
Proof.
  intros HA HB S. unfold LZ4_count. cbv zeta.
  pose proof (load_len _ _ _ _ HA) as LA. unfold len in LA.
  pose proof (common_prefix_le A B) as [CA CB].
  destruct (LZ4_count_first le sw m pIn pMatch pInLimit A B HA HB)
    as (r & E & R). cbv zeta in E. rewrite E. clear E. cbn [bind].
  destruct r as [n|[pIn1 pMatch1]]; [rewrite R; reflexivity|].
  destruct R as (j0 & J0 & -> & ->).
  pose proof (load_at _ _ _ _ j0 HA ltac:(lia)) as HA0.
  pose proof (load_at _ _ _ _ j0 HB ltac:(lia)) as HB0.
  assert (O0 : off (padd pIn j0) = off pIn + j0) by reflexivity.
  replace (pInLimit - off pIn - j0) with (pInLimit - off (padd pIn j0)) in HA0, HB0
    by (rewrite O0; lia).
  pose proof (common_prefix_skipn (Z.to_nat j0) A B ltac:(lia)) as C0.
  destruct (LZ4_count_loop_first le sw m pInLimit (off pIn)
              (Z.to_nat (pInLimit - off (padd pIn j0)))
              (padd pIn j0) (padd pMatch j0) _ _ HA0 HB0
              ltac:(lia) ltac:(rewrite O0; lia) ltac:(lia))
    as (r & -> & R). cbn [bind].
  destruct r as [n|[pIn2 pMatch2]]; [rewrite R, O0; f_equal; lia|].
  destruct R as (j1 & J1 & J1' & -> & ->). rewrite !padd_padd.
  rewrite O0 in *. set (j := j0 + j1) in *.
  pose proof (load_at _ _ _ _ j HA ltac:(lia)) as HA1.
  pose proof (load_at _ _ _ _ j HB ltac:(lia)) as HB1.
  pose proof (common_prefix_skipn (Z.to_nat j) A B ltac:(lia)) as C1.
  set (A1 := skipn (Z.to_nat j) A) in *. set (B1 := skipn (Z.to_nat j) B) in *.
  pose proof (common_prefix_le A1 B1) as [CA1 _].
  pose proof (load_len _ _ _ _ HA1) as LA1. unfold len in LA1.
  assert (O1 : off (padd pIn j) = off pIn + j) by reflexivity.
  (* four bytes *)
  change (STEPSIZE =? 8) with true. cbn [andb]. rewrite O1.
  replace (off pIn + j <? pInLimit - 3) with (4 <=? pInLimit - off pIn - j)
    by (destruct (Z.leb_spec 4 (pInLimit - off pIn - j)),
                 (Z.ltb_spec (off pIn + j) (pInLimit - 3)); lia).
  destruct (tail_step le m _ _ _ A1 B1 4 (LZ4_read32 le)
              (LZ4_read32_val le m) HA1 HB1 ltac:(lia) ltac:(lia))
    as (d4 & A4 & B4 & E & D4 & HA4 & HB4 & C4 & C4').
  rewrite !padd_padd in *. rewrite E. clear E. cbn [bind].
  assert (O4 : off (padd pIn (j + d4)) = off pIn + (j + d4)) by reflexivity.
  rewrite O4.
  (* two bytes *)
  replace (off pIn + (j + d4) <? pInLimit - 1)
    with (2 <=? pInLimit - off pIn - j - d4)
    by (destruct (Z.leb_spec 2 (pInLimit - off pIn - j - d4)),
                 (Z.ltb_spec (off pIn + (j + d4)) (pInLimit - 1)); lia).
  destruct (tail_step le m _ _ _ A4 B4 2 (LZ4_read16 le)
              (LZ4_read16_val le m) HA4 HB4 ltac:(lia) ltac:(lia))
    as (d2 & A2 & B2 & E & D2 & HA2 & HB2 & C2 & C2').
  rewrite !padd_padd in *. rewrite E. clear E. cbn [bind].
  assert (O2 : off (padd pIn (j + d4 + d2)) = off pIn + (j + d4 + d2))
    by reflexivity.
  rewrite O2.
  (* one byte *)
  replace (off pIn + (j + d4 + d2) <? pInLimit)
    with (1 <=? pInLimit - off pIn - j - d4 - d2)
    by (destruct (Z.leb_spec 1 (pInLimit - off pIn - j - d4 - d2)),
                 (Z.ltb_spec (off pIn + (j + d4 + d2)) pInLimit); lia).
  destruct (tail_step_fst true m _ _ _ A2 B2 1 read8
              (read8_val m) HA2 HB2 ltac:(lia) ltac:(lia))
    as (d1 & E & D1 & C1a & C1b).
  rewrite !padd_padd in *. rewrite E. clear E. cbn [bind]. f_equal.
  assert (O : off (padd pIn (j + d4 + d2 + d1)) = off pIn + (j + d4 + d2 + d1))
    by reflexivity.
  rewrite O. unfold to_unsigned. rewrite Z.mod_small by lia. lia.
Qed.

(** X3. [LZ4_count] gives the number of bytes that the run at [pIn] up to
    [pInLimit] and the run of the same size at [pMatch] have in common at
    their start, on either kind of CPU and with either bit count; it reads
    no byte outside these runs. *)
Theorem LZ4_count_common_prefix little_endian sw_bitcount m pIn pMatch
    pInLimit A B :
  load m pIn (pInLimit - off pIn) = Some A ->
  load m pMatch (pInLimit - off pIn) = Some B ->
  pInLimit - off pIn < 2 ^ 32 ->
  LZ4_count little_endian sw_bitcount m pIn pMatch pInLimit
  = Val (Z.of_nat (common_prefix A B)).
Proof. apply LZ4_count_spec. Qed.

Lemma LZ4_count_common_prefix_witness :
  LZ4_count false true
    (Mem (map byte_of [1; 2; 3; 4; 5; 6; 7; 8; 9; 10; 11; 12; 13;
                       1; 2; 3; 4; 5; 6; 7; 8; 9; 10; 11; 77; 13])
         [] [])
    (Ptr Src 13) (Ptr Src 0) 26
  = Val (Z.of_nat
           (common_prefix
              (map byte_of [1; 2; 3; 4; 5; 6; 7; 8; 9; 10; 11; 77; 13])
              (map byte_of [1; 2; 3; 4; 5; 6; 7; 8; 9; 10; 11; 12; 13]))).
Proof.
  apply (LZ4_count_common_prefix false true
           (Mem (map byte_of [1; 2; 3; 4; 5; 6; 7; 8; 9; 10; 11; 12; 13;
                              1; 2; 3; 4; 5; 6; 7; 8; 9; 10; 11; 77; 13])
                [] [])
           (Ptr Src 13) (Ptr Src 0) 26).
  - reflexivity.
  - reflexivity.
  - reflexivity.
Defined.

(** * Reading the input *)

Lemma load_join m p a b :
  load m p 1 = Some a -> load m (padd p 1) 1 = Some b ->
  exists bs, load m p 2 = Some bs.
Proof.
  destruct p as [bp xp]. unfold load, padd. cbn [blk off].
  destruct bp; try discriminate; intros A B;
    apply slice_spec in A; apply slice_spec in B;
    match goal with
    | |- exists bs, slice ?l _ _ = _ =>
        destruct (slice_some l xp 2) as (bs & E & _); [lia|lia|lia|]
    end;
    exists bs; exact E.
Qed.

(** X4. [LZ4_readLE16] gives the same on a little-endian and on a big-endian
    CPU: the 16-bit value whose low byte is the first byte in memory; it
    faults on both when the two bytes are not both in their block. *)
Theorem LZ4_readLE16_on_any_cpu little_endian m p :
  LZ4_readLE16_on little_endian m p = LZ4_readLE16 m p.
Proof.
  unfold LZ4_readLE16_on, LZ4_readLE16.
  destruct (load m p 2) as [bs|] eqn:L.
  - pose proof (load_len _ _ _ _ L) as Ln. unfold len in Ln.
    destruct bs as [|a [|b [|c bs]]]; cbn [Datatypes.length] in Ln; try lia.
    cbn [lift bind nth]. rewrite Z.shiftl_mul_pow2 by lia. change (2 ^ 8) with 256.
    destruct little_endian.
    + change (LZ4_isLittleEndian true =? 0) with false. cbn [negb].
      unfold LZ4_read16. rewrite L. cbn [lift bind native_value le_value].
      f_equal. lia.
    + change (LZ4_isLittleEndian false =? 0) with true. cbn [negb].
      destruct (load_split _ _ _ _ 1 L ltac:(lia)) as [L0 L1].
      change (2 - 1) with 1 in L1.
      change (firstn (Z.to_nat 1) [a; b]) with [a] in L0.
      change (skipn (Z.to_nat 1) [a; b]) with [b] in L1.
      unfold read8. rewrite padd_0, L0, L1. cbn [lift bind hd].
      rewrite Z.shiftl_mul_pow2 by lia. change (2 ^ 8) with 256.
      pose proof (byte_val_range a). pose proof (byte_val_range b).
      f_equal. change (2 ^ 16) with 65536.
      rewrite (Z.mod_small (byte_val a)) by lia.
      rewrite Z.mod_small by lia. lia.
  - cbn [lift bind]. destruct little_endian.
    + change (LZ4_isLittleEndian true =? 0) with false. cbn [negb].
      unfold LZ4_read16. rewrite L. reflexivity.
    + change (LZ4_isLittleEndian false =? 0) with true. cbn [negb].
      unfold read8. rewrite padd_0.
      destruct (load m p 1) as [a|] eqn:L0; [|reflexivity].
      destruct (load m (padd p 1) 1) as [b|] eqn:L1; [|reflexivity].
      destruct (load_join _ _ _ _ L0 L1) as (bs & E). congruence.
Qed.

(** * What the copies leave in the output *)

Lemma slice_byte_at l o n bs k :
  slice l o n = Some bs -> 0 <= k < n -> byte_at bs k = byte_at l (o + k).
Proof.
  intros H K. apply slice_spec in H. destruct H as (Ho & Hn & Hl & ->).
  unfold byte_at. rewrite nth_firstn.
  destruct (Nat.ltb_spec (Z.to_nat k) (Z.to_nat n)) as [L|L]; [|lia].
  rewrite nth_skipn. f_equal. lia.
Qed.

Lemma splice_byte_at l o bs l' i :
  splice l o bs = Some l' -> 0 <= i ->
  byte_at l' i
  = if (o <=? i) && (i <? o + len bs) then byte_at bs (i - o) else byte_at l i.
Proof.
  unfold splice. destruct ((0 <=? o) && (o + len bs <=? len l)) eqn:E;
    [|discriminate].
  rewrite andb_true_iff, !Z.leb_le in E. destruct E as [Ho Hl].
  intros [= <-] Hi. unfold byte_at, len in *.
  destruct (Z.leb_spec o i) as [A|A]; cbn [andb].
  - rewrite app_nth2 by (rewrite length_firstn; lia).
    rewrite length_firstn.
    replace (Init.Nat.min (Z.to_nat o) (length l)) with (Z.to_nat o) by lia.
    destruct (Z.ltb_spec i (o + Z.of_nat (length bs))) as [B|B].
    + rewrite app_nth1 by lia. f_equal. lia.
    + rewrite app_nth2 by lia. rewrite nth_skipn. f_equal. lia.
  - rewrite app_nth1 by (rewrite length_firstn; lia).
    rewrite nth_firstn. destruct (Nat.ltb_spec (Z.to_nat i) (Z.to_nat o)); [|lia].
    reflexivity.
Qed.

Lemma splice_bounds l o bs l' :
  splice l o bs = Some l' -> 0 <= o /\ o + len bs <= len l.
Proof.
  unfold splice. destruct ((0 <=? o) && (o + len bs <=? len l)) eqn:E;
    [|discriminate].
  rewrite andb_true_iff, !Z.leb_le in E. auto.
Qed.

Lemma load_contents m p n bs :
  load m p n = Some bs -> slice (contents m (blk p)) (off p) n = Some bs.
Proof. unfold load, contents. destruct (blk p); [discriminate|auto..]. Qed.

Lemma load_byte_at m p n bs k :
  load m p n = Some bs -> 0 <= k < n ->
  byte_at bs k = byte_at (contents m (blk p)) (off p + k).
Proof. intros H. apply slice_byte_at. apply load_contents. exact H. Qed.

Lemma store_splice m p bs m' :
  store m p bs = Some m' ->
  blk p = Dst /\ splice (dst_mem m) (off p) bs = Some (dst_mem m').
Proof.
  unfold store. destruct (blk p); try discriminate.
  destruct (splice (dst_mem m) (off p) bs); [|discriminate].
  intros [= <-]. auto.
Qed.

Lemma contents_shape m m' b :
  same_shape m m' -> b <> Dst -> contents m' b = contents m b.
Proof. intros (A & B & C) H. destruct b; cbn [contents]; congruence. Qed.

Lemma written_weaken f m0 d w m d' w' :
  written f m0 d w m -> d' <= d -> w <= w' -> written f m0 d' w' m.
Proof.
  intros (S & V & U) D W. split; [exact S|]. split; intros i Hi.
  - apply V. lia.
  - apply U. lia.
Qed.

Lemma written_start f m0 op :
  (forall i, 0 <= i < op -> f i = byte_at (dst_mem m0) i) ->
  written f m0 op op m0.
Proof.
  intros F. split; [apply same_shape_refl|]. split; intros i Hi; [|reflexivity].
  symmetry. apply F. exact Hi.
Qed.

(** A store at the end of what is written already. *)
Lemma store_written f m0 d w m p bs :
  written f m0 d w m -> off p = d ->
  (forall k, 0 <= k < len bs -> byte_at bs k = f (d + k)) ->
  may (lift (store m p bs))
      (written f m0 (d + len bs) (Z.max w (d + len bs))).
Proof.
  intros (S & V & U) Hp F. pose proof (lift_store_may m p bs) as M.
  destruct (store m p bs) as [m'|] eqn:E; [|reflexivity].
  cbn [lift may wp] in *. destruct (store_splice _ _ _ _ E) as [_ Sp].
  split; [eapply same_shape_trans; eauto|]. rewrite Hp in Sp.
  pose proof (splice_bounds _ _ _ _ Sp) as [B0 B1]. pose proof (len_nonneg bs).
  split; intros i Hi; rewrite (splice_byte_at _ _ _ _ i Sp) by lia.
  - destruct (Z.leb_spec d i) as [A|A]; cbn [andb].
    + destruct (Z.ltb_spec i (d + len bs)) as [B|B]; [|lia].
      rewrite F by lia. f_equal. lia.
    + apply V. lia.
  - destruct (Z.leb_spec d i) as [A|A]; cbn [andb].
    + destruct (Z.ltb_spec i (d + len bs)) as [B|B]; [lia|]. apply U. lia.
    + lia.
Qed.

(** A store that leaves what is written already alone. *)
Lemma store_beyond f m0 d w m p bs :
  written f m0 d w m -> d <= off p ->
  may (lift (store m p bs)) (written f m0 d (Z.max w (off p + len bs))).
Proof.
  intros (S & V & U) Hp. pose proof (lift_store_may m p bs) as M.
  destruct (store m p bs) as [m'|] eqn:E; [|reflexivity].
  cbn [lift may wp] in *. destruct (store_splice _ _ _ _ E) as [_ Sp].
  split; [eapply same_shape_trans; eauto|].
  pose proof (splice_bounds _ _ _ _ Sp) as [B0 B1]. pose proof (len_nonneg bs).
  split; intros i Hi; rewrite (splice_byte_at _ _ _ _ i Sp) by lia.
  - destruct (Z.leb_spec (off p) i) as [A|A]; cbn [andb]; [lia|]. apply V. lia.
  - destruct (Z.leb_spec (off p) i) as [A|A]; cbn [andb].
    + destruct (Z.ltb_spec i (off p + len bs)) as [B|B]; [lia|]. apply U. lia.
    + apply U. lia.
Qed.

Lemma feeds_shorter f m0 sb delta step lo step' lo' :
  feeds f m0 sb delta step lo -> step' <= step -> lo <= lo' ->
  feeds f m0 sb delta step' lo'.
Proof. intros F S L m d w k W D K. apply (F m d w k W); lia. Qed.

Lemma memcpy_written f m0 d w m p s n step lo :
  feeds f m0 (blk s) (off s - d) step lo ->
  written f m0 d w m -> off p = d -> lo <= d -> n <= step ->
  may (memcpy m p s n) (written f m0 (d + n) (Z.max w (d + n))).
Proof.
  intros F W Hp L N. unfold memcpy.
  destruct (load m s n) as [bs|] eqn:E; [|reflexivity]. cbn [lift bind].
  pose proof (load_len _ _ _ _ E) as Ln. rewrite <- Ln at 1 2.
  apply store_written; [exact W|exact Hp|]. intros k K.
  rewrite (load_byte_at _ _ _ _ k E) by lia.
  rewrite <- (F m d w k W L) by lia. f_equal. lia.
Qed.

(** The literals come from another block than the output. *)
Lemma feeds_literal m0 sb ip op step :
  sb <> Dst ->
  feeds (literal_byte (dst_mem m0) (contents m0 sb) ip op) m0 sb (ip - op)
        step op.
Proof.
  intros N m d w k (S & _) D K. rewrite (contents_shape _ _ _ S N).
  unfold literal_byte. destruct (Z.ltb_spec (d + k) op); [lia|]. f_equal. lia.
Qed.

Lemma match_byte_period d0 offset op j q :
  1 <= offset -> op - offset <= j -> op <= j + q * offset ->
  match_byte d0 offset op (j + q * offset) = match_byte d0 offset op j.
Proof.
  intros O J Q. unfold match_byte.
  destruct (Z.ltb_spec (j + q * offset) op) as [A|A]; [lia|].
  replace (j + q * offset - op) with (j - op + q * offset) by lia.
  rewrite Z.mod_add by lia.
  destruct (Z.ltb_spec j op) as [B|B]; [|reflexivity].
  f_equal. replace (j - op) with (j - op + offset + (- 1) * offset) by lia.
  rewrite Z.mod_add by lia. rewrite Z.mod_small by lia. lia.
Qed.

(** The bytes of a match come from the output, a multiple of the offset
    back. *)
Lemma feeds_match m0 offset op q lo :
  1 <= offset -> 0 <= op - offset -> 1 <= q -> op <= lo ->
  op - offset <= lo - q * offset ->
  feeds (match_byte (dst_mem m0) offset op) m0 Dst (- (q * offset))
        (q * offset) lo.
Proof.
  intros O P Q L B m d w k (S & V & _) D K. cbn [contents].
  rewrite V by nia.
  rewrite <- (match_byte_period (dst_mem m0) offset op (d + - (q * offset) + k) q)
    by lia.
  f_equal. lia.
Qed.

Lemma written_literals m0 sb ip op e e' w m :
  written (literal_byte (dst_mem m0) (contents m0 sb) ip op) m0 e' w m ->
  0 <= op <= e' -> e <= e' ->
  literals_copied (dst_mem m0) (contents m0 sb) ip op e (dst_mem m).
Proof.
  intros ((_ & _ & L) & V & _) O E. split; [exact L|].
  split; intros i Hi; rewrite V by lia; unfold literal_byte.
  - destruct (Z.ltb_spec i op); [reflexivity|lia].
  - destruct (Z.ltb_spec i op); [lia|reflexivity].
Qed.

Lemma written_match m0 offset op e e' w m :
  written (match_byte (dst_mem m0) offset op) m0 e' w m ->
  1 <= offset -> 0 <= op - offset -> op <= e' -> e <= e' ->
  match_copied (dst_mem m0) offset op e (dst_mem m).
Proof.
  intros ((_ & _ & L) & V & _) O P Q E. split; [exact L|].
  split; intros i Hi; rewrite !V by lia.
  - unfold match_byte. destruct (Z.ltb_spec i op); [reflexivity|lia].
  - rewrite <- (match_byte_period (dst_mem m0) offset op (i - offset) 1) by lia.
    f_equal. lia.
Qed.

(** ** The wild copies *)

Lemma LZ4_wildCopy8_loop_written f m0 e lo delta fuel : forall m d s w,
  feeds f m0 (blk s) delta 8 lo -> off s = off d + delta ->
  written f m0 (off d) w m -> lo <= off d ->
  e - off d <= Z.of_nat fuel ->
  may (LZ4_wildCopy8_loop fuel m d s e)
      (fun m' => exists d',
         written f m0 d' (Z.max w d') m'
         /\ e <= d' /\ off d + 8 <= d' /\ d' <= Z.max (e + 7) (off d + 8)).
Proof.
  induction fuel as [|fuel IH]; intros m d s w F Hs W L Hf;
    cbn [LZ4_wildCopy8_loop];
    (eapply may_bind;
     [apply (memcpy_written f m0 (off d) w m d s 8 8 lo); auto; try lia;
      replace (off s - off d) with delta by lia; exact F|]);
    intros m1 W1; cbv beta in W1; destruct d as [bd od], s as [bs os];
    unfold padd; simpl in *;
    destruct (Z.ltb_spec (od + 8) e) as [C|C]; try lia.
  - exists (od + 8). repeat split; try apply W1; lia.
  - eapply may_impl.
    + apply (IH m1 (Ptr bd (od + 8)) (Ptr bs (os + 8)) (Z.max w (od + 8)));
        simpl; auto; lia.
    + simpl. intros m2 (d' & W2 & A & B & C'). exists d'.
      split; [eapply written_weaken; [exact W2|lia|lia]|lia].
  - exists (od + 8). repeat split; try apply W1; lia.
Qed.

Lemma LZ4_wildCopy8_written f m0 e lo m d s w :
  feeds f m0 (blk s) (off s - off d) 8 lo ->
  written f m0 (off d) w m -> lo <= off d ->
  may (LZ4_wildCopy8 m d s e)
      (fun m' => exists d',
         written f m0 d' (Z.max w d') m'
         /\ e <= d' /\ off d + 8 <= d' /\ d' <= Z.max (e + 7) (off d + 8)).
Proof.
  intros F W L. eapply LZ4_wildCopy8_loop_written; eauto; lia.
Qed.

Lemma LZ4_wildCopy32_loop_written f m0 e lo delta fuel : forall m d s w,
  feeds f m0 (blk s) delta 16 lo -> off s = off d + delta ->
  written f m0 (off d) w m -> lo <= off d ->
  e - off d <= Z.of_nat fuel ->
  may (LZ4_wildCopy32_loop fuel m d s e)
      (fun m' => exists d',
         written f m0 d' (Z.max w d') m'
         /\ e <= d' /\ off d + 32 <= d' /\ d' <= Z.max (e + 31) (off d + 32)).
Proof.
  induction fuel as [|fuel IH]; intros m d s w F Hs W L Hf;
    cbn [LZ4_wildCopy32_loop];
    (eapply may_bind;
     [apply (memcpy_written f m0 (off d) w m d s 16 16 lo); auto; try lia;
      replace (off s - off d) with delta by lia; exact F|]);
    intros m1 W1; cbv beta in W1;
    (eapply may_bind;
     [apply (memcpy_written f m0 (off d + 16) (Z.max w (off d + 16)) m1
               (padd d 16) (padd s 16) 16 16 lo); auto; try lia;
      replace (off (padd s 16) - (off d + 16)) with delta
        by (destruct s, d; simpl in *; lia); exact F|]);
    intros m2 W2; cbv beta in W2; destruct d as [bd od], s as [bs os];
    unfold padd; simpl in *;
    replace (od + 16 + 16) with (od + 32) in W2 by lia;
    destruct (Z.ltb_spec (od + 32) e) as [C|C]; try lia.
  - exists (od + 32). split; [eapply written_weaken; [exact W2|lia|lia]|lia].
  - eapply may_impl.
    + apply (IH m2 (Ptr bd (od + 32)) (Ptr bs (os + 32))
                (Z.max (Z.max w (od + 16)) (od + 32))); simpl; auto; lia.
    + simpl. intros m3 (d' & W3 & A & B & C'). exists d'.
      split; [eapply written_weaken; [exact W3|lia|lia]|lia].
  - exists (od + 32). split; [eapply written_weaken; [exact W2|lia|lia]|lia].
Qed.

Lemma LZ4_wildCopy32_written f m0 e lo m d s w :
  feeds f m0 (blk s) (off s - off d) 16 lo ->
  written f m0 (off d) w m -> lo <= off d ->
  may (LZ4_wildCopy32 m d s e)
      (fun m' => exists d',
         written f m0 d' (Z.max w d') m'
         /\ e <= d' /\ off d + 32 <= d' /\ d' <= Z.max (e + 31) (off d + 32)).
Proof.
  intros F W L. eapply LZ4_wildCopy32_loop_written; eauto; lia.
Qed.

Lemma copy_bytes_loop_written f m0 e lo delta fuel : forall m op from w,
  feeds f m0 (blk from) delta 1 lo -> off from = off op + delta ->
  written f m0 (off op) w m -> lo <= off op ->
  e - off op <= Z.of_nat fuel ->
  may (copy_bytes_loop fuel m op from e)
      (fun r => written f m0 (snd r) (Z.max w (snd r)) (fst r)
                /\ snd r = Z.max e (off op)).
Proof.
  induction fuel as [|fuel IH]; intros m op from w F Hs W L Hf;
    cbn [copy_bytes_loop];
    destruct (Z.ltb_spec (off op) e) as [C|C]; try lia.
  - cbn [may wp fst snd]. split; [eapply written_weaken; [exact W|lia|lia]|lia].
  - eapply may_bind;
      [apply (memcpy_written f m0 (off op) w m op from 1 1 lo); auto; try lia;
       replace (off from - off op) with delta by lia; exact F|].
    intros m1 W1. cbv beta in W1. eapply may_impl.
    + apply (IH m1 (padd op 1) (padd from 1) (Z.max w (off op + 1)));
        destruct op, from; simpl in *; auto; lia.
    + destruct op as [bo oo]. simpl in *. intros [m2 o2] [W2 E2]. simpl in *.
      split; [eapply written_weaken; [exact W2|lia|lia]|lia].
  - cbn [may wp fst snd]. split; [eapply written_weaken; [exact W|lia|lia]|lia].
Qed.

Lemma copy_bytes_written f m0 e lo m op from w :
  feeds f m0 (blk from) (off from - off op) 1 lo ->
  written f m0 (off op) w m -> lo <= off op ->
  may (copy_bytes m op from e)
      (fun r => written f m0 (snd r) (Z.max w (snd r)) (fst r)
                /\ snd r = Z.max e (off op)).
Proof.
  intros F W L. eapply copy_bytes_loop_written; eauto; lia.
Qed.

(** ** Copies of a match *)

Section MatchCopy.

Variable m0 : memory.
Variables offset op : Z.
Hypothesis offset_pos : 1 <= offset.
Hypothesis match_in : 0 <= op - offset.

Local Abbreviation f := (match_byte (dst_mem m0) offset op).

Lemma feeds_match_at q d s step :
  1 <= q -> blk s = Dst -> off s = d - q * offset -> op <= d ->
  op - offset <= off s -> step <= q * offset ->
  feeds f m0 (blk s) (off s - d) step d.
Proof.
  intros Q B S D L N. rewrite B.
  replace (off s - d) with (- (q * offset)) by lia.
  eapply feeds_shorter; [apply (feeds_match m0 offset op q d); lia|lia|lia].
Qed.

Lemma memcpy_match q d w m p s n :
  written f m0 d w m ->
  1 <= q -> off p = d -> blk s = Dst -> off s = d - q * offset -> op <= d ->
  op - offset <= off s -> n <= q * offset ->
  may (memcpy m p s n) (written f m0 (d + n) (Z.max w (d + n))).
Proof.
  intros W Q P B S D L N.
  apply (memcpy_written f m0 d w m p s n n d); auto; try lia.
  apply (feeds_match_at q); auto.
Qed.

Lemma LZ4_wildCopy8_match q e w m d s :
  written f m0 (off d) w m ->
  1 <= q -> blk s = Dst -> off s = off d - q * offset -> op <= off d ->
  op - offset <= off s -> 8 <= q * offset ->
  may (LZ4_wildCopy8 m d s e)
      (fun m' => exists d',
         written f m0 d' (Z.max w d') m'
         /\ e <= d' /\ off d + 8 <= d' /\ d' <= Z.max (e + 7) (off d + 8)).
Proof.
  intros W Q B S D L N.
  apply (LZ4_wildCopy8_written f m0 e (off d)); auto; try lia.
  apply (feeds_match_at q); auto.
Qed.

Lemma LZ4_wildCopy32_match q e w m d s :
  written f m0 (off d) w m ->
  1 <= q -> blk s = Dst -> off s = off d - q * offset -> op <= off d ->
  op - offset <= off s -> 16 <= q * offset ->
  may (LZ4_wildCopy32 m d s e)
      (fun m' => exists d',
         written f m0 d' (Z.max w d') m'
         /\ e <= d' /\ off d + 32 <= d' /\ d' <= Z.max (e + 31) (off d + 32)).
Proof.
  intros W Q B S D L N.
  apply (LZ4_wildCopy32_written f m0 e (off d)); auto; try lia.
  apply (feeds_match_at q); auto.
Qed.

Lemma copy_bytes_match q e w m d s :
  written f m0 (off d) w m ->
  1 <= q -> blk s = Dst -> off s = off d - q * offset -> op <= off d ->
  op - offset <= off s ->
  may (copy_bytes m d s e)
      (fun r => written f m0 (snd r) (Z.max w (snd r)) (fst r)
                /\ snd r = Z.max e (off d)).
Proof.
  intros W Q B S D L.
  apply (copy_bytes_written f m0 e (off d)); auto; try lia.
  apply (feeds_match_at q); auto. nia.
Qed.

Lemma copy_byte_match d w m p s i :
  written f m0 d w m ->
  off p + i = d -> blk s = Dst -> off s = off p - offset -> op <= d ->
  may (copy_byte m p s i) (written f m0 (d + 1) (Z.max w (d + 1))).
Proof.
  intros W P B S D. unfold copy_byte.
  apply (memcpy_match 1); destruct p as [bp xp], s as [bs xs]; cbn [padd off blk] in *; auto; lia.
Qed.

Lemma LZ4_write32_zero_beyond d w m p :
  written f m0 d w m -> d <= off p ->
  may (LZ4_write32_zero m p) (written f m0 d (Z.max w (off p + 4))).
Proof.
  intros W P. unfold LZ4_write32_zero, write_bytes.
  apply (store_beyond _ _ _ _ _ p [x00; x00; x00; x00] W P).
Qed.

End MatchCopy.

(** One step of a match copy: the next primitive, with the distance to its
    source [q] times the offset. *)
Ltac match_prim Hpos Hin q :=
  lazymatch goal with
  | W : written _ ?m0 _ _ ?m |- may (memcpy ?m _ _ _) _ =>
      apply (memcpy_match m0 _ _ Hpos Hin q _ _ m _ _ _ W);
      cbn [padd off blk]; try reflexivity; lia
  | W : written _ ?m0 _ _ ?m |- may (copy_byte ?m _ _ _) _ =>
      apply (copy_byte_match m0 _ _ Hpos Hin _ _ m _ _ _ W);
      cbn [padd off blk]; try reflexivity; lia
  | W : written _ ?m0 _ _ ?m |- may (LZ4_write32_zero ?m _) _ =>
      apply (LZ4_write32_zero_beyond m0 _ _ _ _ m _ W);
      cbn [padd off blk]; lia
  | W : written _ ?m0 _ _ ?m |- may (LZ4_wildCopy8 ?m ?d ?s ?e) _ =>
      apply (LZ4_wildCopy8_match m0 _ _ Hpos Hin q e _ m d s W);
      cbn [padd off blk]; try reflexivity; lia
  | W : written _ ?m0 _ _ ?m |- may (LZ4_wildCopy32 ?m ?d ?s ?e) _ =>
      apply (LZ4_wildCopy32_match m0 _ _ Hpos Hin q e _ m d s W);
      cbn [padd off blk]; try reflexivity; lia
  | W : written _ ?m0 _ _ ?m |- may (copy_bytes ?m ?d ?s ?e) _ =>
      apply (copy_bytes_match m0 _ _ Hpos Hin q e _ m d s W);
      cbn [padd off blk]; try reflexivity; lia
  end.

Ltac match_step Hpos Hin q :=
  eapply may_bind;
  [match_prim Hpos Hin q|
   let m' := fresh "m" in let W := fresh "W" in
   intros m' W; cbv beta in W; cbn [padd off blk] in W |- *].

Lemma bind_assoc {A B C} (c : ctl A) (k : A -> ctl B) (k' : B -> ctl C) :
  bind (bind c k) k' = bind c (fun x => bind (k x) k').
Proof. destruct c; reflexivity. Qed.

Lemma LZ4_memcpy_using_offset_base_match m0 offset op e w m d s :
  1 <= offset -> 0 <= op - offset ->
  written (match_byte (dst_mem m0) offset op) m0 op w m ->
  off d = op -> blk s = Dst -> off s = op - offset ->
  may (LZ4_memcpy_using_offset_base m d s e offset)
      (fun m' => exists d',
         written (match_byte (dst_mem m0) offset op) m0 d' (Z.max w d') m'
         /\ e <= d' /\ op + 16 <= d' /\ d' <= Z.max (e + 7) (op + 16)).
Proof.
  intros Hpos Hin W Hd Hb Hs. destruct d as [bd od], s as [bs os].
  cbn [off blk] in *. subst od bs os.
  unfold LZ4_memcpy_using_offset_base.
  assert (finish : forall q m1 w1 os,
    1 <= q -> os = op + 8 - q * offset -> op - offset <= os -> 8 <= q * offset ->
    written (match_byte (dst_mem m0) offset op) m0 (op + 8) w1 m1 ->
    w1 <= Z.max w (op + 16) ->
    may (LZ4_wildCopy8 m1 (Ptr bd (op + 8)) (Ptr Dst os) e)
      (fun m' => exists d',
         written (match_byte (dst_mem m0) offset op) m0 d' (Z.max w d') m'
         /\ e <= d' /\ op + 16 <= d' /\ d' <= Z.max (e + 7) (op + 16))).
  { intros q m1 w1 os Q E L N W1 Lw. eapply may_impl; [match_prim Hpos Hin q|].
    intros m2 (d' & W2 & A & B & C). cbn [off] in *. exists d'.
    split; [eapply written_weaken; [exact W2|lia|lia]|lia]. }
  destruct (Z.ltb_spec offset 8) as [C|C].
  - assert (K : offset = 1 \/ offset = 2 \/ offset = 3 \/ offset = 4
                \/ offset = 5 \/ offset = 6 \/ offset = 7) by lia.
    eapply may_bind.
    { do 4 match_step Hpos Hin 1.
      instantiate (1 := fun r =>
        written (match_byte (dst_mem m0) offset op) m0 (op + 8)
                (Z.max w (op + 8)) (fst (fst r))
        /\ snd (fst r) = Ptr bd (op + 8)
        /\ blk (snd r) = Dst
        /\ exists q, 1 <= q /\ off (snd r) = op + 8 - q * offset
             /\ op - offset <= off (snd r) /\ 8 <= q * offset).
      destruct K as [K|[K|[K|[K|[K|[K|K]]]]]]; rewrite K in *;
        match goal with
        | |- context [nth (Z.to_nat ?k) inc32table 0] =>
            let a := eval vm_compute in (nth (Z.to_nat k) inc32table 0) in
            let b := eval vm_compute in (nth (Z.to_nat k) dec64table 0) in
            change (nth (Z.to_nat k) inc32table 0) with a;
            change (nth (Z.to_nat k) dec64table 0) with b
        end.
      1: match_step Hpos Hin 4.
      2,3,4: match_step Hpos Hin 2.
      5,6,7: match_step Hpos Hin 1.
      all: cbn [may wp fst snd off blk padd];
        (split; [eapply written_weaken; [eassumption|lia|lia]|]);
        (split; [reflexivity|]); (split; [reflexivity|]).
      - exists 8. lia.
      - exists 4. lia.
      - exists 3. lia.
      - exists 2. lia.
      - exists 2. lia.
      - exists 2. lia.
      - exists 2. lia. }
    intros [[m1 d1] [b1 o1]] (W1 & E1 & B1 & q & Q1 & Q2 & Q3 & Q4).
    cbn [fst snd off blk] in *. subst d1 b1.
    apply (finish q m1 (Z.max w (op + 8)) o1); auto; lia.
  - rewrite bind_assoc. match_step Hpos Hin 1. cbn [bind].
    apply (finish 1 m1 (Z.max w (op + 8)) (op - offset + 8)); auto; lia.
Qed.

Lemma write_bytes_written f m0 d w m p v :
  written f m0 d w m -> off p = d ->
  (forall k, 0 <= k < len v -> byte_at v k = f (d + k)) ->
  may (write_bytes m p v) (written f m0 (d + len v) (Z.max w (d + len v))).
Proof. intros W P F. apply store_written; assumption. Qed.

Lemma fill_pattern_loop_written f m0 e v fuel : forall m d w,
  len v = 8 ->
  (forall j k, 0 <= j -> 0 <= k < 8 -> byte_at v k = f (off d + 8 * j + k)) ->
  written f m0 (off d) w m ->
  e - off d <= Z.of_nat fuel ->
  may (fill_pattern_loop fuel m d e v)
      (fun m' => exists d',
         written f m0 d' (Z.max w d') m'
         /\ e <= d' /\ off d <= d' /\ d' <= Z.max (e + 7) (off d)).
Proof.
  induction fuel as [|fuel IH]; intros m d w Lv F W Hf;
    cbn [fill_pattern_loop];
    destruct (Z.ltb_spec (off d) e) as [C|C]; try lia.
  - exists (off d). split; [eapply written_weaken; [exact W|lia|lia]|lia].
  - eapply may_bind.
    + apply (write_bytes_written f m0 (off d) w m d v W eq_refl).
      intros k K. rewrite (F 0 k) by lia. f_equal. lia.
    + intros m1 W1. cbv beta in W1. rewrite Lv in W1. eapply may_impl.
      * apply (IH m1 (padd d 8) (Z.max w (off d + 8)) Lv).
        -- intros j k J K. destruct d as [bd od]. cbn [padd off blk].
           rewrite (F (j + 1) k) by lia. cbn [off]. f_equal. lia.
        -- destruct d as [bd od]. exact W1.
        -- destruct d as [bd od]. cbn [padd off blk] in *. lia.
      * destruct d as [bd od]. cbn [padd off blk] in *.
        intros m2 (d' & W2 & A & B & C'). exists d'.
        split; [eapply written_weaken; [exact W2|lia|lia]|lia].
  - exists (off d). split; [eapply written_weaken; [exact W|lia|lia]|lia].
Qed.

(** The pattern of eight bytes for the offsets 1, 2 and 4. *)
Lemma pattern_match m0 offset op w m bs (v : list byte) :
  1 <= offset -> 0 <= op - offset ->
  written (match_byte (dst_mem m0) offset op) m0 op w m ->
  load m (Ptr Dst (op - offset)) offset = Some bs ->
  (8 mod offset = 0) ->
  (forall k, 0 <= k < 8 -> byte_at v k = byte_at bs (k mod offset)) ->
  forall j k, 0 <= j -> 0 <= k < 8 ->
    byte_at v k = match_byte (dst_mem m0) offset op (op + 8 * j + k).
Proof.
  intros Hpos Hin (_ & V & _) L D8 P j k J K. rewrite P by exact K.
  assert (R : 0 <= k mod offset < offset) by (apply Z.mod_pos_bound; lia).
  rewrite (load_byte_at _ _ _ _ _ L) by exact R. cbn [contents blk off].
  rewrite V by lia. unfold match_byte.
  destruct (Z.ltb_spec (op - offset + k mod offset) op) as [A|A]; [|lia].
  destruct (Z.ltb_spec (op + 8 * j + k) op) as [B|B]; [lia|].
  f_equal. f_equal. replace (op + 8 * j + k - op) with (k + 8 * j) by lia.
  apply Z.mod_divide in D8; [|lia]. destruct D8 as [c D8]. rewrite D8.
  replace (k + c * offset * j) with (k + (c * j) * offset) by ring.
  rewrite Z.mod_add by lia. reflexivity.
Qed.

Lemma fill_match m0 offset op e w m bd v :
  1 <= offset -> 0 <= op - offset ->
  written (match_byte (dst_mem m0) offset op) m0 op w m ->
  len v = 8 ->
  (forall j k, 0 <= j -> 0 <= k < 8 ->
     byte_at v k = match_byte (dst_mem m0) offset op (op + 8 * j + k)) ->
  may (m1 <- write_bytes m (Ptr bd op) v ;;
       fill_pattern_loop (Z.to_nat (e - off (padd (Ptr bd op) 8))) m1
                         (padd (Ptr bd op) 8) e v)
      (fun m' => exists d',
         written (match_byte (dst_mem m0) offset op) m0 d' (Z.max w d') m'
         /\ e <= d' /\ op + 8 <= d' /\ d' <= Z.max (e + 7) (op + 16)).
Proof.
  intros Hpos Hin W Lv F. eapply may_bind.
  - apply (write_bytes_written (match_byte (dst_mem m0) offset op) m0 op w m
             (Ptr bd op) v W eq_refl).
    intros k K. rewrite (F 0 k) by lia. f_equal. lia.
  - intros m1 W1. cbv beta in W1. rewrite Lv in W1. cbn [padd off blk].
    eapply may_impl.
    + apply (fill_pattern_loop_written
               (match_byte (dst_mem m0) offset op) m0 e v _ m1
               (Ptr bd (op + 8)) (Z.max w (op + 8)) Lv);
        cbn [off]; [|exact W1|lia].
      intros j k J K. rewrite (F (j + 1) k) by lia. f_equal. lia.
    + cbn [off]. intros m2 (d' & W2 & A & B & C). exists d'.
      split; [eapply written_weaken; [exact W2|lia|lia]|lia].
Qed.

Lemma LZ4_memcpy_using_offset_match m0 offset op e w m d s :
  1 <= offset -> 0 <= op - offset ->
  written (match_byte (dst_mem m0) offset op) m0 op w m ->
  off d = op -> blk s = Dst -> off s = op - offset ->
  may (LZ4_memcpy_using_offset m d s e offset)
      (fun m' => exists d',
         written (match_byte (dst_mem m0) offset op) m0 d' (Z.max w d') m'
         /\ e <= d' /\ op + 8 <= d' /\ d' <= Z.max (e + 7) (op + 16)).
Proof.
  intros Hpos Hin W Hd Hb Hs.
  destruct (Z.eq_dec offset 1) as [E1|N1];
    [|destruct (Z.eq_dec offset 2) as [E2|N2];
      [|destruct (Z.eq_dec offset 4) as [E4|N4]]].
  4:{ rewrite LZ4_memcpy_using_offset_default by assumption.
      match_step Hpos Hin 1. eapply may_impl.
      - eapply (LZ4_memcpy_using_offset_base_match m0 offset op e _ m1 d s);
          eauto.
      - intros m2 (d' & W2 & A & B & C). cbn beta in *. exists d'.
        split; [eapply written_weaken; [exact W2|lia|lia]|lia]. }
  all: destruct d as [bd od], s as [bs os]; cbn [blk off] in *; subst od bs os;
    unfold LZ4_memcpy_using_offset.
  all: match_step Hpos Hin 1; cbv zeta; cbv beta.
  all: first [rewrite E1|rewrite E2|rewrite E4]; cbv iota.
  all: match goal with
       | |- may (bind (lift (load ?m ?p ?n)) _) _ =>
           destruct (load m p n) as [l|] eqn:L; [|reflexivity]
       end; cbn [lift bind];
    pose proof (load_len _ _ _ _ L) as Ll; unfold len in Ll.
  - destruct l as [|a [|? ?]]; cbn [Datatypes.length] in Ll; try lia.
    rewrite <- E1 in L.
    eapply may_impl;
      [eapply (fill_match m0 offset op e _ m1 bd _ Hpos Hin W0);
       [reflexivity|];
       eapply (pattern_match m0 offset op _ m1 [a] _ Hpos Hin W0 L);
       [rewrite E1; reflexivity|]|].
    + intros k K. rewrite E1, Z.mod_1_r.
      assert (C : k = 0 \/ k = 1 \/ k = 2 \/ k = 3 \/ k = 4 \/ k = 5
                  \/ k = 6 \/ k = 7) by lia.
      destruct C as [->|[->|[->|[->|[->|[->|[->| ->]]]]]]]; reflexivity.
    + intros m2 (d' & W2 & A & B & C). exists d'.
      first [rewrite E1 in W2|rewrite E2 in W2|rewrite E4 in W2].
      split; [eapply written_weaken; [exact W2|lia|lia]|lia].
  - destruct l as [|a [|b [|? ?]]]; cbn [Datatypes.length] in Ll; try lia.
    rewrite <- E2 in L.
    eapply may_impl;
      [eapply (fill_match m0 offset op e _ m1 bd _ Hpos Hin W0);
       [reflexivity|];
       eapply (pattern_match m0 offset op _ m1 [a; b] _ Hpos Hin W0 L);
       [rewrite E2; reflexivity|]|].
    + intros k K. rewrite E2.
      assert (C : k = 0 \/ k = 1 \/ k = 2 \/ k = 3 \/ k = 4 \/ k = 5
                  \/ k = 6 \/ k = 7) by lia.
      destruct C as [->|[->|[->|[->|[->|[->|[->| ->]]]]]]]; reflexivity.
    + intros m2 (d' & W2 & A & B & C). exists d'.
      first [rewrite E1 in W2|rewrite E2 in W2|rewrite E4 in W2].
      split; [eapply written_weaken; [exact W2|lia|lia]|lia].
  - destruct l as [|a [|b [|c [|x [|? ?]]]]]; cbn [Datatypes.length] in Ll;
      try lia.
    rewrite <- E4 in L.
    eapply may_impl;
      [eapply (fill_match m0 offset op e _ m1 bd _ Hpos Hin W0);
       [reflexivity|];
       eapply (pattern_match m0 offset op _ m1 [a; b; c; x] _ Hpos Hin W0 L);
       [rewrite E4; reflexivity|]|].
    + intros k K. rewrite E4.
      assert (C : k = 0 \/ k = 1 \/ k = 2 \/ k = 3 \/ k = 4 \/ k = 5
                  \/ k = 6 \/ k = 7) by lia.
      destruct C as [->|[->|[->|[->|[->|[->|[->| ->]]]]]]]; reflexivity.
    + intros m2 (d' & W2 & A & B & C). exists d'.
      first [rewrite E1 in W2|rewrite E2 in W2|rewrite E4 in W2].
      split; [eapply written_weaken; [exact W2|lia|lia]|lia].
Qed.

(** ** The match copy of the main loop *)

Ltac match_wstep Hpos Hin q :=
  eapply wp_may;
  [match_prim Hpos Hin q|exact I|
   let m' := fresh "m" in let W := fresh "W" in
   intros m' W; cbv beta in W; cbn [padd off blk] in W |- *].

Lemma wp_then {A B} (c : ctl A) (k : A -> ctl B) P Q (J : jump -> Prop) :
  wp c P J -> (forall a, P a -> wp (k a) Q J) -> wp (bind c k) Q J.
Proof. destruct c; cbn [wp bind]; auto. Qed.

Lemma match_done_written ip op m partial length offset op' e' w m' :
  written (match_byte (dst_mem m) offset op) m e' w m' ->
  1 <= offset -> 0 <= op - offset ->
  op <= op' <= op + length -> (partial = false -> op' = op + length) ->
  op' <= e' ->
  match_done ip op m partial length offset (next_safe ip op' m')
  /\ match_done ip op m partial length offset (break_ ip op' m').
Proof.
  intros W Hpos Hin O F E.
  assert (M : match_copied (dst_mem m) offset op op' (dst_mem m'))
    by (eapply written_match; eauto; lia).
  destruct W as (S & _). split; cbn [match_done]; auto.
Qed.

Lemma safe_match_copy_done P ip op m length offset match_ :
  blk (dst P) = Dst -> 1 <= offset -> match_ = op - offset -> 0 <= match_ ->
  0 <= length ->
  (dict P = usingExtDict -> off (lowPrefix P) <= match_) ->
  match_done ip op m (partialDecoding P) length offset
             (land (safe_match_copy P ip op m length offset match_)).
Proof.
  intros Hd Hpos Hm Hin Hlen Hdict. subst match_. apply wp_land.
  unfold safe_match_copy.
  destruct (checkOffset P && _); [exact I|].
  destruct (dict_eqb (dict P) usingExtDict && _) eqn:D.
  { exfalso. apply andb_true_iff in D. destruct D as [D1 D2].
    apply Z.ltb_lt in D2. destruct (dict P); try discriminate.
    specialize (Hdict eq_refl). lia. }
  clear D Hdict. cbv zeta.
  pose proof (written_start (match_byte (dst_mem m) offset op) m op) as W.
  specialize (W ltac:(intros i Hi; unfold match_byte;
                      destruct (Z.ltb_spec i op); [reflexivity|lia])).
  unfold opp. rewrite Hd. set (pd := partialDecoding P) in *.
  set (oe := oend P) in *. clearbody oe. consts.
  change (2 * 8 - 4) with 12 in *. change (8 - 1) with 7 in *.
  destruct (pd && (oe - 12 <? op + length)) eqn:B.
  - (* the copy stops at the end of the output *)
    pose proof (to_size_t_range (oe - op)) as R.
    set (mlen := Z.min length (to_size_t (oe - op))) in *.
    assert (0 <= mlen <= length) by lia. clearbody mlen.
    eapply (wp_may _ _
              (fun m' => exists d', written (match_byte (dst_mem m) offset op)
                                      m d' (Z.max op d') m' /\ op + mlen <= d')).
    + destruct (Z.ltb_spec op (op - offset + mlen)).
      * eapply may_bind; [match_prim Hpos Hin 1|].
        intros [m1 o1] [W1 E1]. cbn [fst snd off may wp] in *. exists o1.
        split; [exact W1|lia].
      * eapply may_impl; [match_prim Hpos Hin 1|].
        intros m1 W1. cbv beta in W1. exists (op + mlen). split; [exact W1|lia].
    + exact I.
    + intros m1 (d' & W1 & E1).
      destruct (match_done_written ip op m pd length offset (op + mlen) d' _ m1
                  W1 Hpos Hin ltac:(lia)
                  ltac:(intros F; rewrite F in B; discriminate) E1) as [A1 A2].
      destruct (op + mlen =? oe); cbn [wp]; assumption.
  - (* the first eight bytes *)
    eapply (wp_may _ _
              (fun r => written (match_byte (dst_mem m) offset op) m (op + 8)
                          (Z.max op (op + 8)) (fst r)
                        /\ exists q, 1 <= q /\ snd r = op + 8 - q * offset
                             /\ op - offset <= snd r /\ 8 <= q * offset)).
    + destruct (Z.ltb_spec offset 8) as [C|C].
      * assert (K : offset = 1 \/ offset = 2 \/ offset = 3 \/ offset = 4
                    \/ offset = 5 \/ offset = 6 \/ offset = 7) by lia.
        eapply may_bind; [match_prim Hpos Hin 1|].
        intros m1 W1. cbv beta in W1.
        apply (written_weaken _ _ _ _ _ op (op + 8)) in W1;
          [|lia|cbn [off]; lia].
        do 4 match_step Hpos Hin 1.
        destruct K as [K|[K|[K|[K|[K|[K|K]]]]]]; rewrite K in *;
          match goal with
          | |- context [nth (Z.to_nat ?k) inc32table 0] =>
              let a := eval vm_compute in (nth (Z.to_nat k) inc32table 0) in
              let b := eval vm_compute in (nth (Z.to_nat k) dec64table 0) in
              change (nth (Z.to_nat k) inc32table 0) with a;
              change (nth (Z.to_nat k) dec64table 0) with b
          end.
        1: match_step Hpos Hin 4.
        2,3,4: match_step Hpos Hin 2.
        5,6,7: match_step Hpos Hin 1.
        all: cbn [may wp fst snd];
          (split; [eapply written_weaken; [eassumption|lia|lia]|]).
        -- exists 8. lia.
        -- exists 4. lia.
        -- exists 3. lia.
        -- exists 2. lia.
        -- exists 2. lia.
        -- exists 2. lia.
        -- exists 2. lia.
      * match_step Hpos Hin 1. cbn [may wp fst snd].
        split; [eapply written_weaken; [eassumption|lia|lia]|].
        exists 1. lia.
    + exact I.
    + intros [m1 o1] (W1 & q & Q1 & Q2 & Q3 & Q4). cbn [fst snd] in *.
      eapply (wp_then _ _
                (fun m' => exists d' w', written (match_byte (dst_mem m) offset op)
                                        m d' w' m' /\ op + length <= d')).
      * destruct (Z.ltb_spec (oe - 12) (op + length)) as [C|C].
        -- destruct (oe - 5 <? op + length); [exact I|].
           eapply wp_may_end; [|exact I|intros a Ha; exact Ha].
           eapply (may_bind _ _
                     (fun r => exists d' w',
                        written (match_byte (dst_mem m) offset op) m d' w'
                                (fst (fst r))
                        /\ snd (fst r) = d' /\ op + 8 <= d'
                        /\ snd r = d' - q * offset)).
           ++ destruct (Z.ltb_spec (op + 8) (oe - 7)) as [C2|C2].
              ** match_step Hpos Hin q. cbn [may wp fst snd].
                 destruct W0 as (d' & W0 & A1 & A2 & A3).
                 exists (oe - 7), (Z.max (Z.max op (op + 8)) d').
                 split; [eapply written_weaken; [exact W0|lia|lia]|lia].
              ** cbn [may wp fst snd]. exists (op + 8), (Z.max op (op + 8)).
                 split; [exact W1|lia].
           ++ intros [[m2 o2] x2] (d' & w' & W2 & E2 & E3 & E4).
              cbn [fst snd] in *. subst o2 x2.
              eapply may_bind; [match_prim Hpos Hin q|].
              intros [m3 o3] [W3 E3']. cbn [fst snd off may wp] in *.
              exists o3, (Z.max w' o3). split; [exact W3|lia].
        -- eapply wp_may_end; [|exact I|intros a Ha; exact Ha].
           match_step Hpos Hin q. destruct (Z.ltb_spec 16 length) as [C3|C3].
           ++ eapply may_impl; [match_prim Hpos Hin q|].
              intros m3 (d' & W3 & A1 & A2 & A3). cbn [off] in *.
              exists d', (Z.max (Z.max (Z.max op (op + 8)) (op + 8 + 8)) d').
              split; [exact W3|lia].
           ++ cbn [may wp]. eexists _, _. split; [exact W0|lia].
      * intros m2 (d' & w' & W2 & E2). cbn [wp].
        apply (match_done_written ip op m pd length offset (op + length) d' w'
                 m2 W2 Hpos Hin); auto; lia.
Qed.

Lemma must_and_may {A} (c : ctl A) (P Q : A -> Prop) :
  must c P -> may c Q -> must c (fun a => P a /\ Q a).
Proof. unfold must, may. destruct c; cbn [wp]; [auto|contradiction]. Qed.

Lemma written_start_literal m sb ip op :
  written (literal_byte (dst_mem m) (contents m sb) ip op) m op op m.
Proof.
  apply written_start. intros i Hi. unfold literal_byte.
  destruct (Z.ltb_spec i op); [reflexivity|lia].
Qed.

Lemma written_start_match m offset op :
  written (match_byte (dst_mem m) offset op) m op op m.
Proof.
  apply written_start. intros i Hi. unfold match_byte.
  destruct (Z.ltb_spec i op); [reflexivity|lia].
Qed.

Lemma written_beyond f m0 d w m i :
  written f m0 d w m -> w <= i -> byte_at (dst_mem m) i = byte_at (dst_mem m0) i.
Proof. intros (_ & _ & U). apply U. Qed.

(** X5. [LZ4_wildCopy8] from the input: with room for whole steps of eight
    bytes it ends, the output from [dstPtr] to [dstEnd] holds the bytes of
    the input from [srcPtr] on, the output before [dstPtr] is as it was, and
    so is the output from the eighth byte after [dstEnd] on: at most seven
    bytes beyond [dstEnd] are overwritten. *)
Theorem LZ4_wildCopy8_copies m d s e :
  blk d = Dst -> blk s <> Null -> blk s <> Dst -> 0 <= off d -> 0 <= off s ->
  off d + Z.max 8 (e - off d + 7) <= blen m Dst ->
  off s + Z.max 8 (e - off d + 7) <= blen m (blk s) ->
  must (LZ4_wildCopy8 m d s e)
       (fun m' =>
          same_shape m m'
          /\ literals_copied (dst_mem m) (contents m (blk s)) (off s) (off d)
                             e (dst_mem m')
          /\ forall i, Z.max (e + 7) (off d + 8) <= i ->
               byte_at (dst_mem m') i = byte_at (dst_mem m) i).
Proof.
  intros Hd Hn Hs D0 S0 Bd Bs. eapply must_impl.
  - apply must_and_may.
    + apply LZ4_wildCopy8_must; assumption.
    + apply (LZ4_wildCopy8_written
               (literal_byte (dst_mem m) (contents m (blk s)) (off s) (off d))
               m e (off d) m d s (off d)).
      * apply feeds_literal. exact Hs.
      * apply written_start_literal.
      * lia.
  - cbv beta. intros m' (S & d' & W & A & B & C). split; [exact S|]. split.
    + eapply written_literals; [exact W|lia|lia].
    + intros i Hi. eapply written_beyond; [exact W|lia].
Qed.

Lemma LZ4_wildCopy8_copies_witness :
  must (LZ4_wildCopy8
          (Mem (map byte_of [1; 2; 3; 4; 5; 6; 7; 8; 9; 10; 11; 12; 13; 14; 15; 16; 17; 18; 19; 20])
               (repeat xff 20) [])
          (Ptr Dst 2) (Ptr Src 1) 11)
       (fun m' =>
          same_shape
            (Mem (map byte_of [1; 2; 3; 4; 5; 6; 7; 8; 9; 10; 11; 12; 13; 14; 15; 16; 17; 18; 19; 20])
                 (repeat xff 20) []) m'
          /\ literals_copied (repeat xff 20)
               (map byte_of [1; 2; 3; 4; 5; 6; 7; 8; 9; 10; 11; 12; 13; 14; 15; 16; 17; 18; 19; 20]) 1 2 11 (dst_mem m')
          /\ forall i, Z.max (11 + 7) (2 + 8) <= i ->
               byte_at (dst_mem m') i = byte_at (repeat xff 20) i).
Proof.
  apply (LZ4_wildCopy8_copies
           (Mem (map byte_of [1; 2; 3; 4; 5; 6; 7; 8; 9; 10; 11; 12; 13; 14; 15; 16; 17; 18; 19; 20])
                (repeat xff 20) [])
           (Ptr Dst 2) (Ptr Src 1) 11).
  - reflexivity.
  - discriminate.
  - discriminate.
  - simpl. lia.
  - simpl. lia.
  - vm_compute. discriminate.
  - vm_compute. discriminate.
Defined.

(** X6. [LZ4_wildCopy32] from the input: the same in steps of 32 bytes; at
    most 31 bytes beyond [dstEnd] are overwritten. *)
Theorem LZ4_wildCopy32_copies m d s e :
  blk d = Dst -> blk s <> Null -> blk s <> Dst -> 0 <= off d -> 0 <= off s ->
  off d + Z.max 32 (e - off d + 31) <= blen m Dst ->
  off s + Z.max 32 (e - off d + 31) <= blen m (blk s) ->
  must (LZ4_wildCopy32 m d s e)
       (fun m' =>
          same_shape m m'
          /\ literals_copied (dst_mem m) (contents m (blk s)) (off s) (off d)
                             e (dst_mem m')
          /\ forall i, Z.max (e + 31) (off d + 32) <= i ->
               byte_at (dst_mem m') i = byte_at (dst_mem m) i).
Proof.
  intros Hd Hn Hs D0 S0 Bd Bs. eapply must_impl.
  - apply must_and_may.
    + apply LZ4_wildCopy32_must; assumption.
    + apply (LZ4_wildCopy32_written
               (literal_byte (dst_mem m) (contents m (blk s)) (off s) (off d))
               m e (off d) m d s (off d)).
      * apply feeds_literal. exact Hs.
      * apply written_start_literal.
      * lia.
  - cbv beta. intros m' (S & d' & W & A & B & C). split; [exact S|]. split.
    + eapply written_literals; [exact W|lia|lia].
    + intros i Hi. eapply written_beyond; [exact W|lia].
Qed.

Lemma LZ4_wildCopy32_copies_witness :
  must (LZ4_wildCopy32 (Mem (repeat x41 40) (repeat xff 40) [])
                       (Ptr Dst 3) (Ptr Src 0) 8)
       (fun m' =>
          same_shape (Mem (repeat x41 40) (repeat xff 40) []) m'
          /\ literals_copied (repeat xff 40) (repeat x41 40) 0 3 8 (dst_mem m')
          /\ forall i, Z.max (8 + 31) (3 + 32) <= i ->
               byte_at (dst_mem m') i = byte_at (repeat xff 40) i).
Proof.
  apply (LZ4_wildCopy32_copies (Mem (repeat x41 40) (repeat xff 40) [])
                               (Ptr Dst 3) (Ptr Src 0) 8).
  - reflexivity.
  - discriminate.
  - discriminate.
  - simpl. lia.
  - simpl. lia.
  - vm_compute. discriminate.
  - vm_compute. discriminate.
Defined.

(** X7. [LZ4_memcpy_using_offset], for every offset from 1 on: with room for
    its whole steps it ends, and each byte of the output from [dstPtr] to
    [dstEnd] is the byte [offset] before it, as the loop
    [while (op < cpy) *op++ = *match++] would leave it; the output before
    [dstPtr] is as it was, and nothing is written from the eighth byte
    after [dstEnd] on (nor from [dstPtr + 16] on when that is later). *)
Theorem LZ4_memcpy_using_offset_copies m d s e offset :
  blk d = Dst -> blk s = Dst -> off s = off d - offset ->
  1 <= offset -> 0 <= off s ->
  off d + Z.max 16 (e - off d + 7) <= blen m Dst ->
  must (LZ4_memcpy_using_offset m d s e offset)
       (fun m' =>
          same_shape m m'
          /\ match_copied (dst_mem m) offset (off d) e (dst_mem m')
          /\ forall i, Z.max (e + 7) (off d + 16) <= i ->
               byte_at (dst_mem m') i = byte_at (dst_mem m) i).
Proof.
  intros Hd Hs Ho H1 H0 B. eapply must_impl.
  - apply must_and_may.
    + apply LZ4_memcpy_using_offset_must; auto. lia.
    + apply (LZ4_memcpy_using_offset_match m offset (off d) e (off d) m d s);
        auto; try lia.
      apply written_start_match.
  - cbv beta. intros m' (S & d' & W & A & B' & C). split; [exact S|]. split.
    + eapply written_match; [exact W|lia..].
    + intros i Hi. eapply written_beyond; [exact W|lia].
Qed.

Lemma LZ4_memcpy_using_offset_copies_witness :
  must (LZ4_memcpy_using_offset
          (Mem [] ([x61; x62; x63] ++ repeat x00 29) [])
          (Ptr Dst 3) (Ptr Dst 0) 13 3)
       (fun m' =>
          same_shape (Mem [] ([x61; x62; x63] ++ repeat x00 29) []) m'
          /\ match_copied ([x61; x62; x63] ++ repeat x00 29) 3 3 13 (dst_mem m')
          /\ forall i, Z.max (13 + 7) (3 + 16) <= i ->
               byte_at (dst_mem m') i
               = byte_at ([x61; x62; x63] ++ repeat x00 29) i).
Proof.
  apply (LZ4_memcpy_using_offset_copies
           (Mem [] ([x61; x62; x63] ++ repeat x00 29) [])
           (Ptr Dst 3) (Ptr Dst 0) 13 3).
  - reflexivity.
  - reflexivity.
  - reflexivity.
  - lia.
  - simpl. lia.
  - vm_compute. discriminate.
Defined.

(** X8. The copy of a match in the main loop ([safe_match_copy:] to the end
    of the loop body, the match not in an external dictionary): when the
    decoder goes on after it, the input cursor has not moved, the output
    cursor is at the end of the match (or, in a partial decoding, at the end
    of the output), each byte of the match is the byte [offset] before it
    and the output before the match is as it was. *)
Theorem safe_match_copy_copies P ip op m length offset match_ :
  blk (dst P) = Dst -> 1 <= offset -> match_ = op - offset -> 0 <= match_ ->
  0 <= length ->
  (dict P = usingExtDict -> off (lowPrefix P) <= match_) ->
  match_done ip op m (partialDecoding P) length offset
             (land (safe_match_copy P ip op m length offset match_)).
Proof. apply safe_match_copy_done. Qed.

Lemma safe_match_copy_copies_witness :
  match_done 7 2 (Mem [] ([x61; x62] ++ repeat x00 38) []) false 9 2
    (land (safe_match_copy
             (safe_params (fun _ => 4096) true (Ptr Src 0) (Ptr Dst 0) 20 40)
             7 2 (Mem [] ([x61; x62] ++ repeat x00 38) []) 9 2 0)).
Proof.
  apply (safe_match_copy_copies
           (safe_params (fun _ => 4096) true (Ptr Src 0) (Ptr Dst 0) 20 40)
           7 2 (Mem [] ([x61; x62] ++ repeat x00 38) []) 9 2 0).
  - reflexivity.
  - lia.
  - reflexivity.
  - lia.
  - lia.
  - discriminate.
Defined.

(** * What is decoded stays decoded *)

Lemma kept_refl m op : kept m op m.
Proof. split; [apply same_shape_refl|reflexivity]. Qed.

Lemma kept_trans m0 op m1 op' m2 :
  kept m0 op m1 -> kept m1 op' m2 -> op <= op' -> kept m0 op m2.
Proof.
  intros [S1 K1] [S2 K2] L. split; [eapply same_shape_trans; eauto|].
  intros i Hi. rewrite K2 by lia. apply K1. exact Hi.
Qed.

Lemma store_kept m0 o m p bs :
  kept m0 o m -> o <= off p -> may (lift (store m p bs)) (kept m0 o).
Proof.
  intros [S K] Hp. pose proof (lift_store_may m p bs) as M.
  destruct (store m p bs) as [m'|] eqn:E; [|reflexivity].
  cbn [lift may wp] in *. destruct (store_splice _ _ _ _ E) as [_ Sp].
  split; [eapply same_shape_trans; eauto|]. intros i Hi.
  rewrite (splice_byte_at _ _ _ _ i Sp) by lia.
  destruct (Z.leb_spec (off p) i); [lia|]. cbn [andb]. apply K. exact Hi.
Qed.

Lemma memcpy_kept m0 o m p s n :
  kept m0 o m -> o <= off p -> may (memcpy m p s n) (kept m0 o).
Proof.
  intros K Hp. unfold memcpy. eapply may_bind; [apply lift_load_may|].
  intros bs _. apply store_kept; assumption.
Qed.

Lemma write_bytes_kept m0 o m p bs :
  kept m0 o m -> o <= off p -> may (write_bytes m p bs) (kept m0 o).
Proof. apply store_kept. Qed.

Lemma copy_byte_kept m0 o m p s i :
  kept m0 o m -> o <= off p + i -> may (copy_byte m p s i) (kept m0 o).
Proof. intros K Hp. apply memcpy_kept; [exact K|exact Hp]. Qed.

Lemma LZ4_wildCopy8_loop_kept m0 o e fuel : forall m d s,
  kept m0 o m -> o <= off d -> e - off d <= Z.of_nat fuel ->
  may (LZ4_wildCopy8_loop fuel m d s e) (kept m0 o).
Proof.
  induction fuel as [|fuel IH]; intros m d s K Hd Hf; cbn [LZ4_wildCopy8_loop];
    (eapply may_bind; [apply memcpy_kept; eassumption|]); intros m1 K1;
    cbv zeta; destruct d as [bd xd]; cbn [padd off blk] in *;
    destruct (Z.ltb_spec (xd + 8) e); try exact K1; try lia.
  apply IH; cbn [padd off blk]; [exact K1|lia|lia].
Qed.

Lemma LZ4_wildCopy8_kept m0 o m d s e :
  kept m0 o m -> o <= off d -> may (LZ4_wildCopy8 m d s e) (kept m0 o).
Proof. intros K Hd. apply LZ4_wildCopy8_loop_kept; auto. lia. Qed.

Lemma LZ4_wildCopy32_loop_kept m0 o e fuel : forall m d s,
  kept m0 o m -> o <= off d -> e - off d <= Z.of_nat fuel ->
  may (LZ4_wildCopy32_loop fuel m d s e) (kept m0 o).
Proof.
  induction fuel as [|fuel IH]; intros m d s K Hd Hf; cbn [LZ4_wildCopy32_loop];
    (eapply may_bind; [apply memcpy_kept; eassumption|]); intros m1 K1;
    (eapply may_bind;
     [apply memcpy_kept; [exact K1|destruct d as [bd xd]; cbn [padd off blk] in *; lia]|]);
    intros m2 K2;
    cbv zeta; destruct d as [bd xd]; cbn [padd off blk] in *;
    destruct (Z.ltb_spec (xd + 32) e); try exact K2; try lia.
  apply IH; cbn [padd off blk]; [exact K2|lia|lia].
Qed.

Lemma LZ4_wildCopy32_kept m0 o m d s e :
  kept m0 o m -> o <= off d -> may (LZ4_wildCopy32 m d s e) (kept m0 o).
Proof. intros K Hd. apply LZ4_wildCopy32_loop_kept; auto. lia. Qed.

Lemma copy_bytes_loop_kept m0 o e fuel : forall m op from,
  kept m0 o m -> o <= off op -> e - off op <= Z.of_nat fuel ->
  may (copy_bytes_loop fuel m op from e)
      (fun r => kept m0 o (fst r) /\ off op <= snd r).
Proof.
  induction fuel as [|fuel IH]; intros m op from K Hd Hf;
    cbn [copy_bytes_loop]; destruct (Z.ltb_spec (off op) e); try lia;
    try (cbn [may wp fst snd]; split; [exact K|lia]).
  eapply may_bind; [apply memcpy_kept; eassumption|]. intros m1 K1.
  eapply may_impl.
  - apply IH; [exact K1|..]; destruct op as [bo xo]; cbn [padd off blk] in *; lia.
  - destruct op as [bo xo]. cbn [padd off blk]. intros r [K2 L]. split; [exact K2|lia].
Qed.

Lemma copy_bytes_kept m0 o m op from e :
  kept m0 o m -> o <= off op ->
  may (copy_bytes m op from e)
      (fun r => kept m0 o (fst r) /\ off op <= snd r).
Proof. intros K Hd. apply copy_bytes_loop_kept; auto. lia. Qed.

Lemma fill_pattern_loop_kept m0 o e v fuel : forall m d,
  kept m0 o m -> o <= off d -> e - off d <= Z.of_nat fuel ->
  may (fill_pattern_loop fuel m d e v) (kept m0 o).
Proof.
  induction fuel as [|fuel IH]; intros m d K Hd Hf;
    cbn [fill_pattern_loop]; destruct (Z.ltb_spec (off d) e); try lia;
    try exact K.
  eapply may_bind; [apply write_bytes_kept; eassumption|]. intros m1 K1.
  apply IH; [exact K1|..]; destruct d as [bd xd]; cbn [padd off blk] in *; lia.
Qed.

Lemma LZ4_memcpy_using_offset_base_kept m0 o m d s e offset :
  kept m0 o m -> o <= off d ->
  may (LZ4_memcpy_using_offset_base m d s e offset) (kept m0 o).
Proof.
  intros K Hd. unfold LZ4_memcpy_using_offset_base, copy_byte.
  destruct d as [bd xd]. cbn [padd off blk] in *.
  eapply may_bind.
  - instantiate (1 := fun r => kept m0 o (fst (fst r))
                             /\ snd (fst r) = Ptr bd (xd + 8)).
    destruct (offset <? 8).
    + eapply may_bind; [apply memcpy_kept; [exact K|cbn [padd off blk]; lia]|].
      intros m1 K1.
      eapply may_bind; [apply memcpy_kept; [exact K1|cbn [padd off blk]; lia]|].
      intros m2 K2.
      eapply may_bind; [apply memcpy_kept; [exact K2|cbn [padd off blk]; lia]|].
      intros m3 K3.
      eapply may_bind; [apply memcpy_kept; [exact K3|cbn [padd off blk]; lia]|].
      intros m4 K4. cbv zeta.
      eapply may_bind; [apply memcpy_kept; [exact K4|cbn [padd off blk]; lia]|].
      intros m5 K5. cbn [may wp fst snd]. split; [exact K5|reflexivity].
    + eapply may_bind; [apply memcpy_kept; [exact K|cbn [padd off blk]; lia]|].
      intros m1 K1. cbn [may wp fst snd]. split; [exact K1|reflexivity].
  - intros [[m1 d1] s1] [K1 E1]. cbn [fst snd] in *. subst d1.
    apply LZ4_wildCopy8_kept; [exact K1|cbn [padd off blk]; lia].
Qed.

Lemma LZ4_memcpy_using_offset_kept m0 o m d s e offset :
  kept m0 o m -> o <= off d ->
  may (LZ4_memcpy_using_offset m d s e offset) (kept m0 o).
Proof.
  intros K Hd.
  assert (F : forall m1 v, kept m0 o m1 ->
            may (m2 <- write_bytes m1 d v ;;
                 fill_pattern_loop (Z.to_nat (e - off (padd d 8))) m2
                                   (padd d 8) e v) (kept m0 o)).
  { intros m1 v K1. eapply may_bind; [apply write_bytes_kept; eassumption|].
    intros m2 K2. apply fill_pattern_loop_kept; [exact K2|..];
      destruct d as [bd xd]; cbn [padd off blk] in *; lia. }
  destruct (Z.eq_dec offset 1) as [->|N1];
    [|destruct (Z.eq_dec offset 2) as [->|N2];
      [|destruct (Z.eq_dec offset 4) as [->|N4]]].
  4:{ rewrite LZ4_memcpy_using_offset_default by assumption.
      eapply may_bind; [apply write_bytes_kept; eassumption|]. intros m1 K1.
      apply LZ4_memcpy_using_offset_base_kept; assumption. }
  all: unfold LZ4_memcpy_using_offset; cbv beta iota zeta;
    (eapply may_bind; [apply write_bytes_kept; eassumption|]); intros m1 K1;
    (eapply may_bind; [apply lift_load_may|]); intros bs _; apply F; exact K1.
Qed.

(** One step through the code of a loop body, keeping track of [kept]. *)
Ltac kept_side := cbn [padd off blk]; try lia; try (ranges; lia).

Ltac kept_intro :=
  let m := fresh "m" in let K := fresh "K" in intros m K; cbv beta in K.

Ltac kept_prim m lem :=
  match goal with
  | K : kept _ _ m |- _ =>
      eapply wp_may; [eapply lem; [exact K|kept_side]|exact I|kept_intro]
  end.

Ltac kept_prim_end m lem :=
  match goal with
  | K : kept _ _ m |- _ =>
      eapply wp_may_end;
      [eapply lem; [exact K|kept_side]|exact I|kept_intro]
  end.

Ltac kept_done :=
  cbn [wp keeps];
  first [exact I | assumption | split; [kept_side|assumption]].

Ltac kept_step :=
  cbv beta zeta; unfold memmove;
  lazymatch goal with
  | |- wp (bind (bind _ _) _) _ _ => apply wp_bind
  | |- wp (bind (if _ then _ else _) _) _ _ => apply wp_bind
  | |- wp (bind (match _ with _ => _ end) _) _ _ => apply wp_bind
  | |- wp (bind (memcpy ?m _ _ _) _) _ _ => kept_prim m memcpy_kept
  | |- wp (bind (copy_byte ?m _ _ _) _) _ _ => kept_prim m copy_byte_kept
  | |- wp (bind (LZ4_write32_zero ?m _) _) _ _ =>
      unfold LZ4_write32_zero; kept_prim m write_bytes_kept
  | |- wp (bind (LZ4_wildCopy8 ?m _ _ _) _) _ _ =>
      kept_prim m LZ4_wildCopy8_kept
  | |- wp (bind (LZ4_wildCopy32 ?m _ _ _) _) _ _ =>
      kept_prim m LZ4_wildCopy32_kept
  | |- wp (bind (LZ4_memcpy_using_offset ?m _ _ _ _) _) _ _ =>
      kept_prim m LZ4_memcpy_using_offset_kept
  | |- wp (bind (copy_bytes ?m _ _ _) _) _ _ =>
      match goal with
      | K : kept _ _ m |- _ =>
          eapply wp_may;
          [eapply copy_bytes_kept; [exact K|kept_side]|exact I|
           let r := fresh "r" in let K' := fresh "K" in let L := fresh "L" in
           intros r [K' L]; destruct r; cbn [fst snd padd off blk] in K', L]
      end
  | |- wp (bind (read8 _ _) _) _ _ => wp_prim_may read8_may
  | |- wp (bind (LZ4_readLE16 _ _) _) _ _ => wp_prim_may LZ4_readLE16_may
  | |- wp (bind (read_variable_length _ _ _ _ _ _ ok) _) _ _ =>
      eapply wp_may;
      [apply read_variable_length_may
      | try exact I
      | let r := fresh "r" in let R := fresh "R" in
        let vlen := fresh "vlen" in let vip := fresh "vip" in
        let verr := fresh "verr" in
        intros r R; destruct r as [vlen vip verr]; destruct R as [? R];
        destruct verr; cbn [vl_length vl_ip vl_error] in *; cbv iota in R]
  | |- wp (bind (Val _) _) _ _ => cbn [bind]
  | |- wp (bind (output_error _ _ _ _ _) _) _ _ =>
      unfold output_error; cbn [bind]; kept_done
  | |- wp (memcpy ?m _ _ _) _ _ => kept_prim_end m memcpy_kept
  | |- wp (LZ4_wildCopy8 ?m _ _ _) _ _ => kept_prim_end m LZ4_wildCopy8_kept
  | |- wp (LZ4_wildCopy32 ?m _ _ _) _ _ => kept_prim_end m LZ4_wildCopy32_kept
  | |- wp (LZ4_memcpy_using_offset ?m _ _ _ _) _ _ =>
      kept_prim_end m LZ4_memcpy_using_offset_kept
  | |- wp (match ?x with pair _ _ => _ end) _ _ => destruct x
  | |- wp (if ?b then _ else _) _ _ =>
      let E := fresh "E" in destruct b eqn:E; bool_hyps; try (exfalso; lia)
  | |- wp (Val _) _ _ => cbn [wp]
  | |- wp (Goto _) _ _ => kept_done
  | |- wp (output_error _ _ _ _ _) _ _ => unfold output_error; kept_done
  | |- wp (goto _) _ _ => apply wp_goto
  end.

Section Kept.

Variable P : params.
Variables (o : Z) (m0 : memory).

Lemma copy_from_extDict_kept next ip op m length match_ :
  next = next_fast \/ next = next_safe ->
  kept m0 o m -> o <= op -> 0 <= length ->
  wp (copy_from_extDict P next ip op m length match_)
     (keeps o m0) (keeps o m0).
Proof.
  intros N K Hop Hl. unfold copy_from_extDict, opp.
  repeat kept_step; destruct N as [-> | ->]; kept_done.
Qed.

Lemma safe_match_copy_kept ip op m length offset match_ :
  kept m0 o m -> o <= op -> 0 <= length ->
  wp (safe_match_copy P ip op m length offset match_)
     (keeps o m0) (keeps o m0).
Proof.
  intros K Hop Hl. unfold safe_match_copy, opp.
  repeat kept_step; try kept_done.
  all: apply copy_from_extDict_kept; auto.
Qed.

Lemma copy_match_kept ip op m length offset match_ :
  kept m0 o m -> o <= op -> 0 <= length ->
  wp (copy_match P ip op m length offset match_)
     (keeps o m0) (keeps o m0).
Proof.
  intros K Hop Hl. unfold copy_match, opp. consts.
  repeat kept_step; try kept_done.
  all: apply safe_match_copy_kept; auto; ranges; lia.
Qed.

Lemma safe_literal_copy_kept ip op m token length cpy :
  kept m0 o m -> o <= op -> 0 <= length -> cpy = op + length ->
  0 <= token < 256 ->
  wp (safe_literal_copy P ip op m token length cpy)
     (keeps o m0) (keeps o m0).
Proof.
  intros K Hop Hl Hc Ht. subst cpy. unfold safe_literal_copy, opp. consts.
  repeat kept_step; try kept_done.
  all: apply copy_match_kept; auto; ranges; lia.
Qed.

Lemma safe_sequence_kept ip op m :
  kept m0 o m -> o <= op ->
  wp (safe_sequence P ip op m) (keeps o m0) (keeps o m0).
Proof.
  intros K Hop. unfold safe_sequence, opp. consts.
  kept_step. ranges.
  repeat kept_step; try kept_done.
  all: first [apply copy_match_kept | apply safe_literal_copy_kept];
    auto; ranges; lia.
Qed.

Lemma fast_sequence_kept ip op m :
  kept m0 o m -> o <= op ->
  wp (fast_sequence P ip op m) (keeps o m0) (keeps o m0).
Proof.
  intros K Hop. unfold fast_sequence, opp. consts.
  kept_step. ranges.
  repeat kept_step; try kept_done.
  all: first [apply safe_match_copy_kept | apply safe_literal_copy_kept
             | apply copy_from_extDict_kept];
    auto; ranges; lia.
Qed.

End Kept.

Lemma decode_loop_kept P o m0 fuel : forall j,
  keeps o m0 j ->
  match decode_loop P fuel j with
  | Returned _ _ _ m => kept m0 o m
  | _ => True
  end.
Proof.
  induction fuel as [|fuel IH]; intros j K;
    destruct j as [ip op m|ip op m|ip op m|[rv ip op m| |]];
    cbn [decode_loop keeps] in *; try exact I; try exact K;
    try (destruct (endOnInput P); apply K).
  - apply IH. apply wp_land. apply fast_sequence_kept; apply K.
  - apply IH. apply wp_land. apply safe_sequence_kept; apply K.
Qed.

Lemma decode_entry_kept P m :
  keeps (off (dst P)) m (land (decode_entry P m)).
Proof.
  pose proof (kept_refl m (off (dst P))) as K.
  apply wp_land. unfold decode_entry. cbv zeta.
  repeat match goal with
         | |- wp (if ?c then _ else _) _ _ => destruct c
         | |- wp (bind (read8 _ _) _) _ _ => wp_prim_may read8_may
         | |- wp (Goto _) _ _ => cbn [wp keeps]
         end; try exact K; split; try exact K; lia.
Qed.

(** X9. For every directive and all parameters, when
    [LZ4_decompress_generic] returns, the input block and the dictionary
    block are as they were, the output block has the size it had, and no
    byte of the output block before [dst] has changed: a prefix of earlier
    output that lies before [dst] is read only. *)
Theorem LZ4_decompress_generic_keeps P fuel m rv ip op m' :
  LZ4_decompress_generic P fuel m = Returned rv ip op m' ->
  kept m (off (dst P)) m'.
Proof.
  intros H. unfold LZ4_decompress_generic in H.
  pose proof (decode_loop_kept P (off (dst P)) m fuel _ (decode_entry_kept P m))
    as K.
  rewrite H in K. exact K.
Qed.

(** The memory and the parameters of a call that decodes "abc" and then
    a match of offset 3 after six bytes of earlier output. *)
Lemma LZ4_decompress_generic_keeps_witness :
  kept (Mem [x35; x61; x62; x63] (repeat xff 80) [])
       (off (dst (Params (fun _ => 4096) false (Ptr Src 0) (Ptr Dst 6) 4 74
                         endOnInputSize decode_full_block withPrefix64k
                         (Ptr Dst 0) NULL 6)))
       (Mem [x35; x61; x62; x63]
            (repeat xff 6 ++ [x61; x62; x63] ++ repeat xff 71) []).
Proof.
  apply (LZ4_decompress_generic_keeps
           (Params (fun _ => 4096) false (Ptr Src 0) (Ptr Dst 6) 4 74
                   endOnInputSize decode_full_block withPrefix64k
                   (Ptr Dst 0) NULL 6)
           2 (Mem [x35; x61; x62; x63] (repeat xff 80) []) 3 4 9).
  vm_compute. reflexivity.
Defined.

(** X10. What is decoded stays decoded: from any turn of either loop of the
    decoder on, with the output cursor at [op], the bytes of the output
    before [op] are never changed again, whatever the input and for every
    directive; nor are the input and the dictionary. *)
Theorem decoded_stays_decoded P fuel (fast : bool) ip op m rv ip' op' m' :
  decode_loop P fuel ((if fast then next_fast else next_safe) ip op m)
  = Returned rv ip' op' m' ->
  kept m op m'.
Proof.
  intros H.
  assert (K : keeps op m ((if fast then next_fast else next_safe) ip op m)).
  { destruct fast; cbn [keeps]; (split; [lia|apply kept_refl]). }
  pose proof (decode_loop_kept P op m fuel _ K) as D.
  rewrite H in D. exact D.
Qed.

Lemma decoded_stays_decoded_witness :
  kept (Mem [x11; x61; x01; x00; x50; x62; x63; x64; x65; x66]
            ([x7a; x7a] ++ repeat x00 30) [])
       2
       (Mem [x11; x61; x01; x00; x50; x62; x63; x64; x65; x66]
            ([x7a; x7a; x61; x61; x61; x61; x61; x61; x62; x63; x64; x65; x66;
              x61; x61; x61; x61; x61; x61] ++ repeat x00 13) []).
Proof.
  apply (decoded_stays_decoded
           (safe_params (fun _ => 4096) false (Ptr Src 0) (Ptr Dst 0) 10 32)
           3 false 0 2
           (Mem [x11; x61; x01; x00; x50; x62; x63; x64; x65; x66]
                ([x7a; x7a] ++ repeat x00 30) [])
           13 10 13).
  vm_compute. reflexivity.
Defined.

(** * What a sequence leaves in the output *)

Lemma LZ4_readLE16_at m p :
  may (LZ4_readLE16 m p)
      (fun v => v = le16_at (contents m (blk p)) (off p) /\ 0 <= v < 65536).
Proof.
  pose proof (LZ4_readLE16_may m p) as R. unfold LZ4_readLE16 in *.
  destruct (load m p 2) as [bs|] eqn:L; [|reflexivity].
  cbn [lift bind may wp] in *. split; [|exact R].
  pose proof (load_byte_at _ _ _ _ 0 L ltac:(lia)) as B0.
  pose proof (load_byte_at _ _ _ _ 1 L ltac:(lia)) as B1.
  unfold le16_at. rewrite Z.add_0_r in B0. rewrite <- B0, <- B1.
  rewrite Z.shiftl_mul_pow2 by lia. unfold byte_at. change (2 ^ 8) with 256.
  change (Z.to_nat 0) with 0%nat. change (Z.to_nat 1) with 1%nat. lia.
Qed.

Lemma wp_of_land (c : ctl jump) (J : jump -> Prop) : J (land c) -> wp c J J.
Proof. destruct c; cbn [wp land]; auto. Qed.

(** The cursors after the match copy of the main loop, in a full decoding
    without external dictionary. *)
Lemma safe_match_copy_cursors P ip op m length offset match_ :
  partialDecoding P = false -> dict P <> usingExtDict ->
  match land (safe_match_copy P ip op m length offset match_) with
  | exit_ _ => True
  | next_fast ip' op' _ | next_safe ip' op' _ | break_ ip' op' _ =>
      ip' = ip /\ op' = op + length
  end.
Proof.
  intros Hp Hd.
  apply (wp_land _ (fun j => match j with
                             | exit_ _ => True
                             | next_fast ip' op' _ | next_safe ip' op' _
                             | break_ ip' op' _ => ip' = ip /\ op' = op + length
                             end)).
  unfold safe_match_copy. rewrite Hp.
  assert (D : dict_eqb (dict P) usingExtDict = false)
    by (destruct (dict P); try reflexivity; congruence).
  rewrite D. cbn [andb].
  repeat wp_step_may; try exact I; split; reflexivity.
Qed.

(** The literals stay when a match is copied after them. *)
Lemma literals_then_match d0 s lit op L d1 offset op' d' :
  0 <= op -> 0 <= L ->
  literals_copied d0 s lit op (op + L) d1 ->
  match_copied d1 offset (op + L) op' d' ->
  literals_copied d0 s lit op (op + L) d'
  /\ forall i, op + L <= i < op' -> byte_at d' i = byte_at d' (i - offset).
Proof.
  intros Hop HL (L1 & P1 & C1) (L2 & P2 & C2). split; [|exact C2].
  split; [congruence|]. split; intros i Hi.
  - rewrite P2 by lia. apply P1. exact Hi.
  - rewrite P2 by lia. apply C1. exact Hi.
Qed.

(** The copies of literals. *)
Lemma literals_copied_shorter d s ip op e e' d' :
  e' <= e -> literals_copied d s ip op e d' -> literals_copied d s ip op e' d'.
Proof.
  intros H (A & B & C). split; [exact A|]. split; [exact B|].
  intros i Hi. apply C. lia.
Qed.

Lemma memcpy_literal m p s n :
  blk s = Src -> 0 <= off p ->
  may (memcpy m p s n)
      (fun m1 => same_shape m m1
                 /\ literals_copied (dst_mem m) (src_mem m) (off s) (off p)
                                    (off p + n) (dst_mem m1)).
Proof.
  intros Hs Hp.
  pose proof (memcpy_written
                (literal_byte (dst_mem m) (contents m Src) (off s) (off p))
                m (off p) (off p) m p s n n (off p)) as W.
  rewrite Hs in W.
  specialize (W (feeds_literal m Src (off s) (off p) n ltac:(discriminate))
                (written_start_literal m Src (off s) (off p)) eq_refl
                ltac:(lia) ltac:(lia)).
  unfold memcpy in *. destruct (load m s n) as [bs|] eqn:E; [|reflexivity].
  pose proof (load_len _ _ _ _ E) as Ln. pose proof (len_nonneg bs).
  cbn [lift bind] in *. destruct (store m p bs) as [m1|]; [|reflexivity].
  cbn [lift may wp] in *. split; [apply W|].
  apply (written_literals m Src (off s) (off p) (off p + n) (off p + n) _ m1 W);
    lia.
Qed.

Lemma LZ4_wildCopy8_literal m d s e :
  blk s = Src -> 0 <= off d ->
  may (LZ4_wildCopy8 m d s e)
      (fun m1 => same_shape m m1
                 /\ literals_copied (dst_mem m) (src_mem m) (off s) (off d) e
                                    (dst_mem m1)).
Proof.
  intros Hs Hd. eapply may_impl.
  - apply (LZ4_wildCopy8_written
             (literal_byte (dst_mem m) (contents m Src) (off s) (off d))
             m e (off d) m d s (off d)).
    + rewrite Hs. apply feeds_literal. discriminate.
    + apply written_start_literal.
    + lia.
  - cbv beta. intros m1 (d' & W & A & B & C). split; [apply W|].
    eapply (written_literals m Src); [exact W|lia|lia].
Qed.

Lemma LZ4_wildCopy32_literal m d s e :
  blk s = Src -> 0 <= off d ->
  may (LZ4_wildCopy32 m d s e)
      (fun m1 => same_shape m m1
                 /\ literals_copied (dst_mem m) (src_mem m) (off s) (off d) e
                                    (dst_mem m1)).
Proof.
  intros Hs Hd. eapply may_impl.
  - apply (LZ4_wildCopy32_written
             (literal_byte (dst_mem m) (contents m Src) (off s) (off d))
             m e (off d) m d s (off d)).
    + rewrite Hs. apply feeds_literal. discriminate.
    + apply written_start_literal.
    + lia.
  - cbv beta. intros m1 (d' & W & A & B & C). split; [apply W|].
    eapply (written_literals m Src); [exact W|lia|lia].
Qed.

Section SeqSafe.

Variables (base : block -> Z) (fast : bool) (cs cap : Z).

Local Abbreviation P :=
  (Params base fast (Ptr Src 0) (Ptr Dst 0) cs cap endOnInputSize
          decode_full_block noDict (Ptr Dst 0) NULL 0).

(** The state of a turn of a loop after its literals: it started at [ip0]
    and [op0] with the memory [m0] and has copied [L] literals from [lit]
    on. *)
Variables (ip0 op0 : Z) (m0 : memory) (lit L : Z).
Hypothesis lit_after : ip0 < lit.
Hypothesis L_nonneg : 0 <= L.
Hypothesis op0_nonneg : 0 <= op0.

Lemma sequence_done_match ip' op' m1 m' offset :
  same_shape m0 m1 ->
  literals_copied (dst_mem m0) (src_mem m0) lit op0 (op0 + L) (dst_mem m1) ->
  same_shape m1 m' ->
  match_copied (dst_mem m1) offset (op0 + L) op' (dst_mem m') ->
  lit + L + 2 <= ip' -> op0 + L <= op' ->
  offset = le16_at (src_mem m0) (lit + L) -> 0 <= offset <= op0 + L ->
  sequence_done ip0 op0 m0 (next_safe ip' op' m')
  /\ sequence_done ip0 op0 m0 (next_fast ip' op' m')
  /\ sequence_done ip0 op0 m0 (break_ ip' op' m').
Proof.
  intros S1 Li S2 M Hip O E R.
  destruct (literals_then_match _ _ _ _ _ _ _ _ _ op0_nonneg L_nonneg Li M)
    as [A B].
  assert (D : same_shape m0 m'
              /\ exists lit' L' offset',
                   ip0 < lit' /\ 0 <= L' /\ lit' + L' <= ip' /\ op0 + L' <= op'
                   /\ literals_copied (dst_mem m0) (src_mem m0) lit' op0
                                      (op0 + L') (dst_mem m')
                   /\ (op0 + L' < op' ->
                       lit' + L' + 2 <= ip'
                       /\ offset' = le16_at (src_mem m0) (lit' + L')
                       /\ 0 <= offset' <= op0 + L'
                       /\ forall i, op0 + L' <= i < op' ->
                            byte_at (dst_mem m') i
                            = byte_at (dst_mem m') (i - offset'))).
  { split; [eapply same_shape_trans; eauto|].
    exists lit, L, offset. repeat split; auto; try lia; try apply A. }
  cbn [sequence_done]. auto.
Qed.

(** The match copy of the main loop, after the literals. *)
Lemma safe_match_copy_seq ip op1 m1 length offset :
  same_shape m0 m1 ->
  literals_copied (dst_mem m0) (src_mem m0) lit op0 (op0 + L) (dst_mem m1) ->
  op1 = op0 + L -> lit + L + 2 <= ip -> 0 <= length ->
  offset = le16_at (src_mem m0) (lit + L) -> 0 <= offset ->
  wp (safe_match_copy P ip op1 m1 length offset (op1 - offset))
     (sequence_done ip0 op0 m0) (sequence_done ip0 op0 m0).
Proof.
  intros S1 Li -> Hip Hl E O. apply wp_of_land.
  destruct (Z.lt_ge_cases (op0 + L - offset) 0) as [N|N].
  { (* the offset leads before the output *)
    unfold safe_match_copy. params.
    destruct (Z.ltb_spec (op0 + L - offset + 0) 0); [|lia].
    change (0 <? 64 * 1024) with true. exact I. }
  assert (M : match_done ip (op0 + L) m1 false length offset
                (land (safe_match_copy P ip (op0 + L) m1 length offset
                                       (op0 + L - offset)))).
  { destruct (Z.eq_dec offset 0) as [Z0|Z0].
    - pose proof (wp_land _ _ (safe_match_copy_kept P (op0 + L) m1 ip (op0 + L)
                    m1 length offset (op0 + L - offset)
                    (kept_refl _ _) ltac:(lia) Hl)) as K.
      pose proof (safe_match_copy_cursors P ip (op0 + L) m1 length offset
                    (op0 + L - offset) eq_refl ltac:(discriminate)) as C.
      revert K C.
      generalize (land (safe_match_copy P ip (op0 + L) m1 length offset
                                        (op0 + L - offset))).
      intros j K C.
      destruct j as [ip' op' m'|ip' op' m'|ip' op' m'|o]; cbn [keeps match_done] in *;
        try exact I; destruct K as [K1 [K2 K3]]; destruct C as [-> ->];
        (repeat split; try lia; try exact K2; try apply K2; try exact K3);
        intros i Hi; rewrite Z0, Z.sub_0_r; reflexivity.
    - apply (safe_match_copy_done P); auto; try lia. }
  revert M.
  generalize (land (safe_match_copy P ip (op0 + L) m1 length offset
                                    (op0 + L - offset))).
  intros j M.
  destruct j as [ip' op' m'|ip' op' m'|ip' op' m'|o]; cbn [match_done] in M;
    try exact I; destruct M as (-> & R & F & S2 & M);
    apply (sequence_done_match ip op' m1 m' offset); auto; lia.
Qed.


(** [_copy_match:], after the literals. *)
Lemma copy_match_seq ip op1 m1 length offset :
  same_shape m0 m1 ->
  literals_copied (dst_mem m0) (src_mem m0) lit op0 (op0 + L) (dst_mem m1) ->
  op1 = op0 + L -> lit + L + 2 <= ip -> 0 <= length ->
  offset = le16_at (src_mem m0) (lit + L) -> 0 <= offset ->
  wp (copy_match P ip op1 m1 length offset (op1 - offset))
     (sequence_done ip0 op0 m0) (sequence_done ip0 op0 m0).
Proof.
  intros S1 Li Hop Hip Hl E O. unfold copy_match. consts.
  repeat wp_step_may; try exact I.
  all: apply safe_match_copy_seq; auto; ranges; lia.
Qed.

Lemma sequence_done_literals ip' m1 :
  same_shape m0 m1 ->
  literals_copied (dst_mem m0) (src_mem m0) lit op0 (op0 + L) (dst_mem m1) ->
  lit + L <= ip' ->
  sequence_done ip0 op0 m0 (break_ ip' (op0 + L) m1).
Proof.
  intros S1 Li Hip. cbn [sequence_done]. split; [exact S1|].
  exists lit, L, 0. repeat split; auto; try lia; apply Li.
Qed.

(** [safe_literal_copy:] to the end of the loop body. *)
Lemma safe_literal_copy_seq token :
  0 <= token < 256 ->
  wp (safe_literal_copy P lit op0 m0 token L (op0 + L))
     (sequence_done ip0 op0 m0) (sequence_done ip0 op0 m0).
Proof.
  intros Ht. unfold safe_literal_copy. params. consts.
  apply wp_bind.
  destruct ((0 + cap - 12 <? op0 + L) || (0 + cs - (2 + 1 + 5) <? lit + L) || false).
  - apply wp_bind.
    destruct (negb (lit + L =? 0 + cs) || (0 + cap <? op0 + L)); [exact I|].
    cbn [wp]. unfold memmove.
    eapply wp_may; [apply memcpy_literal; [reflexivity|exact op0_nonneg]|exact I|].
    cbn [off]. intros m1 [S1 Li]. cbn [negb orb wp].
    apply sequence_done_literals; auto. lia.
  - eapply wp_may;
      [apply LZ4_wildCopy8_literal; [reflexivity|exact op0_nonneg]|exact I|].
    cbn [off]. intros m1 [S1 Li]. cbn [wp].
    eapply wp_may; [apply LZ4_readLE16_at|exact I|].
    cbn [blk off contents]. intros offset [E R].
    destruct S1 as (Ss & Sd & Sl). rewrite Ss in E.
    pose proof (land15_range token (proj1 Ht)) as Rm. change ML_MASK with 15 in Rm.
    apply copy_match_seq; auto; try lia. repeat split; assumption.
Qed.

End SeqSafe.

(** The match of the shortcuts: 18 bytes in three copies, for an offset of
    8 at least. *)
Lemma shortcut_match {A} m1 o1 offset (k : memory -> jump) (Q : A -> Prop)
    (J : jump -> Prop) e :
  8 <= offset -> 0 <= o1 - offset -> e <= o1 + 18 ->
  (forall m', same_shape m1 m' ->
              match_copied (dst_mem m1) offset o1 e (dst_mem m') ->
              J (k m')) ->
  J (exit_ Fault) ->
  forall a b c d,
  a = o1 -> b = o1 - offset -> c = o1 + 8 -> d = o1 - offset + 8 ->
  forall a' b', a' = o1 + 16 -> b' = o1 - offset + 16 ->
  wp (m <- memcpy m1 (Ptr Dst a) (Ptr Dst b) 8 ;;
      m <- memcpy m (Ptr Dst c) (Ptr Dst d) 8 ;;
      m <- memcpy m (Ptr Dst a') (Ptr Dst b') 2 ;;
      Goto (k m)) Q J.
Proof.
  intros O Hin E K F a b c d -> -> -> -> a' b' -> ->.
  assert (Hpos : 1 <= offset) by lia.
  pose proof (written_start_match m1 offset o1) as W.
  eapply wp_may; [match_prim Hpos Hin 1|exact F|]. intros m2 W2. cbv beta in W2.
  eapply wp_may; [match_prim Hpos Hin 1|exact F|]. intros m3 W3. cbv beta in W3.
  eapply wp_may; [match_prim Hpos Hin 1|exact F|]. intros m4 W4. cbv beta in W4.
  cbn [wp]. apply K; [apply W4|].
  eapply written_match; [exact W4|lia..].
Qed.

Section Sequence.

Variables (base : block -> Z) (fast : bool) (cs cap : Z).

Local Abbreviation P :=
  (Params base fast (Ptr Src 0) (Ptr Dst 0) cs cap endOnInputSize
          decode_full_block noDict (Ptr Dst 0) NULL 0).

Lemma safe_sequence_seq ip op m :
  0 <= op ->
  wp (safe_sequence P ip op m) (sequence_done ip op m) (sequence_done ip op m).
Proof.
  intros Hop. unfold safe_sequence. params. consts.
  eapply wp_may; [apply read8_may|exact I|]. intros token Ht. cbv beta in Ht.
  pose proof (shiftr4_range token Ht) as Rl.
  pose proof (land15_range token (proj1 Ht)) as Rm. change ML_MASK with 15 in Rm.
  set (ll := Z.shiftr token ML_BITS) in *. clearbody ll.
  set (ml := Z.land token 15) in *. clearbody ml.
  destruct (negb (ll =? 15) && ((ip + 1 <? 0 + cs - 14 - 2) && (op <=? 0 + cap - 14 - 18)))
    eqn:C.
  - (* the shortcut *)
    bool_hyps.
    eapply wp_may; [apply memcpy_literal; [reflexivity|exact Hop]|exact I|].
    cbn [off]. intros m1 [S1 Li].
    apply (literals_copied_shorter _ _ _ _ _ (op + ll)) in Li; [|lia].
    eapply wp_may; [apply LZ4_readLE16_at|exact I|].
    cbn [blk off contents]. intros offset [E R].
    pose proof S1 as (Ss & Sd & Sl). rewrite Ss in E.
    destruct (negb (ml =? 15) && (8 <=? offset) && (0 <=? op + ll - offset)) eqn:C2.
    + bool_hyps.
      apply (shortcut_match m1 (op + ll) offset
               (fun m' => next_safe (ip + 1 + ll + 2) (op + ll + (ml + 4)) m')
               _ _ (op + ll + (ml + 4))); try lia; try exact I.
      intros m' S2 M.
      apply (sequence_done_match ip op m (ip + 1) ll ltac:(lia) ltac:(lia) Hop
               (ip + 1 + ll + 2) (op + ll + (ml + 4)) m1 m' offset);
        auto; lia.
    + apply (copy_match_seq base fast cs cap ip op m (ip + 1) ll);
        auto; lia.
  - (* the literals and the match at their full length *)
    apply wp_bind. destruct (ll =? 15) eqn:C3.
    + eapply wp_may; [apply read_variable_length_may|exact I|].
      intros [vlen vip verr] [R1 R2]. cbn [vl_length vl_ip vl_error] in *.
      pose proof (to_size_t_range (ll + vlen)) as Rs.
      destruct verr; try exact I;
        repeat match goal with
               | |- wp (if ?b then _ else _) _ _ => destruct b; try exact I
               end;
        cbn [wp];
        apply (safe_literal_copy_seq base fast cs cap ip op m vip
                 (to_size_t (ll + vlen))); auto; lia.
    + cbn [wp].
      apply (safe_literal_copy_seq base fast cs cap ip op m (ip + 1) ll);
        auto; lia.
Qed.


Lemma fast_sequence_seq ip op m :
  0 <= op ->
  wp (fast_sequence P ip op m) (sequence_done ip op m) (sequence_done ip op m).
Proof.
  intros Hop. unfold fast_sequence. params. consts.
  eapply wp_may; [apply read8_may|exact I|]. intros token Ht. cbv beta in Ht.
  pose proof (shiftr4_range token Ht) as Rl.
  pose proof (land15_range token (proj1 Ht)) as Rm. change ML_MASK with 15 in Rm.
  set (ll := Z.shiftr token ML_BITS) in *. clearbody ll.
  set (ml := Z.land token 15) in *. clearbody ml.
  (* the literals *)
  eapply (wp_then _ _
            (fun r => exists lit L,
               ip < lit /\ 0 <= L /\ fst (fst r) = lit + L
               /\ snd (fst r) = op + L /\ same_shape m (snd r)
               /\ literals_copied (dst_mem m) (src_mem m) lit op (op + L)
                                  (dst_mem (snd r)))).
  { destruct (ll =? 15) eqn:C3.
    - eapply wp_may; [apply read_variable_length_may|exact I|].
      intros [vlen vip verr] [R1 R2]. cbn [vl_length vl_ip vl_error] in *.
      pose proof (to_size_t_range (ll + vlen)) as Rs.
      set (L := to_size_t (ll + vlen)) in *. clearbody L.
      destruct verr; try exact I;
        repeat match goal with
               | |- wp (if ptr_overflow _ _ _ then _ else _) _ _ =>
                   destruct (ptr_overflow _ _ _); try exact I
               end;
        (destruct ((0 + cap - 32 <? op + L) || (0 + cs - 32 <? vip + L));
         [apply wp_goto;
          apply (safe_literal_copy_seq base fast cs cap ip op m vip L);
          auto; lia|]);
        (eapply wp_may;
         [apply LZ4_wildCopy32_literal; [reflexivity|exact Hop]|exact I|]);
        cbn [off]; intros m1 [S1 Li]; cbn [wp fst snd];
        exists vip, L; (split; [lia|]); (split; [lia|]);
        (split; [reflexivity|]); (split; [reflexivity|]); split; assumption.
    - destruct (0 + cs - (16 + 1) <? ip + 1).
      + apply wp_goto.
        apply (safe_literal_copy_seq base fast cs cap ip op m (ip + 1) ll);
          auto; lia.
      + eapply wp_may; [apply memcpy_literal; [reflexivity|exact Hop]|exact I|].
        cbn [off]. intros m1 [S1 Li]. cbn [wp fst snd].
        apply (literals_copied_shorter _ _ _ _ _ (op + ll)) in Li; [|lia].
        exists (ip + 1), ll. split; [lia|]. split; [lia|].
        split; [reflexivity|]. split; [reflexivity|]. split; assumption. }
  intros [[ip2 op1] m1] (lit & L & Hlit & HL & E1 & E2 & S1 & Li).
  cbn [fst snd] in *. subst ip2 op1.
  (* the offset *)
  eapply wp_may; [apply LZ4_readLE16_at|exact I|].
  cbn [blk off contents]. intros offset [E R].
  pose proof S1 as (Ss & Sd & Sl). rewrite Ss in E.
  (* the length of the match *)
  eapply (wp_then _ _
            (fun r => lit + L + 2 <= fst r /\ 0 <= snd r)).
  { destruct (ml =? 15) eqn:C4.
    - destruct ((0 <? 64 * 1024) && (op + L - offset + 0 <? 0)); [exact I|].
      eapply wp_may; [apply read_variable_length_may|exact I|].
      intros [vlen vip verr] [R1 R2]. cbn [vl_length vl_ip vl_error] in *.
      pose proof (to_size_t_range (ml + vlen)) as Rs.
      destruct verr; try exact I.
      destruct (ptr_overflow _ _ _); [exact I|].
      destruct (0 + cap - 64 <=? op + L + (to_size_t (ml + vlen) + 4)).
      + apply wp_goto.
        apply (safe_match_copy_seq base fast cs cap ip op m lit L);
          auto; lia.
      + cbn [wp fst snd]. lia.
    - destruct (0 + cap - 64 <=? op + L + (ml + 4)).
      + apply wp_goto.
        apply (safe_match_copy_seq base fast cs cap ip op m lit L);
          auto; lia.
      + destruct ((0 <=? op + L - offset) && (8 <=? offset)) eqn:C5.
        * bool_hyps.
          apply (shortcut_match m1 (op + L) offset
                   (fun m' => next_fast (lit + L + 2) (op + L + (ml + 4)) m')
                   _ _ (op + L + (ml + 4))); try lia; try exact I.
          intros m' S2 M.
          apply (sequence_done_match ip op m lit L Hlit HL Hop
                   (lit + L + 2) (op + L + (ml + 4)) m1 m' offset);
            auto; lia.
        * cbn [wp fst snd]. lia. }
  intros [ip3 length] [Hip Hl]. cbn [fst snd] in *.
  (* the match *)
  destruct (Z.ltb_spec (op + L - offset + 0) 0) as [N|N];
    change (0 <? 64 * 1024) with true; cbn [andb]; [exact I|].
  eapply wp_may.
  - instantiate (1 := fun m' =>
      same_shape m1 m'
      /\ match_copied (dst_mem m1) offset (op + L) (op + L + length) (dst_mem m')).
    destruct (Z.eq_dec offset 0) as [Z0|Z0].
    + assert (K : may (if offset <? 16
                       then LZ4_memcpy_using_offset m1 (Ptr Dst (op + L))
                              (Ptr Dst (op + L - offset)) (op + L + length) offset
                       else LZ4_wildCopy32 m1 (Ptr Dst (op + L))
                              (Ptr Dst (op + L - offset)) (op + L + length))
                      (kept m1 (op + L))).
      { destruct (offset <? 16);
          [apply LZ4_memcpy_using_offset_kept|apply LZ4_wildCopy32_kept];
          try apply kept_refl; cbn [off]; lia. }
      eapply may_impl; [exact K|]. intros m' [S2 K2]. split; [exact S2|].
      split; [apply S2|]. split; [exact K2|].
      intros i Hi. rewrite Z0, Z.sub_0_r. reflexivity.
    + destruct (Z.ltb_spec offset 16).
      * eapply may_impl.
        -- apply (LZ4_memcpy_using_offset_match m1 offset (op + L)
                    (op + L + length) (op + L) m1);
             try reflexivity; try lia. apply written_start_match.
        -- intros m' (d' & W & A & B & C). split; [apply W|].
           eapply written_match; [exact W|lia..].
      * eapply may_impl.
        -- apply (LZ4_wildCopy32_match m1 offset (op + L) ltac:(lia) ltac:(lia)
                    1 (op + L + length) (op + L) m1);
             cbn [off blk]; try reflexivity; try lia. apply written_start_match.
        -- intros m' (d' & W & A & B & C). cbn [off] in *. split; [apply W|].
           eapply written_match; [exact W|lia..].
  - exact I.
  - intros m' [S2 M]. cbn [wp].
    apply (sequence_done_match ip op m lit L Hlit HL Hop
             ip3 (op + L + length) m1 m' offset); auto; lia.
Qed.

End Sequence.

(** X11. One turn of a loop of [LZ4_decompress_safe], the main one or the
    fast one: when the decoder goes on after it, the bytes written from the
    output cursor on are a run of literals, equal to the bytes of the input
    at some place after the token, followed by a match in which each byte
    is the byte [offset] before it, [offset] being the 16-bit value that
    follows the literals in the input and leading not before the start of
    the output; the output before the cursor, the input and the dictionary
    are unchanged.  (For an offset of 0 this says nothing of the bytes of
    the match.) *)
Theorem loop_turn_decodes base LZ4_FAST_DEC_LOOP cs cap (fast_loop : bool)
    ip op m :
  0 <= op ->
  sequence_done ip op m
    (land ((if fast_loop then fast_sequence else safe_sequence)
             (safe_params base LZ4_FAST_DEC_LOOP (Ptr Src 0) (Ptr Dst 0) cs cap)
             ip op m)).
Proof.
  intros H. apply wp_land. destruct fast_loop.
  - apply fast_sequence_seq. exact H.
  - apply safe_sequence_seq. exact H.
Qed.

Lemma loop_turn_decodes_witness :
  sequence_done 0 2
    (Mem [x23; x61; x62; x02; x00; x50; x63; x64; x65; x66; x67]
         ([x7a; x7a] ++ repeat x00 30) [])
    (land ((if false then fast_sequence else safe_sequence)
             (safe_params (fun _ => 4096) false (Ptr Src 0) (Ptr Dst 0) 11 32)
             0 2
             (Mem [x23; x61; x62; x02; x00; x50; x63; x64; x65; x66; x67]
                  ([x7a; x7a] ++ repeat x00 30) []))).
Proof.
  apply (loop_turn_decodes (fun _ => 4096) false 11 32 false 0 2
           (Mem [x23; x61; x62; x02; x00; x50; x63; x64; x65; x66; x67]
                ([x7a; x7a] ++ repeat x00 30) [])).
  lia.
Defined.

(** * A match that starts in the external dictionary *)

Lemma memcpy_from m p s n :
  blk s <> Dst -> 0 <= off p ->
  may (memcpy m p s n)
      (fun m1 => same_shape m m1
                 /\ literals_copied (dst_mem m) (contents m (blk s)) (off s)
                                    (off p) (off p + n) (dst_mem m1)).
Proof.
  intros Hs Hp.
  pose proof (memcpy_written
                (literal_byte (dst_mem m) (contents m (blk s)) (off s) (off p))
                m (off p) (off p) m p s n n (off p)
                (feeds_literal m (blk s) (off s) (off p) n Hs)
                (written_start_literal m (blk s) (off s) (off p)) eq_refl
                ltac:(lia) ltac:(lia)) as W.
  unfold memcpy in *. destruct (load m s n) as [bs|] eqn:E; [|reflexivity].
  pose proof (load_len _ _ _ _ E) as Ln. pose proof (len_nonneg bs).
  cbn [lift bind] in *. destruct (store m p bs) as [m1|]; [|reflexivity].
  cbn [lift may wp] in *. split; [apply W|].
  apply (written_literals m (blk s) (off s) (off p) (off p + n) (off p + n) _ m1 W);
    lia.
Qed.

Lemma copy_from_extDict_done P next ip op m length match_ k :
  next = next_fast \/ next = next_safe ->
  blk (dst P) = Dst -> blk (lowPrefix P) = Dst -> blk (dictStart P) = Dict ->
  k = off (lowPrefix P) - match_ -> 0 < k ->
  0 <= off (lowPrefix P) <= op -> op + k < 2 ^ 64 -> 0 <= length ->
  extDict_done ip op m (partialDecoding P) length k
               (off (dictStart P) + dictSize P) (off (lowPrefix P))
               (land (copy_from_extDict P next ip op m length match_)).
Proof.
  intros N Hd Hl Hs Hk Kp Lo Bk Hlen.
  set (J := extDict_done ip op m (partialDecoding P) length k
              (off (dictStart P) + dictSize P) (off (lowPrefix P))).
  assert (JN : forall ip' op' m', J (next_safe ip' op' m') -> J (next ip' op' m')).
  { intros ip' op' m' H. destruct N as [-> | ->]; exact H. }
  apply (wp_land _ J). unfold copy_from_extDict.
  assert (DE : dictEnd P = Ptr Dict (off (dictStart P) + dictSize P)).
  { unfold dictEnd, is_null. destruct (dictStart P) as [b o]. cbn [blk off] in *.
    subst b. reflexivity. }
  rewrite DE. unfold opp. rewrite Hd.
  destruct (lowPrefix P) as [bl low] eqn:LP. cbn [blk off] in *. subst bl.
  assert (Sz : to_size_t (low - match_) = k)
    by (unfold to_size_t; rewrite Z.mod_small by lia; lia).
  rewrite Sz.
  (* the length that is copied *)
  eapply (wp_then _ _
            (fun l => 0 <= l <= length
                      /\ (partialDecoding P = false -> l = length))).
  { destruct (oend P - LASTLITERALS <? op + length).
    - destruct (partialDecoding P) eqn:PD; [|exact I].
      pose proof (to_size_t_range (oend P - op)). cbn [wp].
      split; [lia|discriminate].
    - cbn [wp]. split; [lia|reflexivity]. }
  intros l [Rl Fl]. unfold memmove. cbn [padd blk off].
  destruct (Z.leb_spec l k) as [C|C].
  - (* all of the match is in the dictionary *)
    eapply wp_may; [apply memcpy_from; [discriminate|cbn [off]; lia]|exact I|].
    cbn [padd blk off contents]. intros m1 [S1 Li]. cbn [wp]. apply JN.
    unfold J. cbn [extDict_done].
    replace (off (dictStart P) + dictSize P - k)
      with (off (dictStart P) + dictSize P + - (low - match_)) by lia.
    replace (Z.min (op + l) (op + k)) with (op + l) by lia.
    split; [reflexivity|]. split; [lia|].
    split; [intros; rewrite Fl by auto; lia|]. split; [exact S1|].
    split; [exact Li|]. intros i Hi. lia.
  - (* its first bytes are *)
    eapply wp_may; [apply memcpy_from; [discriminate|cbn [off]; lia]|exact I|].
    cbn [padd blk off contents]. intros m1 [S1 Li].
    assert (So : to_size_t (op + k - low) = op + k - low)
      by (unfold to_size_t; rewrite Z.mod_small by lia; lia).
    rewrite So.
    assert (Hpos : 1 <= op + k - low) by lia.
    assert (Hin : 0 <= op + k - (op + k - low)) by lia.
    pose proof (written_start_match m1 (op + k - low) (op + k)) as W.
    assert (F : forall m' e',
      written (match_byte (dst_mem m1) (op + k - low) (op + k)) m1 e'
              (Z.max (op + k) e') m' ->
      op + l <= e' -> J (next ip (op + k + (l - k)) m')).
    { intros m' e' W' E'. apply JN. unfold J. cbn [extDict_done].
      assert (M : match_copied (dst_mem m1) (op + k - low) (op + k) (op + l)
                               (dst_mem m'))
        by (eapply written_match; [exact W'|lia..]).
      destruct (literals_then_match _ _ _ op k _ _ _ _ ltac:(lia) ltac:(lia)
                  Li M) as [A B].
      destruct S1 as (S1a & S1b & S1c).
      assert (S2 : same_shape m1 m') by apply W'.
      replace (off (dictStart P) + dictSize P - k)
        with (off (dictStart P) + dictSize P + - k) by lia.
      replace (Z.min (op + k + (l - k)) (op + k)) with (op + k) by lia.
      split; [reflexivity|]. split; [lia|]. split; [intros; rewrite Fl by auto; lia|].
      split; [eapply same_shape_trans; [|exact S2]; repeat split; assumption|].
      split.
      - exact A.
      - intros i Hi. apply B. lia. }
    destruct (Z.ltb_spec (op + k - low) (l - k)) as [C2|C2].
    + eapply wp_may; [match_prim Hpos Hin 1|exact I|].
      intros [m2 o2] [W2 E2]. cbn [fst snd off] in *. cbn [wp].
      replace o2 with (op + k + (l - k)) by lia.
      apply (F m2 (op + k + (l - k))); [|lia].
      replace (op + k + (l - k)) with o2 by lia. exact W2.
    + eapply wp_may; [match_prim Hpos Hin 1|exact I|].
      intros m2 W2. cbv beta in W2. cbn [wp].
      apply (F m2 (op + k + (l - k))); [exact W2|lia].
Qed.

(** X12. A match that starts in the external dictionary, [k] bytes before the
    start of the prefix (the code that both loops share): when the decoder
    goes on after it, the input cursor has not moved, the output cursor is
    at the end of the match (or, in a partial decoding, not beyond it), the
    first [k] bytes of the match are the last [k] bytes of the dictionary,
    each later byte of the match is the byte [op + k - lowPrefix] before it
    (the match goes on at the start of the prefix), and the output before
    the match is as it was. *)
Theorem copy_from_extDict_copies P next ip op m length match_ k :
  next = next_fast \/ next = next_safe ->
  blk (dst P) = Dst -> blk (lowPrefix P) = Dst -> blk (dictStart P) = Dict ->
  k = off (lowPrefix P) - match_ -> 0 < k ->
  0 <= off (lowPrefix P) <= op -> op + k < 2 ^ 64 -> 0 <= length ->
  extDict_done ip op m (partialDecoding P) length k
               (off (dictStart P) + dictSize P) (off (lowPrefix P))
               (land (copy_from_extDict P next ip op m length match_)).
Proof. apply copy_from_extDict_done. Qed.

Lemma copy_from_extDict_copies_witness :
  extDict_done 9 2 (Mem [] ([x61; x62] ++ repeat x00 18) [x77; x78; x79; x7a])
    false 5 2 4 0
    (land (copy_from_extDict
             (Params (fun _ => 4096) true (Ptr Src 0) (Ptr Dst 0) 12 20
                     endOnInputSize decode_full_block usingExtDict
                     (Ptr Dst 0) (Ptr Dict 0) 4)
             next_safe 9 2
             (Mem [] ([x61; x62] ++ repeat x00 18) [x77; x78; x79; x7a])
             5 (-2))).
Proof.
  apply (copy_from_extDict_copies
           (Params (fun _ => 4096) true (Ptr Src 0) (Ptr Dst 0) 12 20
                   endOnInputSize decode_full_block usingExtDict
                   (Ptr Dst 0) (Ptr Dict 0) 4)
           next_safe 9 2
           (Mem [] ([x61; x62] ++ repeat x00 18) [x77; x78; x79; x7a])
           5 (-2) 2).
  - right. reflexivity.
  - reflexivity.
  - reflexivity.
  - reflexivity.
  - reflexivity.
  - lia.
  - simpl. lia.
  - simpl. lia.
  - lia.
Defined.

(** * The error code of LZ4_decompress_safe *)

(** X13. A negative result of [LZ4_decompress_safe] tells where the decoder
    stopped: it is [-(ip - src) - 1] for the input cursor [ip] at the
    error, which is inside the input or at its end; so the results from
    [-1] down to [-compressedSize - 1] stand for the places 0 to
    [compressedSize]. *)
Theorem LZ4_decompress_safe_error_code base fast fuel m compressedSize
    dstCapacity rv ip op m' :
  len (src_mem m) = compressedSize -> len (dst_mem m) = dstCapacity ->
  compressedSize <= INT_MAX -> dstCapacity <= INT_MAX ->
  LZ4_decompress_safe base fast fuel m (Ptr Src 0) (Ptr Dst 0)
                      compressedSize dstCapacity
  = Returned rv ip op m' ->
  rv < 0 ->
  rv = - ip - 1 /\ 0 <= ip <= compressedSize.
Proof.
  intros Hs Hd Hcs Hcap.
  apply LZ4_decompress_safe_coded; auto.
  - pose proof (len_nonneg (src_mem m)). lia.
  - pose proof (len_nonneg (dst_mem m)). lia.
Qed.

Lemma LZ4_decompress_safe_error_code_witness :
  -2 = - 1 - 1 /\ 0 <= 1 <= 5.
Proof.
  apply (LZ4_decompress_safe_error_code (fun _ => 4096) false 3
           (Mem [x10; x61; x09; x00; x00] (repeat x00 32) []) 5 32
           (-2) 1 0
           (Mem [x10; x61; x09; x00; x00] (repeat x00 32) [])).
  - reflexivity.
  - reflexivity.
  - vm_compute. discriminate.
  - vm_compute. discriminate.
  - vm_compute. reflexivity.
  - lia.
Defined.

(** * Blocks of literals *)

Lemma slice_app_mid (a b c : list byte) :
  slice (a ++ b ++ c) (len a) (len b) = Some b.
Proof.
  apply slice_spec. unfold len. rewrite !length_app. repeat split; try lia.
  rewrite !Nat2Z.id, skipn_app, Nat.sub_diag, skipn_all. cbn [skipn app].
  rewrite firstn_app, Nat.sub_diag, firstn_all. cbn [firstn].
  rewrite app_nil_r. reflexivity.
Qed.

Lemma slice_app_r (a b : list byte) : slice (a ++ b) (len a) (len b) = Some b.
Proof.
  rewrite <- (app_nil_r b) at 1. rewrite (slice_app_mid a b []). reflexivity.
Qed.

Lemma splice_head (d l : list byte) :
  len l <= len d -> splice d 0 l = Some (l ++ skipn (length l) d).
Proof.
  intros H. unfold splice.
  destruct (Z.leb_spec (0 + len l) (len d)); [|lia]. reflexivity.
Qed.

Lemma read8_head t l d c : read8 (Mem (t :: l) d c) (Ptr Src 0) = Val (byte_val t).
Proof. unfold read8, load. cbn [blk off src_mem]. rewrite slice_head. reflexivity. Qed.

(** The loop of [read_variable_length] on a run of 255s and a last byte. *)
Lemma read_variable_length_loop_run lencheck lc err last tail q :
  forall ip length,
  byte_val last < 255 ->
  (lc = true -> ip + Z.of_nat q < lencheck) ->
  exists e,
    read_variable_length_loop (repeat xff q ++ last :: tail) ip lencheck lc err
                              length
    = Val (VL (to_unsigned (length + 255 * Z.of_nat q + byte_val last))
              (ip + Z.of_nat q + 1) e)
    /\ (e = err \/ e = loop_error).
Proof.
  induction q as [|q IH]; intros ip length L C; cbn [repeat app read_variable_length_loop];
    cbv zeta.
  - change (Z.of_nat 0) with 0. rewrite Z.mul_0_r, !Z.add_0_r.
    destruct (lc && (lencheck <=? ip + 1)).
    + eexists. split; [reflexivity|right; reflexivity].
    + destruct (Z.eqb_spec (byte_val last) 255); [lia|].
      eexists. split; [reflexivity|left; reflexivity].
  - destruct (lc && (lencheck <=? ip + 1)) eqn:E.
    { exfalso. apply andb_true_iff in E. destruct E as [E1 E2].
      apply Z.leb_le in E2. specialize (C E1). lia. }
    change (byte_val xff) with 255. cbn [Z.eqb Pos.eqb].
    destruct (IH (ip + 1) (to_unsigned (length + 255)) L ltac:(intros Hc; specialize (C Hc); lia))
      as (e & R & D).
    exists e. split; [|exact D]. rewrite R.
    rewrite <- Z.add_assoc, to_unsigned_add_l, Nat2Z.inj_succ.
    replace (length + 255 + (255 * Z.of_nat q + byte_val last))
      with (length + 255 * Z.succ (Z.of_nat q) + byte_val last) by lia.
    replace (ip + 1 + Z.of_nat q) with (ip + Z.succ (Z.of_nat q)) by lia.
    reflexivity.
Qed.

Section LastLiterals.

Variables (base : block -> Z) (fast : bool).
Variables (hdr lits d0 dc : list byte).

Hypothesis room : len lits <= len d0.
Hypothesis cap_int : len d0 <= INT_MAX.

Local Abbreviation cs := (len hdr + len lits).
Local Abbreviation P :=
  (safe_params base fast (Ptr Src 0) (Ptr Dst 0) cs (len d0)).
Local Abbreviation m0 := (Mem (hdr ++ lits) d0 dc).
Local Abbreviation m1 :=
  (Mem (hdr ++ lits) (lits ++ skipn (length lits) d0) dc).

(** The literals of the last sequence are copied and the loop is left. *)
Lemma safe_literal_copy_last token :
  safe_literal_copy P (len hdr) 0 m0 token (len lits) (0 + len lits)
  = Goto (break_ cs (len lits) m1).
Proof.
  pose proof (len_nonneg hdr). pose proof (len_nonneg lits).
  unfold safe_literal_copy, safe_params. params. consts.
  destruct (Z.ltb_spec (0 + cs - (2 + 1 + 5)) cs); [|lia].
  rewrite orb_true_r. cbn [orb].
  destruct (Z.eqb_spec cs (0 + cs)); [|lia].
  destruct (Z.ltb_spec (0 + len d0) (0 + len lits)); [lia|].
  cbn [negb orb bind]. unfold memmove, memcpy, load, store.
  cbn [blk off src_mem dst_mem dict_mem].
  rewrite slice_app_r. cbn [lift bind].
  rewrite splice_head by exact room. reflexivity.
Qed.

End LastLiterals.

Lemma decode_loop_break P fuel ip op m :
  endOnInput P = true ->
  decode_loop P fuel (break_ ip op m) = Returned (to_int (op - off (dst P))) ip op m.
Proof. intros E. destruct fuel; cbn [decode_loop]; rewrite E; reflexivity. Qed.

(** The first sequence of a block with a short run of literals alone. *)
Lemma short_literals_sequence base fast t lits d0 dc :
  Z.shiftr (byte_val t) 4 = len lits -> len lits < 15 ->
  len lits <= len d0 ->
  let P := safe_params base fast (Ptr Src 0) (Ptr Dst 0) (1 + len lits) (len d0) in
  let m1 := Mem (t :: lits) (lits ++ skipn (length lits) d0) dc in
  land (safe_sequence P 0 0 (Mem (t :: lits) d0 dc))
  = break_ (1 + len lits) (len lits) m1
  /\ land (fast_sequence P 0 0 (Mem (t :: lits) d0 dc))
     = break_ (1 + len lits) (len lits) m1.
Proof.
  intros T N R P m1. pose proof (len_nonneg lits) as N0.
  pose proof (safe_literal_copy_last base fast [t] lits d0 dc R (byte_val t)) as L.
  change (len [t]) with 1 in L. change ([t] ++ lits) with (t :: lits) in L.
  split.
  - unfold safe_sequence, P, safe_params. params. consts.
    rewrite read8_head. cbn [bind]. unfold ML_BITS. rewrite T.
    destruct (Z.ltb_spec (0 + 1) (0 + (1 + len lits) - 14 - 2)); [lia|].
    rewrite andb_false_r.
    destruct (Z.eqb_spec (len lits) 15); [lia|]. cbn [bind].
    exact (f_equal land L).
  - unfold fast_sequence, P, safe_params. params. consts.
    rewrite read8_head. cbn [bind]. unfold ML_BITS. rewrite T.
    destruct (Z.eqb_spec (len lits) 15); [lia|].
    destruct (Z.ltb_spec (0 + (1 + len lits) - (16 + 1)) (0 + 1)); [|lia].
    exact (f_equal land L).
Qed.

Lemma short_literals_block base fast t lits d0 dc k :
  Z.shiftr (byte_val t) 4 = len lits -> len lits < 15 ->
  len lits <= len d0 -> 0 < len d0 <= INT_MAX ->
  LZ4_decompress_safe base fast (S k) (Mem (t :: lits) d0 dc)
                      (Ptr Src 0) (Ptr Dst 0) (1 + len lits) (len d0)
  = Returned (len lits) (1 + len lits) (len lits)
             (Mem (t :: lits) (lits ++ skipn (length lits) d0) dc).
Proof.
  intros T N R C. pose proof (len_nonneg lits) as N0.
  destruct (short_literals_sequence base fast t lits d0 dc T N R) as [S F].
  unfold LZ4_decompress_safe, LZ4_decompress_generic, decode_entry.
  set (P := safe_params _ _ _ _ _ _) in *.
  change (is_null (src P)) with false. change (endOnInput P) with true.
  change (outputSize P) with (len d0). change (srcSize P) with (1 + len lits).
  change (off (dst P)) with 0. change (off (src P)) with 0.
  cbn [andb negb].
  destruct (Z.eqb_spec (len d0) 0); [lia|].
  destruct (Z.eqb_spec (1 + len lits) 0); [lia|].
  assert (E : to_int (len lits - 0) = len lits).
  { rewrite Z.sub_0_r. apply to_int_small. unfold INT_MAX in C. lia. }
  destruct (LZ4_FAST_DEC_LOOP P && _); cbn [land decode_loop];
    [rewrite F|rewrite S]; rewrite decode_loop_break by reflexivity;
    change (off (dst P)) with 0; rewrite E; reflexivity.
Qed.

Lemma len_cons {A} (x : A) l : len (x :: l) = 1 + len l.
Proof. unfold len. cbn [length]. lia. Qed.

Lemma len_repeat {A} (x : A) n : len (repeat x n) = Z.of_nat n.
Proof. unfold len. rewrite repeat_length. reflexivity. Qed.

Lemma ptr_overflow_no P p n :
  0 <= base P (blk p) -> 0 <= off p -> 0 <= n ->
  base P (blk p) + off p + n < 2 ^ 64 ->
  ptr_overflow P p n = false.
Proof.
  intros B O N H. unfold ptr_overflow, uptrval, to_size_t.
  rewrite (Z.mod_small (base P (blk p) + off p)) by lia.
  rewrite Z.mod_small by lia. apply Z.ltb_ge. lia.
Qed.

(** The first sequence of a block with a long run of literals alone. *)
Lemma long_literals_sequence addr fast t q last lits d0 dc :
  Z.shiftr (byte_val t) 4 = 15 -> byte_val last < 255 ->
  len lits = 15 + 255 * Z.of_nat q + byte_val last ->
  len lits <= len d0 <= INT_MAX ->
  0 <= addr Src -> addr Src + (2 + Z.of_nat q + len lits) < 2 ^ 64 ->
  0 <= addr Dst -> addr Dst + len d0 < 2 ^ 64 ->
  let cs := 2 + Z.of_nat q + len lits in
  let P := safe_params addr fast (Ptr Src 0) (Ptr Dst 0) cs (len d0) in
  let input := t :: repeat xff q ++ last :: lits in
  let m1 := Mem input (lits ++ skipn (length lits) d0) dc in
  land (safe_sequence P 0 0 (Mem input d0 dc)) = break_ cs (len lits) m1
  /\ land (fast_sequence P 0 0 (Mem input d0 dc)) = break_ cs (len lits) m1.
Proof.
  intros T La N R Bs Bs' Bd Bd' cs P input m1.
  pose proof (byte_val_range last) as Rl. pose proof (len_nonneg lits) as N0.
  assert (I : (t :: repeat xff q ++ [last]) ++ lits = input).
  { unfold input. cbn [app]. rewrite <- app_assoc. reflexivity. }
  assert (H : len (t :: repeat xff q ++ [last]) = 2 + Z.of_nat q).
  { rewrite len_cons, len_app, len_repeat. change (len [last]) with 1. lia. }
  pose proof (safe_literal_copy_last addr fast (t :: repeat xff q ++ [last])
                lits d0 dc ltac:(lia) (byte_val t)) as L.
  rewrite I, H in L. fold cs in L.
  destruct (read_variable_length_loop_run (0 + cs - 15) true ok last lits q
              (0 + 1) 0 La ltac:(intros _; unfold cs; lia)) as (e & V & E).
  assert (Le : to_size_t (15 + to_unsigned (0 + 255 * Z.of_nat q + byte_val last))
               = len lits).
  { unfold to_size_t, to_unsigned, INT_MAX in *.
    rewrite (Z.mod_small (0 + _ + _)) by lia. rewrite Z.mod_small by lia. lia. }
  assert (O1 : ptr_overflow P (Ptr Dst 0) (len lits) = false).
  { apply ptr_overflow_no; cbn [blk off];
      change (base P Dst) with (addr Dst); lia. }
  assert (O2 : ptr_overflow P (Ptr Src (0 + Z.of_nat q + 1 + 1)) (len lits) = false).
  { apply ptr_overflow_no; cbn [blk off];
      change (base P Src) with (addr Src); unfold cs in *; lia. }
  assert (RV : read_variable_length (Mem input d0 dc) Src (0 + 1) (0 + cs - 15)
                 true true ok
               = Val (VL (to_unsigned (0 + 255 * Z.of_nat q + byte_val last))
                         (0 + 1 + Z.of_nat q + 1) e)).
  { unfold read_variable_length. cbv zeta.
    destruct (Z.leb_spec (0 + cs - 15) (0 + 1)); [unfold cs in *; lia|].
    cbn [andb]. unfold bytes_from. cbn [Z.leb Z.compare Z.add].
    exact V. }
  split.
  - unfold safe_sequence. fold P.
    change (endOnInput P) with true. change (ipp P 0) with (Ptr Src 0).
    change (blk (src P)) with Src. change (iend P) with (0 + cs).
    change (safeDecode P) with true. change (opp P 0) with (Ptr Dst 0).
    unfold input at 1. rewrite read8_head. cbn [bind]. unfold ML_BITS.
    rewrite T. consts. cbn [Z.eqb Pos.eqb negb andb]. fold input.
    rewrite RV. cbn [bind vl_length vl_ip vl_error]. rewrite Le.
    change (ipp P ?x) with (Ptr Src x).
    replace (0 + 1 + Z.of_nat q + 1) with (0 + Z.of_nat q + 1 + 1) by lia.
    rewrite O1, O2.
    replace (0 + Z.of_nat q + 1 + 1) with (2 + Z.of_nat q) by lia.
    destruct E as [->| ->]; cbn [bind]; exact (f_equal land L).
  - unfold fast_sequence. fold P.
    change (endOnInput P) with true. change (ipp P 0) with (Ptr Src 0).
    change (blk (src P)) with Src. change (iend P) with (0 + cs).
    change (oend P) with (0 + len d0).
    change (safeDecode P) with true. change (opp P 0) with (Ptr Dst 0).
    unfold input at 1. rewrite read8_head. cbn [bind]. unfold ML_BITS.
    rewrite T. consts. cbn [Z.eqb Pos.eqb negb andb]. fold input.
    rewrite RV. cbn [bind vl_length vl_ip vl_error]. rewrite Le.
    change (ipp P ?x) with (Ptr Src x).
    replace (0 + 1 + Z.of_nat q + 1) with (0 + Z.of_nat q + 1 + 1) by lia.
    assert (C : (0 + cs - 32 <? 0 + Z.of_nat q + 1 + 1 + len lits) = true)
      by (apply Z.ltb_lt; unfold cs; lia).
    destruct E as [->| ->]; rewrite O1, O2; cbn [andb]; rewrite C, orb_true_r;
      replace (0 + Z.of_nat q + 1 + 1) with (2 + Z.of_nat q) by lia;
      cbn [bind goto land]; exact (f_equal land L).
Qed.

Lemma long_literals_block base fast t q last lits d0 dc k :
  Z.shiftr (byte_val t) 4 = 15 -> byte_val last < 255 ->
  len lits = 15 + 255 * Z.of_nat q + byte_val last ->
  len lits <= len d0 <= INT_MAX ->
  0 <= base Src -> base Src + (2 + Z.of_nat q + len lits) < 2 ^ 64 ->
  0 <= base Dst -> base Dst + len d0 < 2 ^ 64 ->
  LZ4_decompress_safe base fast (S k)
    (Mem (t :: repeat xff q ++ last :: lits) d0 dc)
    (Ptr Src 0) (Ptr Dst 0) (2 + Z.of_nat q + len lits) (len d0)
  = Returned (len lits) (2 + Z.of_nat q + len lits) (len lits)
      (Mem (t :: repeat xff q ++ last :: lits)
           (lits ++ skipn (length lits) d0) dc).
Proof.
  intros T La N R Bs Bs' Bd Bd'. pose proof (len_nonneg lits) as N0.
  pose proof (byte_val_range last) as Rl.
  destruct (long_literals_sequence base fast t q last lits d0 dc
              T La N R Bs Bs' Bd Bd') as [S F].
  unfold LZ4_decompress_safe, LZ4_decompress_generic, decode_entry.
  set (P := safe_params _ _ _ _ _ _) in *.
  change (is_null (src P)) with false. change (endOnInput P) with true.
  change (outputSize P) with (len d0).
  change (srcSize P) with (2 + Z.of_nat q + len lits).
  change (off (dst P)) with 0. change (off (src P)) with 0.
  cbn [andb negb].
  destruct (Z.eqb_spec (len d0) 0); [lia|].
  destruct (Z.eqb_spec (2 + Z.of_nat q + len lits) 0); [lia|].
  assert (E : to_int (len lits - 0) = len lits).
  { rewrite Z.sub_0_r. apply to_int_small. unfold INT_MAX in R. lia. }
  destruct (LZ4_FAST_DEC_LOOP P && _); cbn [land decode_loop];
    [rewrite F|rewrite S]; rewrite decode_loop_break by reflexivity;
    change (off (dst P)) with 0; rewrite E; reflexivity.
Qed.

(** X14. A block that is one sequence of fewer than 15 literals (a token with
    the number of literals in its high four bits, then the literals) is
    decoded by [LZ4_decompress_safe], in the main loop and in the fast one,
    to these literals: it returns their number, has read the whole input and
    has written the literals at the start of the output and nothing
    else. *)
Theorem LZ4_decompress_safe_literals base fast t lits d0 dc k :
  Z.shiftr (byte_val t) 4 = len lits -> len lits < 15 ->
  len lits <= len d0 -> 0 < len d0 <= INT_MAX ->
  LZ4_decompress_safe base fast (S k) (Mem (t :: lits) d0 dc)
                      (Ptr Src 0) (Ptr Dst 0) (1 + len lits) (len d0)
  = Returned (len lits) (1 + len lits) (len lits)
             (Mem (t :: lits) (lits ++ skipn (length lits) d0) dc).
Proof. apply short_literals_block. Qed.

Lemma LZ4_decompress_safe_literals_witness :
  LZ4_decompress_safe (fun _ => 4096) true 1
    (Mem [x35; x61; x62; x63] (repeat xff 80) [])
    (Ptr Src 0) (Ptr Dst 0) (1 + len [x61; x62; x63]) (len (repeat xff 80))
  = Returned (len [x61; x62; x63]) (1 + len [x61; x62; x63])
      (len [x61; x62; x63])
      (Mem [x35; x61; x62; x63]
           ([x61; x62; x63] ++ skipn (length [x61; x62; x63]) (repeat xff 80))
           []).
Proof.
  apply (LZ4_decompress_safe_literals (fun _ => 4096) true x35
           [x61; x62; x63] (repeat xff 80) [] 0).
  - reflexivity.
  - reflexivity.
  - vm_compute. discriminate.
  - vm_compute. split; [reflexivity|discriminate].
Defined.

(** X15. A block that is one sequence of 15 literals or more (a token with
    15 in its high four bits, [q] bytes 255 and a last byte below 255 that
    with 15 sum to the number of literals, then the literals) is decoded by
    [LZ4_decompress_safe], in either loop, to these literals, when the
    buffers do not wrap around the end of the address space. *)
Theorem LZ4_decompress_safe_long_literals base fast t q last lits d0 dc k :
  Z.shiftr (byte_val t) 4 = 15 -> byte_val last < 255 ->
  len lits = 15 + 255 * Z.of_nat q + byte_val last ->
  len lits <= len d0 <= INT_MAX ->
  0 <= base Src -> base Src + (2 + Z.of_nat q + len lits) < 2 ^ 64 ->
  0 <= base Dst -> base Dst + len d0 < 2 ^ 64 ->
  LZ4_decompress_safe base fast (S k)
    (Mem (t :: repeat xff q ++ last :: lits) d0 dc)
    (Ptr Src 0) (Ptr Dst 0) (2 + Z.of_nat q + len lits) (len d0)
  = Returned (len lits) (2 + Z.of_nat q + len lits) (len lits)
      (Mem (t :: repeat xff q ++ last :: lits)
           (lits ++ skipn (length lits) d0) dc).
Proof. apply long_literals_block. Qed.

Lemma LZ4_decompress_safe_long_literals_witness :
  LZ4_decompress_safe (fun _ => 4096) true 1
    (Mem (xf0 :: repeat xff 1 ++ x03 :: repeat x41 273) (repeat x00 300) [])
    (Ptr Src 0) (Ptr Dst 0) (2 + Z.of_nat 1 + len (repeat x41 273))
    (len (repeat x00 300))
  = Returned (len (repeat x41 273)) (2 + Z.of_nat 1 + len (repeat x41 273))
      (len (repeat x41 273))
      (Mem (xf0 :: repeat xff 1 ++ x03 :: repeat x41 273)
           (repeat x41 273 ++ skipn (length (repeat x41 273)) (repeat x00 300))
           []).
Proof.
  apply (LZ4_decompress_safe_long_literals (fun _ => 4096) true xf0 1 x03
           (repeat x41 273) (repeat x00 300) [] 0).
  - reflexivity.
  - reflexivity.
  - reflexivity.
  - vm_compute. split; discriminate.
  - vm_compute. discriminate.
  - reflexivity.
  - vm_compute. discriminate.
  - reflexivity.
Defined.

(** * The decoder with any directive *)

(** X16. [LZ4_decompress_generic] ends for every directive (with or without
    the end of the input as limit, full or partial decoding, any kind of
    dictionary), every memory and every parameter: each turn of a loop moves
    the input cursor on inside the input block or leaves the loop, so one
    unit of fuel for each byte of that block and one more is enough. *)
Theorem LZ4_decompress_generic_ends P m k :
  LZ4_decompress_generic P (S (Z.to_nat (blen m (blk (src P))) + k)) m
  <> OutOfFuel.
Proof. apply LZ4_decompress_generic_terminates. Qed.

(** X17. [read_variable_length] with its loop check on, from a cursor inside
    the block and with a limit not beyond its end: it does not fault, the
    length is below 2^32, and the cursor it leaves is the one it got (with
    [initial_error]), or beyond it and before the limit (with [ok]), or
    beyond it and at the limit, at the latest one byte after where it
    started (with [loop_error]): it reads no byte at or after
    max(ip + 1, lencheck). *)
Theorem read_variable_length_checked m b ip lencheck initial_check :
  0 <= ip -> lencheck <= blen m b ->
  (initial_check = true \/ ip < blen m b) ->
  exists r,
    read_variable_length m b ip lencheck true initial_check ok = Val r
    /\ vl_checked ip lencheck initial_check r.
Proof.
  intros H0 H1 H2.
  pose proof (read_variable_length_must m b ip lencheck initial_check H0 H1 H2)
    as M.
  unfold must in M.
  destruct (read_variable_length m b ip lencheck true initial_check ok)
    as [r|j]; cbn [wp] in M; [|contradiction].
  exists r. split; [reflexivity|exact M].
Qed.

Lemma read_variable_length_checked_witness :
  exists r,
    read_variable_length (Mem [xf0; xff; xff; x03; x00] [] []) Src 1 3 true
                         true ok = Val r
    /\ vl_checked 1 3 true r.
Proof.
  apply (read_variable_length_checked (Mem [xf0; xff; xff; x03; x00] [] [])
           Src 1 3 true).
  - lia.
  - vm_compute. discriminate.
  - left. reflexivity.
Defined.

(** * LZ4_compressBound *)

Lemma LZ4_compressBound_spec isize :
  INT_MIN <= isize <= INT_MAX ->
  (0 <= isize <= LZ4_MAX_INPUT_SIZE ->
   LZ4_compressBound isize = isize + isize / 255 + 16)
  /\ (isize < 0 \/ LZ4_MAX_INPUT_SIZE < isize -> LZ4_compressBound isize = 0).
Proof.
  unfold INT_MIN, INT_MAX, LZ4_compressBound, LZ4_COMPRESSBOUND,
    LZ4_MAX_INPUT_SIZE, to_unsigned, to_int.
  intros R. split; intros H.
  - rewrite (Z.mod_small isize) by lia. rewrite Z.mod_small by lia.
    destruct (Z.ltb_spec 2113929216 isize); [lia|].
    rewrite Z.quot_div_nonneg by lia.
    assert (0 <= isize / 255 <= 8289918) by (Z.div_mod_to_equations; lia).
    rewrite Z.mod_small by lia. lia.
  - rewrite (Z.mod_small 2113929216) by lia.
    destruct (Z.ltb_spec 2113929216 (isize mod 2 ^ 32)) as [L|L]; [reflexivity|].
    exfalso. destruct H as [H|H].
    + Z.div_mod_to_equations. lia.
    + rewrite Z.mod_small in L by lia. lia.
Qed.

(** X18. For a size in 0 .. LZ4_MAX_INPUT_SIZE the sum of [LZ4_COMPRESSBOUND]
    does not overflow an [int]: the bound is at least the size plus 16, at
    most [INT_MAX], and it does not decrease when the size grows; for every
    other [int] the bound is 0, so it is positive exactly on the sizes
    that are supported. *)
Theorem LZ4_compressBound_bounds a b :
  INT_MIN <= a <= INT_MAX -> INT_MIN <= b <= INT_MAX ->
  (0 <= a <= LZ4_MAX_INPUT_SIZE <-> 0 < LZ4_compressBound a)
  /\ (0 <= a <= LZ4_MAX_INPUT_SIZE ->
      a + 16 <= LZ4_compressBound a <= INT_MAX)
  /\ (0 <= a <= b -> b <= LZ4_MAX_INPUT_SIZE ->
      LZ4_compressBound a <= LZ4_compressBound b).
Proof.
  intros Ra Rb.
  destruct (LZ4_compressBound_spec a Ra) as [A1 A2].
  destruct (LZ4_compressBound_spec b Rb) as [B1 B2].
  unfold INT_MIN, INT_MAX, LZ4_MAX_INPUT_SIZE in *.
  split; [|split].
  - split.
    + intros H. rewrite (A1 H).
      assert (0 <= a / 255) by (apply Z.div_pos; lia). lia.
    + intros H. destruct (Z.lt_ge_cases a 0) as [L|L];
        [rewrite A2 in H by lia; lia|].
      destruct (Z.le_gt_cases a 2113929216) as [U|U]; [lia|].
      rewrite A2 in H by lia. lia.
  - intros H. rewrite (A1 H).
    assert (0 <= a / 255 <= 8289918) by (Z.div_mod_to_equations; lia). lia.
  - intros H1 H2. rewrite A1, B1 by lia.
    assert (a / 255 <= b / 255) by (apply Z.div_le_mono; lia). lia.
Qed.

Lemma LZ4_compressBound_bounds_witness :
  (0 <= 1000 <= LZ4_MAX_INPUT_SIZE <-> 0 < LZ4_compressBound 1000)
  /\ (0 <= 1000 <= LZ4_MAX_INPUT_SIZE ->
      1000 + 16 <= LZ4_compressBound 1000 <= INT_MAX)
  /\ (0 <= 1000 <= 2000 -> 2000 <= LZ4_MAX_INPUT_SIZE ->
      LZ4_compressBound 1000 <= LZ4_compressBound 2000).
Proof.
  apply (LZ4_compressBound_bounds 1000 2000); unfold INT_MIN, INT_MAX; lia.
Defined.

(** * LZ4_compressBound and the decoder *)

Lemma literal_block_exists base fast lits d0 dc k :
  len lits <= LZ4_MAX_INPUT_SIZE ->
  len lits <= len d0 -> 0 < len d0 <= INT_MAX ->
  0 <= base Src -> base Src + LZ4_compressBound (len lits) < 2 ^ 64 ->
  0 <= base Dst -> base Dst + len d0 < 2 ^ 64 ->
  exists input,
    len input <= LZ4_compressBound (len lits)
    /\ LZ4_decompress_safe base fast (S k) (Mem input d0 dc)
                           (Ptr Src 0) (Ptr Dst 0) (len input) (len d0)
       = Returned (len lits) (len input) (len lits)
                  (Mem input (lits ++ skipn (length lits) d0) dc).
Proof.
  intros Hn Hr Hc Bs Bs' Bd Bd'. pose proof (len_nonneg lits) as N0.
  set (n := len lits) in *.
  assert (Rn : INT_MIN <= n <= INT_MAX)
    by (unfold INT_MIN, INT_MAX, LZ4_MAX_INPUT_SIZE in *; lia).
  destruct (LZ4_compressBound_spec n Rn) as [CB _].
  rewrite CB in * by lia. clear CB.
  assert (D : 0 <= n / 255) by (apply Z.div_pos; lia).
  destruct (Z.lt_ge_cases n 15) as [Sh|Lg].
  - exists (byte_of (16 * n) :: lits). rewrite len_cons. fold n. split; [lia|].
    apply short_literals_block; fold n; auto.
    rewrite byte_val_of by lia. rewrite Z.shiftr_div_pow2 by lia.
    change (2 ^ 4) with 16. rewrite Z.mul_comm. apply Z.div_mul. lia.
  - set (q := (n - 15) / 255). set (r := (n - 15) mod 255).
    assert (Q : 0 <= q) by (apply Z.div_pos; lia).
    assert (R : 0 <= r < 255) by (apply Z.mod_pos_bound; lia).
    assert (E : n = 15 + 255 * q + r)
      by (pose proof (Z.div_mod (n - 15) 255 ltac:(lia)); unfold q, r; lia).
    assert (Qn : q <= n / 255) by (apply Z.div_le_mono; lia).
    exists (xf0 :: repeat xff (Z.to_nat q) ++ byte_of r :: lits).
    assert (Ln : len (xf0 :: repeat xff (Z.to_nat q) ++ byte_of r :: lits)
                 = 2 + Z.of_nat (Z.to_nat q) + n).
    { rewrite len_cons, len_app, len_repeat, len_cons. fold n. lia. }
    rewrite Ln. split; [lia|].
    apply long_literals_block; fold n; rewrite ?byte_val_of by lia;
      try reflexivity; try lia.
Qed.

(** X19. [LZ4_compressBound] is enough for any data of a supported size:
    for every run of bytes of at most LZ4_MAX_INPUT_SIZE bytes there is a
    block of at most [LZ4_compressBound] of its size bytes that
    [LZ4_decompress_safe] decodes to exactly these bytes (the block that
    holds them as one run of literals), in the main loop and in the fast
    one. *)
Theorem LZ4_compressBound_suffices base fast lits d0 dc k :
  len lits <= LZ4_MAX_INPUT_SIZE ->
  len lits <= len d0 -> 0 < len d0 <= INT_MAX ->
  0 <= base Src -> base Src + LZ4_compressBound (len lits) < 2 ^ 64 ->
  0 <= base Dst -> base Dst + len d0 < 2 ^ 64 ->
  exists input,
    len input <= LZ4_compressBound (len lits)
    /\ LZ4_decompress_safe base fast (S k) (Mem input d0 dc)
                           (Ptr Src 0) (Ptr Dst 0) (len input) (len d0)
       = Returned (len lits) (len input) (len lits)
                  (Mem input (lits ++ skipn (length lits) d0) dc).
Proof. apply literal_block_exists. Qed.

Lemma LZ4_compressBound_suffices_witness :
  exists input,
    len input <= LZ4_compressBound (len (repeat x41 20))
    /\ LZ4_decompress_safe (fun _ => 4096) true 1
         (Mem input (repeat x00 100) [])
         (Ptr Src 0) (Ptr Dst 0) (len input) (len (repeat x00 100))
       = Returned (len (repeat x41 20)) (len input) (len (repeat x41 20))
           (Mem input
                (repeat x41 20 ++ skipn (length (repeat x41 20))
                                        (repeat x00 100)) []).
Proof.
  apply (LZ4_compressBound_suffices (fun _ => 4096) true (repeat x41 20)
           (repeat x00 100) [] 0).
  - vm_compute. discriminate.
  - vm_compute. discriminate.
  - vm_compute. split; [reflexivity|discriminate].
  - vm_compute. discriminate.
  - vm_compute. reflexivity.
  - vm_compute. discriminate.
  - vm_compute. reflexivity.
Defined.
